(** * duck-chess: sprite-sheet slicing and the board's animation controller

    A shallow embedding of [src/lib/utils/sprites.ts] (module [Sprites]) and of
    the script of [src/lib/ChessBoard.svelte] (module [ChessBoard]), followed
    by the properties of the two that the specification states.

    Conventions.
    - JavaScript numbers that the code only uses as integers (pixel sizes,
      grid columns and rows, loop counters) are [Z]; array indices and the
      frame counter are [nat].  [currentFrame] is a double in the browser and
      is exact below 2^53, which 3 increments per second do not reach.
    - A JavaScript object used as a table ([Record<K, V>], a config literal)
      is a [gmap]; reading a missing key gives [None] ([undefined]).
    - A rejected promise or a thrown exception is [Rejected e]. *)

From Stdlib Require Import ZArith Lia.
From stdpp Require Import base tactics option list numbers countable gmap strings pretty.

(** ** Types shared by the two source files *)

(** [export type SpriteFrame = string; // data URL] *)
Definition SpriteFrame : Type := string.

(** [export type ChessPieceType = 'king' | 'queen' | 'bishop' | 'knight' | 'rook' | 'pawn'] *)
Inductive ChessPieceType : Type := king | queen | bishop | knight | rook | pawn.

(** [export type ChessColorType = 'white' | 'black' | 'green' | 'blue'] *)
Inductive ChessColorType : Type := white | black | green | blue.

#[global] Instance ChessPieceType_eq_dec : EqDecision ChessPieceType.
Proof. solve_decision. Defined.

#[global] Instance ChessColorType_eq_dec : EqDecision ChessColorType.
Proof. solve_decision. Defined.

#[global] Instance ChessPieceType_countable : Countable ChessPieceType.
Proof.
  refine (inj_countable'
    (λ p, match p with
          | king => 0 | queen => 1 | bishop => 2 | knight => 3 | rook => 4 | pawn => 5
          end)
    (λ n, match n with
          | 0 => king | 1 => queen | 2 => bishop | 3 => knight | 4 => rook | _ => pawn
          end) _).
  by intros [].
Defined.

#[global] Instance ChessColorType_countable : Countable ChessColorType.
Proof.
  refine (inj_countable'
    (λ c, match c with white => 0 | black => 1 | green => 2 | blue => 3 end)
    (λ n, match n with 0 => white | 1 => black | 2 => green | _ => blue end) _).
  by intros [].
Defined.

(** What a promise of the sprite utilities settles to.  The code throws two
    [Error]s of its own, told apart by their message; [TypeError] is what the
    engine throws when a property of [undefined] is read. *)
Inductive Error : Type :=
  | FailedToLoadImage (url : string)   (* new Error(`Failed to load image: ${url}`) *)
  | CouldNotGetCanvasContext           (* new Error('Could not get canvas context') *)
  | TypeError.

Inductive Result (A : Type) : Type :=
  | Resolved (a : A)
  | Rejected (e : Error).
Arguments Resolved {A} a.
Arguments Rejected {A} e.

(** The specification's names for the two failures. *)
Definition LoadError (e : Error) : Prop := ∃ url, e = FailedToLoadImage url.
Definition RenderError (e : Error) : Prop := e = CouldNotGetCanvasContext.

(** A counting [for] loop: [for (let i = i0; test(i); i++) body(i)].  The
    fuel is the number of iterations the loop can make; [for_lt] and [for_le]
    supply exactly that number, so the loop always leaves through its test. *)
Fixpoint for_loop {St : Type} (fuel : nat) (test : Z → bool) (i : Z)
    (body : Z → St → St) (s : St) : St :=
  match fuel with
  | O => s
  | S fuel' => if test i then for_loop fuel' test (i + 1)%Z body (body i s) else s
  end.

(** [for (let i = lo; i < hi; i++)] *)
Definition for_lt {St : Type} (lo hi : Z) (body : Z → St → St) (s : St) : St :=
  for_loop (Z.to_nat (hi - lo)) (λ i, bool_decide (i < hi)%Z) lo body s.

(** [for (let i = lo; i <= hi; i++)] *)
Definition for_le {St : Type} (lo hi : Z) (body : Z → St → St) (s : St) : St :=
  for_loop (Z.to_nat (hi + 1 - lo)) (λ i, bool_decide (i ≤ hi)%Z) lo body s.

(** [for (const x of xs) body(x)], where the body may throw. *)
Fixpoint for_of {A St : Type} (xs : list A) (body : A → St → Result St) (s : St)
    : Result St :=
  match xs with
  | [] => Resolved s
  | x :: xs' =>
      match body x s with
      | Resolved s' => for_of xs' body s'
      | Rejected e => Rejected e
      end
  end.

(** ** The browser interface the sprite utilities are written against

    [Image], [document.createElement('canvas')] and the 2D context are not
    code of the repository.  They are an interface here: the operations the
    code calls, and the two facts about a canvas that the code relies on when
    it reuses one canvas for many frames ([clearRect] over the whole canvas
    gives back the blank canvas; drawing does not resize it), and the one
    fact about a data URL that [getPieceSprite] relies on when it tests a
    sprite for truthiness. *)
Class Canvas2D : Type := {
  HTMLImageElement : Type;
  img_width : HTMLImageElement → Z;
  img_height : HTMLImageElement → Z;
  (** the bitmap of a canvas element *)
  HTMLCanvasElement : Type;
  (** [createElement('canvas')] followed by [canv.width = w; canv.height = h] *)
  createCanvas : Z → Z → HTMLCanvasElement;
  canvas_size : HTMLCanvasElement → Z * Z;
  (** [ctx.clearRect(x, y, w, h)] *)
  clearRect : Z → Z → Z → Z → HTMLCanvasElement → HTMLCanvasElement;
  (** [ctx.drawImage(img, sx, sy, sw, sh, dx, dy, dw, dh)] *)
  drawImage : HTMLImageElement → Z → Z → Z → Z → Z → Z → Z → Z →
              HTMLCanvasElement → HTMLCanvasElement;
  (** [canv.toDataURL('image/png')] *)
  toDataURL : HTMLCanvasElement → SpriteFrame;
  canvas_size_create : ∀ w h, canvas_size (createCanvas w h) = (w, h);
  canvas_size_clearRect : ∀ x y w h cv,
    canvas_size (clearRect x y w h cv) = canvas_size cv;
  canvas_size_drawImage : ∀ img sx sy sw sh dx dy dw dh cv,
    canvas_size (drawImage img sx sy sw sh dx dy dw dh cv) = canvas_size cv;
  clearRect_whole : ∀ w h cv,
    canvas_size cv = (w, h) → clearRect 0 0 w h cv = createCanvas w h;
  (** a data URL starts with [data:] *)
  toDataURL_nonempty : ∀ cv, toDataURL cv ≠ EmptyString;
}.

(** ** [src/lib/utils/sprites.ts]: the sprite utilities *)
Module Sprites.

(** [interface SpritePosition] *)
Record SpritePosition : Type := mkSpritePosition {
  column : Z;
  row : Z;
}.

(** [interface AnimationColumnsConfig] *)
Record AnimationColumnsConfig : Type := mkAnimationColumnsConfig {
  startColumn : Z;
  endColumn : Z;
}.

(** *** Positions and configurations

    [ColorPiecesConfig] and [FullChessConfig] are interfaces of plain
    objects.  The code itself tests for missing colours and positions
    ([if (!colorConfig) continue], [if (piecePos)], [config.green ? ... : {}]),
    so a configuration is a table that may lack keys. *)
Abbreviation ColorPiecesConfig := (gmap ChessPieceType SpritePosition).
Abbreviation FullChessConfig := (gmap ChessColorType (gmap ChessPieceType SpritePosition)).

(** [Record<ChessColorType, Record<ChessPieceType, SpriteFrame>>] *)
Abbreviation PieceSprites := (gmap ChessColorType (gmap ChessPieceType SpriteFrame)).

(** [Record<ChessColorType, Record<ChessPieceType, SpriteFrame[]>>] *)
Abbreviation PieceAnimationFrames :=
  (gmap ChessColorType (gmap ChessPieceType (list SpriteFrame))).

Section WithBrowser.
Context `{Canvas2D}.
Local Open Scope Z_scope.

(** *** The environment of one page *)

(** What happens to an image request: [onload] fires with the decoded image,
    or [onerror] fires because the fetch or the decoding failed. *)
Inductive Response : Type :=
  | Decoded (img : HTMLImageElement)
  | FetchFailed
  | DecodeFailed.

Record World : Type := mkWorld {
  (** the answer to the [n]-th image request of the page, by its url *)
  respond : nat → string → Response;
  (** whether [getContext('2d')] yields a context *)
  context2d : bool;
  (** the urls assigned to [img.src] so far, most recent first *)
  requests : list string;
}.

(** An asynchronous function of the module: it reads and extends the world
    and settles to a value or to an error. *)
Definition Async (A : Type) : Type := World → Result A * World.

Definition resolve {A : Type} (a : A) : Async A := λ w, (Resolved a, w).

(** [const x = await m; k x] *)
Definition await {A B : Type} (m : Async A) (k : A → Async B) : Async B :=
  λ w, match m w with
       | (Resolved a, w') => k a w'
       | (Rejected e, w') => (Rejected e, w')
       end.

(** A synchronous computation that may throw, run inside an async function. *)
Definition settle {A : Type} (r : Result A) : Async A := λ w, (r, w).

(** *** [loadImage] *)
Definition loadImage (url : string) : Async HTMLImageElement :=
  λ w,
    let w' := mkWorld (respond w) (context2d w) (url :: requests w) in
    match respond w (length (requests w)) url with
    | Decoded img => (Resolved img, w')
    | FetchFailed | DecodeFailed => (Rejected (FailedToLoadImage url), w')
    end.

(** [const ctx = canv.getContext('2d'); if (!ctx) throw new Error(...)] *)
Definition getContext2d : Async unit :=
  λ w, (if context2d w then Resolved () else Rejected CouldNotGetCanvasContext, w).

(** The three statements every extraction repeats:
    [ctx.clearRect(0, 0, fw, fh); ctx.drawImage(img, sx, sy, fw, fh, 0, 0, fw, fh)]
    and then [canv.toDataURL('image/png')] of the canvas so painted. *)
Definition paint (img : HTMLImageElement) (sx sy fw fh : Z)
    (cv : HTMLCanvasElement) : HTMLCanvasElement :=
  drawImage img sx sy fw fh 0 0 fw fh (clearRect 0 0 fw fh cv).

(** [frames.push(canv.toDataURL('image/png'))] after painting; the loop state
    is the canvas and the frames pushed so far. *)
Definition push_frame (img : HTMLImageElement) (sx sy fw fh : Z)
    (st : HTMLCanvasElement * list SpriteFrame) : HTMLCanvasElement * list SpriteFrame :=
  let cv := paint img sx sy fw fh st.1 in
  (cv, st.2 ++ [toDataURL cv]).

(** *** [splitSpriteSheet]

    [columns] and [rows] are integers ([rows] defaults to 1 in the source).
    With [columns ≤ 0] or [rows ≤ 0] the loops do not run, here as there,
    whatever the frame size comes out as. *)
Definition splitSpriteSheet (url : string) (columns rows : Z) : Async (list SpriteFrame) :=
  await (loadImage url) (λ img,
  let frameWidth := img_width img / columns in
  let frameHeight := img_height img / rows in
  let canv := createCanvas frameWidth frameHeight in
  await getContext2d (λ _,
  let frames : list SpriteFrame := [] in
  resolve (for_lt 0 rows (λ r,
             for_lt 0 columns (λ c,
               push_frame img (c * frameWidth) (r * frameHeight) frameWidth frameHeight))
             (canv, frames)).2)).

(** *** [extractSprite] *)
Definition extractSprite (url : string) (column row frameWidth frameHeight : Z)
    : Async SpriteFrame :=
  await (loadImage url) (λ img,
  let canv := createCanvas frameWidth frameHeight in
  await getContext2d (λ _,
  resolve (toDataURL
    (paint img (column * frameWidth) (row * frameHeight) frameWidth frameHeight canv)))).

(** Sequencing of computations that may throw. *)
Definition and_then {A B : Type} (r : Result A) (k : A → Result B) : Result B :=
  match r with
  | Resolved a => k a
  | Rejected e => Rejected e
  end.

(** *** [loadChessPiecesWithConfig] *)

(** The closure [extractSingle]; [pos] is what the caller read from the
    colour's table, and [pos.column] throws when that was [undefined]. *)
Definition extractSingle (img : HTMLImageElement) (frameWidth frameHeight : Z)
    (pos : option SpritePosition) (cv : HTMLCanvasElement)
    : Result (SpriteFrame * HTMLCanvasElement) :=
  match pos with
  | None => Rejected TypeError
  | Some pos =>
      let cv' := paint img (column pos * frameWidth) (row pos * frameHeight)
                   frameWidth frameHeight cv in
      Resolved (toDataURL cv', cv')
  end.

(** The keys of the object literal of [extractColorSet], in the order in
    which their initialisers run. *)
Definition colorSetKeys : list ChessPieceType := [king; queen; bishop; knight; rook; pawn].

(** The closure [extractColorSet]; [colorConfig.king] throws when
    [colorConfig] is [undefined]. *)
Definition extractColorSet (img : HTMLImageElement) (frameWidth frameHeight : Z)
    (colorConfig : option ColorPiecesConfig) (cv : HTMLCanvasElement)
    : Result (gmap ChessPieceType SpriteFrame * HTMLCanvasElement) :=
  match colorConfig with
  | None => Rejected TypeError
  | Some colorConfig =>
      for_of colorSetKeys
        (λ key '(set, cv),
           and_then (extractSingle img frameWidth frameHeight (colorConfig !! key) cv)
             (λ '(frame, cv'), Resolved (<[key := frame]> set, cv')))
        (∅, cv)
  end.

(** [config.green ? extractColorSet(config.green) : {}] *)
Definition extractOptionalColorSet (img : HTMLImageElement) (frameWidth frameHeight : Z)
    (colorConfig : option ColorPiecesConfig) (cv : HTMLCanvasElement)
    : Result (gmap ChessPieceType SpriteFrame * HTMLCanvasElement) :=
  match colorConfig with
  | Some _ => extractColorSet img frameWidth frameHeight colorConfig cv
  | None => Resolved (∅, cv)
  end.

Definition loadChessPiecesWithConfig (url : string) (config : FullChessConfig)
    (frameWidth frameHeight : Z) : Async PieceSprites :=
  await (loadImage url) (λ img,
  let canv := createCanvas frameWidth frameHeight in
  await getContext2d (λ _,
  settle (
    and_then (extractColorSet img frameWidth frameHeight (config !! white) canv)
      (λ '(white_set, canv),
    and_then (extractColorSet img frameWidth frameHeight (config !! black) canv)
      (λ '(black_set, canv),
    and_then (extractOptionalColorSet img frameWidth frameHeight (config !! green) canv)
      (λ '(green_set, canv),
    and_then (extractOptionalColorSet img frameWidth frameHeight (config !! blue) canv)
      (λ '(blue_set, canv),
    Resolved ({[ white := white_set; black := black_set;
                 green := green_set; blue := blue_set ]} : PieceSprites)))))))).

(** *** The shipped configuration *)
Definition DEFAULT_CHESS_PIECES_CONFIG : FullChessConfig :=
  {[ blue := {[ pawn := mkSpritePosition 0 0; rook := mkSpritePosition 1 1;
                knight := mkSpritePosition 1 2; bishop := mkSpritePosition 2 3;
                queen := mkSpritePosition 1 4; king := mkSpritePosition 2 5 ]};
     green := {[ pawn := mkSpritePosition 5 0; rook := mkSpritePosition 6 1;
                 knight := mkSpritePosition 6 2; bishop := mkSpritePosition 7 3;
                 queen := mkSpritePosition 6 4; king := mkSpritePosition 7 5 ]};
     white := {[ pawn := mkSpritePosition 0 6; rook := mkSpritePosition 1 7;
                 knight := mkSpritePosition 1 8; bishop := mkSpritePosition 2 9;
                 queen := mkSpritePosition 1 10; king := mkSpritePosition 2 11 ]};
     black := {[ pawn := mkSpritePosition 5 6; rook := mkSpritePosition 6 7;
                 knight := mkSpritePosition 6 8; bishop := mkSpritePosition 7 9;
                 queen := mkSpritePosition 6 10; king := mkSpritePosition 7 11 ]} ]}.

Definition CHESS_SPRITE_SIZE : Z := 16.

(** The default of the [url] parameter of the two loaders. *)
Definition DEFAULT_PIECES_URL : string := "/assets/pieces/pieces.webp".

Definition loadDefaultChessPieces (url : string) (config : FullChessConfig)
    : Async PieceSprites :=
  loadChessPiecesWithConfig url config CHESS_SPRITE_SIZE CHESS_SPRITE_SIZE.

(** *** Animation ranges *)
Definition DEFAULT_ANIMATION_COLUMNS : gmap ChessColorType AnimationColumnsConfig :=
  {[ white := mkAnimationColumnsConfig 1 4; blue := mkAnimationColumnsConfig 1 4;
     green := mkAnimationColumnsConfig 6 9; black := mkAnimationColumnsConfig 6 9 ]}.

(** *** [extractAnimationFrames] *)
Definition extractAnimationFrames (url : string) (row startColumn endColumn : Z)
    (frameWidth frameHeight : Z) : Async (list SpriteFrame) :=
  await (loadImage url) (λ img,
  let canv := createCanvas frameWidth frameHeight in
  await getContext2d (λ _,
  let frames : list SpriteFrame := [] in
  resolve (for_le startColumn endColumn (λ col,
             push_frame img (col * frameWidth) (row * frameHeight) frameWidth frameHeight)
             (canv, frames)).2)).

(** *** [loadPieceAnimationFrames] *)

(** The closure [extractFramesForPiece]: a fresh [frames] array, filled on
    the canvas the whole call shares. *)
Definition extractFramesForPiece (img : HTMLImageElement) (row startCol endCol : Z)
    (cv : HTMLCanvasElement) : HTMLCanvasElement * list SpriteFrame :=
  for_le startCol endCol (λ col,
    push_frame img (col * CHESS_SPRITE_SIZE) (row * CHESS_SPRITE_SIZE)
      CHESS_SPRITE_SIZE CHESS_SPRITE_SIZE)
    (cv, []).

Definition pieceTypes : list ChessPieceType := [king; queen; bishop; knight; rook; pawn].
Definition colors : list ChessColorType := [white; black; green; blue].

(** The body of [for (const pieceType of pieceTypes)];
    [result[color][pieceType] = ...] throws when [result[color]] is missing. *)
Definition animatePieceType (img : HTMLImageElement) (color : ChessColorType)
    (colorConfig : ColorPiecesConfig) (startColumn endColumn : Z)
    (pieceType : ChessPieceType) (st : HTMLCanvasElement * PieceAnimationFrames)
    : Result (HTMLCanvasElement * PieceAnimationFrames) :=
  let '(cv, result) := st in
  match colorConfig !! pieceType with
  | Some piecePos =>
      let '(cv', frames) := extractFramesForPiece img (row piecePos) startColumn endColumn cv in
      match result !! color with
      | Some of_color => Resolved (cv', <[color := <[pieceType := frames]> of_color]> result)
      | None => Rejected TypeError
      end
  | None => Resolved (cv, result)
  end.

(** The body of [for (const color of colors)]; destructuring
    [animConfig[color]] throws when it is [undefined]. *)
Definition animateColor (img : HTMLImageElement) (config : FullChessConfig)
    (animConfig : gmap ChessColorType AnimationColumnsConfig)
    (color : ChessColorType) (st : HTMLCanvasElement * PieceAnimationFrames)
    : Result (HTMLCanvasElement * PieceAnimationFrames) :=
  match config !! color with
  | None => Resolved st
  | Some colorConfig =>
      match animConfig !! color with
      | None => Rejected TypeError
      | Some range =>
          for_of pieceTypes
            (animatePieceType img color colorConfig (startColumn range) (endColumn range))
            st
      end
  end.

Definition loadPieceAnimationFrames (url : string) (config : FullChessConfig)
    (animConfig : gmap ChessColorType AnimationColumnsConfig)
    : Async PieceAnimationFrames :=
  await (loadImage url) (λ img,
  let canv := createCanvas CHESS_SPRITE_SIZE CHESS_SPRITE_SIZE in
  await getContext2d (λ _,
  let result : PieceAnimationFrames :=
    {[ white := ∅; black := ∅; green := ∅; blue := ∅ ]} in
  settle (and_then (for_of colors (animateColor img config animConfig) (canv, result))
            (λ st, Resolved st.2)))).

(** *** Vocabulary of the properties *)

(** The frame of the rectangle [(sx, sy, fw, fh)] of a decoded image: the
    data URL of a new canvas of [fw] x [fh] pixels onto which that rectangle,
    and nothing else, has been drawn at the origin in its own size.  This is
    the specification's [extractFrame], said with the browser's operations
    only. *)
Definition crop (img : HTMLImageElement) (sx sy fw fh : Z) : SpriteFrame :=
  toDataURL (drawImage img sx sy fw fh 0 0 fw fh (createCanvas fw fh)).

(** All frames of a sheet of [columns] x [rows] cells of [fw] x [fh] pixels in
    row-major order: row 0 from left to right, then row 1, and so on. *)
Definition sheet_frames (img : HTMLImageElement) (columns rows fw fh : Z)
    : list SpriteFrame :=
  mjoin ((λ r, (λ c, crop img (c * fw) (r * fh) fw fh) <$> seqZ 0 columns) <$> seqZ 0 rows).

(** One frame per column of [startColumn .. endColumn] on the given row, by
    increasing column: the specification's [extractFrameRange]. *)
Definition strip_frames (img : HTMLImageElement) (row startColumn endColumn fw fh : Z)
    : list SpriteFrame :=
  (λ col, crop img (col * fw) (row * fh) fw fh) <$> seqZ startColumn (endColumn + 1 - startColumn).

(** A table with the six fields of [interface ColorPiecesConfig]. *)
Definition is_ColorPiecesConfig (colorConfig : ColorPiecesConfig) : Prop :=
  ∀ pieceType, is_Some (colorConfig !! pieceType).

(** A table of the shape of [interface FullChessConfig]: [white] and [black]
    are required, [green] and [blue] optional. *)
Definition is_FullChessConfig (config : FullChessConfig) : Prop :=
  is_Some (config !! white) ∧ is_Some (config !! black) ∧
  ∀ color colorConfig, config !! color = Some colorConfig → is_ColorPiecesConfig colorConfig.

(** What [loadPieceAnimationFrames] is to store under [color] and
    [pieceType]: the strip of the piece's row over the colour's columns when
    the configuration has a position, and nothing otherwise. *)
Definition resolved_strip (img : HTMLImageElement) (config : FullChessConfig)
    (animConfig : gmap ChessColorType AnimationColumnsConfig)
    (color : ChessColorType) (pieceType : ChessPieceType) : option (list SpriteFrame) :=
  pos ← config !! color ≫= (.!! pieceType);
  range ← animConfig !! color;
  Some (strip_frames img (row pos) (startColumn range) (endColumn range)
          CHESS_SPRITE_SIZE CHESS_SPRITE_SIZE).

(** The state of the outer loop once the colours [seen] are dealt with. *)
Definition animated_upto (img : HTMLImageElement) (config : FullChessConfig)
    (animConfig : gmap ChessColorType AnimationColumnsConfig)
    (seen : list ChessColorType)
    (st : HTMLCanvasElement * PieceAnimationFrames) : Prop :=
  canvas_size st.1 = (CHESS_SPRITE_SIZE, CHESS_SPRITE_SIZE) ∧
  ∀ color, ∃ of_color,
    st.2 !! color = Some of_color ∧
    ∀ pieceType,
      of_color !! pieceType =
        if decide (color ∈ seen)
        then resolved_strip img config animConfig color pieceType
        else None.

(** What [loadChessPiecesWithConfig] is to store under [color]: the crops of
    the colour's positions, and the empty object for a colour the
    configuration does not have. *)
Definition resolved_set (img : HTMLImageElement) (config : FullChessConfig) (fw fh : Z)
    (color : ChessColorType) : gmap ChessPieceType SpriteFrame :=
  match config !! color with
  | Some colorConfig =>
      (λ pos, crop img (column pos * fw) (row pos * fh) fw fh) <$> colorConfig
  | None => ∅
  end.

(** How an extraction [op] that starts by loading [url] settles in [w]: with
    the loader's error when the image does not load; with the context error
    when the image loads and no 2D context is to be had; with a value
    otherwise.  Either way the image was requested once. *)
Definition settles_as_extraction {A : Type} (url : string) (op : Async A) (w : World)
    : Prop :=
  match (loadImage url w).1 with
  | Rejected e => (op w).1 = Rejected e ∧ LoadError e
  | Resolved img =>
      if context2d w
      then ∃ a, (op w).1 = Resolved a
      else ∃ e, (op w).1 = Rejected e ∧ RenderError e
  end ∧
  requests (op w).2 = url :: requests w.

(** *** [extractChessPieces]

    [interface ChessPieceConfig]; the loop reads [piece.position.column]
    without a test, so a piece is a record with both fields. *)
Record ChessPieceConfig : Type := mkChessPieceConfig {
  name : string;
  position : SpritePosition;
}.

(** [results[key] = value] on an object that started as [{}]; the table
    holds the object's own properties.  The key [__proto__] names the
    accessor of [Object.prototype]: assigning through it stores no property
    of the object's own (a string is ignored; an array becomes the object's
    prototype, which the table does not record). *)
Definition assign {V : Type} (key : string) (value : V) (results : gmap string V)
    : gmap string V :=
  if bool_decide (key = "__proto__") then results else <[key := value]> results.

(** The body of [for (const piece of pieces)], which does not throw; the loop
    state is the canvas and [results]. *)
Definition extractPiece (img : HTMLImageElement) (frameWidth frameHeight : Z)
    (st : HTMLCanvasElement * gmap string SpriteFrame) (piece : ChessPieceConfig)
    : HTMLCanvasElement * gmap string SpriteFrame :=
  let cv := paint img (column (position piece) * frameWidth)
              (row (position piece) * frameHeight) frameWidth frameHeight st.1 in
  (cv, assign (name piece) (toDataURL cv) st.2).

Definition extractChessPieces (url : string) (pieces : list ChessPieceConfig)
    (frameWidth frameHeight : Z) : Async (gmap string SpriteFrame) :=
  await (loadImage url) (λ img,
  let canv := createCanvas frameWidth frameHeight in
  await getContext2d (λ _,
  let results : gmap string SpriteFrame := ∅ in
  resolve (foldl (extractPiece img frameWidth frameHeight) (canv, results) pieces).2)).

(** *** [splitMultipleSpriteSheets]

    [{ url: string; columns: number; rows?: number }] *)
Record SheetItem : Type := mkSheetItem {
  item_url : string;
  item_columns : Z;
  item_rows : option Z;
}.

(** [items.map(async (it) => ...)]: the calls of [splitSpriteSheet] are made
    in the order of [items], each running up to its [await], that is, each
    requesting its image.  What a call settles to is decided by the answer to
    its own request, so it is worked out here, and none of the calls is
    skipped when another fails. *)
Fixpoint startSheets (items : list SheetItem) (w : World)
    : list (Result (list SpriteFrame)) * World :=
  match items with
  | [] => ([], w)
  | it :: rest =>
      let '(outcome, w) :=
        splitSpriteSheet (item_url it) (item_columns it) (default 1 (item_rows it)) w in
      let '(outcomes, w) := startSheets rest w in
      (outcome :: outcomes, w)
  end.

(** The calls settle in the order [order], a list of positions in [items]
    that the browser's timing decides.  A call that resolved runs
    [results[it.url] = frames]; [Promise.all] rejects with the reason of the
    first call that rejects, and once every call has resolved the function
    returns [results]. *)
Fixpoint settleSheets (order : list nat) (items : list SheetItem)
    (outcomes : list (Result (list SpriteFrame)))
    (results : gmap string (list SpriteFrame)) : Result (gmap string (list SpriteFrame)) :=
  match order with
  | [] => Resolved results
  | i :: later =>
      match items !! i, outcomes !! i with
      | Some it, Some (Resolved frames) =>
          settleSheets later items outcomes (assign (item_url it) frames results)
      | Some _, Some (Rejected e) => Rejected e
      | _, _ => settleSheets later items outcomes results
      end
  end.

Definition splitMultipleSpriteSheets (items : list SheetItem) (order : list nat)
    : Async (gmap string (list SpriteFrame)) :=
  λ w,
    let results : gmap string (list SpriteFrame) := ∅ in
    let '(outcomes, w) := startSheets items w in
    (settleSheets order items outcomes results, w).

(** *** Vocabulary of the further properties *)

(** Every configured colour has an animation range. *)
Definition has_ranges (config : FullChessConfig)
    (animConfig : gmap ChessColorType AnimationColumnsConfig) : Prop :=
  ∀ color, is_Some (config !! color) → is_Some (animConfig !! color).

(** What the call of [splitSpriteSheet] for the item [it] settles to when
    its image request is the [n]-th of the page. *)
Definition sheet_outcome (w : World) (n : nat) (it : SheetItem)
    : Result (list SpriteFrame) :=
  match respond w n (item_url it) with
  | Decoded img =>
      if context2d w
      then Resolved (sheet_frames img (item_columns it) (default 1 (item_rows it))
                       (img_width img / item_columns it)
                       (img_height img / default 1 (item_rows it)))
      else Rejected CouldNotGetCanvasContext
  | FetchFailed | DecodeFailed => Rejected (FailedToLoadImage (item_url it))
  end.

(** The table [loadChessPiecesWithConfig] resolves to. *)
Definition resolved_sprites (img : HTMLImageElement) (config : FullChessConfig)
    (fw fh : Z) : PieceSprites :=
  {[ white := resolved_set img config fw fh white;
     black := resolved_set img config fw fh black;
     green := resolved_set img config fw fh green;
     blue := resolved_set img config fw fh blue ]}.

End WithBrowser.
End Sprites.

(** ** [src/lib/ChessBoard.svelte]: the script of the board component *)
Module ChessBoard.

(** [type BoardPiece = { color: ChessColorType; type: ChessPieceType } | null] *)
Record Piece : Type := mkPiece {
  color : ChessColorType;
  type : ChessPieceType;
}.
Abbreviation BoardPiece := (option Piece).

(** [{ row: number; col: number }], the coordinates of a square.  Squares
    are addressed by the indices of the two [#each] blocks, so they are
    natural numbers. *)
Record Cell : Type := mkCell {
  row : nat;
  col : nat;
}.

#[global] Instance Cell_eq_dec : EqDecision Cell.
Proof. solve_decision. Defined.

(** The calls the component makes to the browser's timer table. *)
Inductive TimerOp : Type :=
  | SetInterval (id : positive)
  | ClearInterval (id : positive).

(** The props and variables of one component instance, together with the
    part of the browser it mutates: the timer calls it has made (most recent
    first) and the handle the next [setInterval] will return.  Handles are
    positive, so [if (animationInterval)] tests for [null] only.  The props
    are given when the instance is created; [playerColor], the one prop a
    handler reads, is never passed by the page and keeps its default. *)
Record Component : Type := mkComponent {
  size : nat;
  board : string;
  playerColor : ChessColorType;
  boardState : list (list BoardPiece);
  pieceSprites : option Sprites.PieceSprites;
  animationFrames : option Sprites.PieceAnimationFrames;
  loading : bool;
  selectedPiece : option Cell;
  currentFrame : nat;
  animationInterval : option positive;
  timerCalls : list TimerOp;
  nextHandle : positive;
}.

(** Assignments to the variables the handlers write. *)
Definition set_boardState (v : list (list BoardPiece)) (s : Component) : Component :=
  mkComponent (size s) (board s) (playerColor s) v (pieceSprites s)
    (animationFrames s) (loading s) (selectedPiece s) (currentFrame s)
    (animationInterval s) (timerCalls s) (nextHandle s).

Definition set_assets (sprites : Sprites.PieceSprites)
    (frames : Sprites.PieceAnimationFrames) (s : Component) : Component :=
  mkComponent (size s) (board s) (playerColor s) (boardState s) (Some sprites)
    (Some frames) (loading s) (selectedPiece s) (currentFrame s)
    (animationInterval s) (timerCalls s) (nextHandle s).

Definition set_loading (v : bool) (s : Component) : Component :=
  mkComponent (size s) (board s) (playerColor s) (boardState s) (pieceSprites s)
    (animationFrames s) v (selectedPiece s) (currentFrame s)
    (animationInterval s) (timerCalls s) (nextHandle s).

Definition set_selectedPiece (v : option Cell) (s : Component) : Component :=
  mkComponent (size s) (board s) (playerColor s) (boardState s) (pieceSprites s)
    (animationFrames s) (loading s) v (currentFrame s)
    (animationInterval s) (timerCalls s) (nextHandle s).

Definition set_currentFrame (v : nat) (s : Component) : Component :=
  mkComponent (size s) (board s) (playerColor s) (boardState s) (pieceSprites s)
    (animationFrames s) (loading s) (selectedPiece s) v
    (animationInterval s) (timerCalls s) (nextHandle s).

Definition set_animationInterval (v : option positive) (s : Component) : Component :=
  mkComponent (size s) (board s) (playerColor s) (boardState s) (pieceSprites s)
    (animationFrames s) (loading s) (selectedPiece s) (currentFrame s)
    v (timerCalls s) (nextHandle s).

(** [setInterval(() => { currentFrame++ }, FRAME_DURATION)]: the browser
    hands out a fresh handle.  Every interval of the component has the same
    callback, so the timer table need not store it; the period
    ([1000 / ANIMATION_FPS] ms) is not modelled, a firing is a [Tick]. *)
Definition setInterval (s : Component) : positive * Component :=
  (nextHandle s,
   mkComponent (size s) (board s) (playerColor s) (boardState s) (pieceSprites s)
     (animationFrames s) (loading s) (selectedPiece s) (currentFrame s)
     (animationInterval s) (SetInterval (nextHandle s) :: timerCalls s)
     (Pos.succ (nextHandle s))).

(** [clearInterval(id)] *)
Definition clearInterval (id : positive) (s : Component) : Component :=
  mkComponent (size s) (board s) (playerColor s) (boardState s) (pieceSprites s)
    (animationFrames s) (loading s) (selectedPiece s) (currentFrame s)
    (animationInterval s) (ClearInterval id :: timerCalls s) (nextHandle s).

(** The intervals that are running after the given calls. *)
Fixpoint running (calls : list TimerOp) : gset positive :=
  match calls with
  | [] => ∅
  | SetInterval id :: earlier => {[id]} ∪ running earlier
  | ClearInterval id :: earlier => running earlier ∖ {[id]}
  end.

(** *** [getInitialBoard] *)
Definition backRow : list ChessPieceType :=
  [rook; knight; bishop; queen; king; bishop; knight; rook].

(** [board[r][c] = v] *)
Definition set_square (r c : nat) (v : BoardPiece) (board : list (list BoardPiece))
    : list (list BoardPiece) :=
  alter (λ boardRow, <[c := v]> boardRow) r board.

(** One iteration of either loop of [getInitialBoard]: the back row on [r0],
    the pawns on [r1].  [backRow[c]] is read with [c < 8 = backRow.length]. *)
Definition place (side : ChessColorType) (r0 r1 : nat) (c : Z)
    (board : list (list BoardPiece)) : list (list BoardPiece) :=
  match backRow !! Z.to_nat c with
  | Some t =>
      set_square r1 (Z.to_nat c) (Some (mkPiece side pawn))
        (set_square r0 (Z.to_nat c) (Some (mkPiece side t)) board)
  | None => board
  end.

Definition getInitialBoard : list (list BoardPiece) :=
  let board := replicate 8 (replicate 8 None) in
  let board := for_lt 0 8 (place white 7 6) board in
  let board := for_lt 0 8 (place black 0 1) board in
  board.

(** What the handlers find on the square [(r, c)]: the piece of
    [boardState[r]?.[c]], or nothing when the row is missing ([undefined]),
    the column is missing, or the square holds [null].  The tests
    [!boardState[r] || !boardState[r][c]] and [!piece] all ask whether this
    is nothing. *)
Definition pieceAt (r c : nat) (s : Component) : BoardPiece :=
  match boardState s !! r with
  | Some boardRow =>
      match boardRow !! c with
      | Some (Some piece) => Some piece
      | _ => None
      end
  | None => None
  end.

(** *** [getPieceSprite] *)

(** [x || null] on a string: the empty string is falsy. *)
Definition or_null (x : option SpriteFrame) : option SpriteFrame :=
  match x with
  | Some EmptyString => None
  | Some sprite => Some sprite
  | None => None
  end.

Definition getPieceSprite (r c : nat) (frame : nat) (selected : option Cell)
    (s : Component) : option SpriteFrame :=
  match pieceSprites s, pieceAt r c s with
  | Some sprites, Some piece =>
      let static := or_null (sprites !! color piece ≫= (.!! type piece)) in
      match selected, animationFrames s with
      | Some sel, Some anim =>
          if bool_decide (row sel = r ∧ col sel = c) then
            match anim !! color piece ≫= (.!! type piece) with
            | Some frames =>
                if bool_decide (0 < length frames)
                then frames !! (frame `mod` length frames)
                else static
            | None => static
            end
          else static
      | _, _ => static
      end
  | _, _ => None
  end.

(** *** [stopAnimation], [startAnimation], [handleSquareClick] *)
Definition stopAnimation (s : Component) : Component :=
  let s :=
    match animationInterval s with
    | Some id => set_animationInterval None (clearInterval id s)
    | None => s
    end in
  let s := set_selectedPiece None s in
  set_currentFrame 0 s.

Definition startAnimation (r c : nat) (s : Component) : Component :=
  let s := stopAnimation s in
  match pieceAt r c s with
  | None => s
  | Some _ =>
      let s := set_selectedPiece (Some (mkCell r c)) s in
      let s := set_currentFrame 0 s in
      let '(id, s) := setInterval s in
      set_animationInterval (Some id) s
  end.

Definition handleSquareClick (r c : nat) (s : Component) : Component :=
  match pieceAt r c s with
  | None => stopAnimation s
  | Some piece =>
      if bool_decide (color piece ≠ playerColor s) then s
      else
        match selectedPiece s with
        | Some sel =>
            if bool_decide (row sel = r ∧ col sel = c)
            then stopAnimation s
            else startAnimation r c s
        | None => startAnimation r c s
        end
  end.

Definition isSelected (r c : nat) (s : Component) : bool :=
  match selectedPiece s with
  | Some sel => bool_decide (row sel = r ∧ col sel = c)
  | None => false
  end.

(** *** The template

    [$: spritesLoaded = pieceSprites !== null] *)
Definition spritesLoaded (s : Component) : bool :=
  match pieceSprites s with Some _ => true | None => false end.

(** The [{@const sprite = ...}] of the square [(r, c)]. *)
Definition sprite (r c : nat) (s : Component) : option SpriteFrame :=
  if spritesLoaded s
  then getPieceSprite r c (currentFrame s) (selectedPiece s) s
  else None.

(** [{#if sprite}]: the square gets its [<img src={sprite}>] when [sprite]
    is truthy, that is, a string other than the empty one. *)
Definition shown (r c : nat) (s : Component) : bool :=
  match sprite r c s with
  | Some EmptyString => false
  | Some _ => true
  | None => false
  end.

(** *** The component over time *)
Section WithBrowser.
Context `{Canvas2D}.

(** The two loader calls of [onMount], with their default arguments, under
    [Promise.all]: both images are requested, and the result is the pair of
    tables unless one of the loaders rejects. *)
Definition loadAssets : Sprites.Async (Sprites.PieceSprites * Sprites.PieceAnimationFrames) :=
  λ w,
    let '(sprites, w) :=
      Sprites.loadDefaultChessPieces Sprites.DEFAULT_PIECES_URL
        Sprites.DEFAULT_CHESS_PIECES_CONFIG w in
    let '(frames, w) :=
      Sprites.loadPieceAnimationFrames Sprites.DEFAULT_PIECES_URL
        Sprites.DEFAULT_CHESS_PIECES_CONFIG Sprites.DEFAULT_ANIMATION_COLUMNS w in
    (match sprites, frames with
     | Resolved sprites, Resolved frames => Resolved (sprites, frames)
     | Rejected e, _ => Rejected e
     | _, Rejected e => Rejected e
     end, w).

(** What can happen to a component instance. *)
Inductive Event : Type :=
  (** [onMount], up to its [await]: [boardState = getInitialBoard()] *)
  | Mount
  (** the [await] of [onMount] settles, the loaders having run in the world
      [w]: the destructuring assignment and [loading = false] when both
      resolved, nothing when one rejected (the exception is not caught) *)
  | AssetsSettled (w : Sprites.World)
  (** [on:click], or [on:keydown] with Enter, on the square [(r, c)] *)
  | Click (r c : nat)
  (** the browser fires the interval [id] *)
  | Tick (id : positive)
  (** [onDestroy] *)
  | Destroy.

Definition step (s : Component) (e : Event) : Component :=
  match e with
  | Mount => set_boardState getInitialBoard s
  | AssetsSettled w =>
      match (loadAssets w).1 with
      | Resolved (sprites, frames) => set_loading false (set_assets sprites frames s)
      | Rejected _ => s
      end
  | Click r c => handleSquareClick r c s
  | Tick id =>
      if bool_decide (id ∈ running (timerCalls s))
      then set_currentFrame (S (currentFrame s)) s
      else s
  | Destroy => stopAnimation s
  end.

(** The component after the events [es], oldest first. *)
Definition run (es : list Event) (s : Component) : Component := foldl step s es.

End WithBrowser.

(** A freshly created instance: the initialisers of the script. *)
Definition create (size : nat) (board : string) (playerColor : ChessColorType)
    (nextHandle : positive) : Component :=
  mkComponent size board playerColor [] None None true None 0 None [] nextHandle.

(** *** Vocabulary of the properties *)

(** At every moment of the history of timer calls, any two running
    intervals were one and the same. *)
Fixpoint at_most_one_running (calls : list TimerOp) : Prop :=
  match calls with
  | [] => True
  | call :: earlier =>
      (∀ i j, i ∈ running (call :: earlier) → j ∈ running (call :: earlier) → i = j) ∧
      at_most_one_running earlier
  end.

(** The animation frame list of a piece, when one is known. *)
Definition frameList (s : Component) (piece : Piece) : option (list SpriteFrame) :=
  anim ← animationFrames s; of_color ← anim !! color piece; of_color !! type piece.

(** The static sprite of a piece, when one is known. *)
Definition staticSprite (s : Component) (piece : Piece) : option SpriteFrame :=
  sprites ← pieceSprites s; of_color ← sprites !! color piece; of_color !! type piece.

(** What holds of a component whatever has happened to it: the selection
    and the interval handle come and go together, the handle is the one
    running interval, the selected square holds a piece of the player, an
    idle component shows frame 0, the board is either not placed yet or the
    initial one, and the two tables are assigned together and hold no empty
    string. *)
Definition coherent (s : Component) : Prop :=
  at_most_one_running (timerCalls s) ∧
  match selectedPiece s, animationInterval s with
  | Some cell, Some id =>
      running (timerCalls s) = {[id]} ∧
      ∃ piece, pieceAt (row cell) (col cell) s = Some piece ∧ color piece = playerColor s
  | None, None => running (timerCalls s) = ∅ ∧ currentFrame s = 0
  | _, _ => False
  end ∧
  (boardState s = [] ∨ boardState s = getInitialBoard) ∧
  match pieceSprites s, animationFrames s with
  | Some _, Some _ => ∀ piece, staticSprite s piece ≠ Some EmptyString
  | None, None => True
  | _, _ => False
  end.

(** *** Vocabulary of the further properties *)

(** The variables no handler but [onMount] writes are the same in [s'] as
    in [s]: the props, the board and the two tables with [loading]. *)
Definition same_surroundings (s s' : Component) : Prop :=
  size s' = size s ∧ board s' = board s ∧ playerColor s' = playerColor s ∧
  boardState s' = boardState s ∧ pieceSprites s' = pieceSprites s ∧
  animationFrames s' = animationFrames s ∧ loading s' = loading s.

Section Assets.
Context `{Canvas2D}.

(** The two tables are [null] exactly while [loading]; once assigned, they
    are what the two default loaders resolve to, each from the sheet it
    decoded. *)
Definition default_assets (s : Component) : Prop :=
  match pieceSprites s, animationFrames s with
  | Some sprites, Some frames =>
      loading s = false ∧
      ∃ img1 img2,
        sprites = Sprites.resolved_sprites img1 Sprites.DEFAULT_CHESS_PIECES_CONFIG
                    Sprites.CHESS_SPRITE_SIZE Sprites.CHESS_SPRITE_SIZE ∧
        ∀ color, ∃ of_color,
          frames !! color = Some of_color ∧
          ∀ pieceType,
            of_color !! pieceType
            = Sprites.resolved_strip img2 Sprites.DEFAULT_CHESS_PIECES_CONFIG
                Sprites.DEFAULT_ANIMATION_COLUMNS color pieceType
  | None, None => loading s = true
  | _, _ => False
  end.

End Assets.

End ChessBoard.

(** ** A small browser, to run the sprite utilities on concrete inputs

    An image is its url and size.  A canvas records what was drawn on it
    since it was last blank, and its data URL spells that record out, so two
    frames are equal exactly when the same pixels were copied. *)
Module Tiny.

Record Image : Type := mkImage {
  src : string;
  naturalWidth : Z;
  naturalHeight : Z;
}.

Inductive Stroke : Type :=
  | Cleared (x y w h : Z)
  | Drawn (from : string) (sx sy sw sh dx dy dw dh : Z).

Record Canvas : Type := mkCanvas {
  width : Z;
  height : Z;
  strokes : list Stroke;
}.

Definition covers (x y w h : Z) (cv : Canvas) : bool :=
  bool_decide (x ≤ 0 ∧ y ≤ 0 ∧ width cv ≤ x + w ∧ height cv ≤ y + h)%Z.

Definition clear (x y w h : Z) (cv : Canvas) : Canvas :=
  if covers x y w h cv then mkCanvas (width cv) (height cv) []
  else mkCanvas (width cv) (height cv) (Cleared x y w h :: strokes cv).

Definition draw (img : Image) (sx sy sw sh dx dy dw dh : Z) (cv : Canvas) : Canvas :=
  mkCanvas (width cv) (height cv) (Drawn (src img) sx sy sw sh dx dy dw dh :: strokes cv).

Definition spell_stroke (k : Stroke) : string :=
  match k with
  | Cleared x y w h =>
      "clear(" +:+ pretty x +:+ "," +:+ pretty y +:+ ","
        +:+ pretty w +:+ "," +:+ pretty h +:+ ")"
  | Drawn from sx sy sw sh dx dy dw dh =>
      from +:+ "[" +:+ pretty sx +:+ "," +:+ pretty sy +:+ ","
        +:+ pretty sw +:+ "," +:+ pretty sh +:+ "]@("
        +:+ pretty dx +:+ "," +:+ pretty dy +:+ ","
        +:+ pretty dw +:+ "," +:+ pretty dh +:+ ")"
  end.

Definition dataURL (cv : Canvas) : SpriteFrame :=
  "data:image/png;" +:+ pretty (width cv) +:+ "x" +:+ pretty (height cv) +:+ ";"
    +:+ String.concat ";" (spell_stroke <$> rev (strokes cv)).

#[global, refine] Instance browser : Canvas2D := {|
  HTMLImageElement := Image;
  img_width := naturalWidth;
  img_height := naturalHeight;
  HTMLCanvasElement := Canvas;
  createCanvas := λ w h, mkCanvas w h [];
  canvas_size := λ cv, (width cv, height cv);
  clearRect := clear;
  drawImage := draw;
  toDataURL := dataURL;
|}.
Proof.
  - done.
  - intros x y w h cv. unfold clear. by destruct (covers x y w h cv).
  - done.
  - intros w h [cw ch ks] [= -> ->]. unfold clear, covers; simpl.
    rewrite bool_decide_true; [done | lia].
  - done.
Defined.

(** A page on which every image request for [sheet] is answered with a
    160 x 192 sheet (10 x 12 cells of 16 pixels) and any other url fails. *)
Definition sheet : string := "/assets/pieces/pieces.webp".

Definition answers (n : nat) (url : string) : Sprites.Response :=
  if bool_decide (url = sheet) then Sprites.Decoded (mkImage url 160 192)
  else Sprites.FetchFailed.

Definition page : Sprites.World := Sprites.mkWorld answers true [].

(** The same page in a browser that hands out no 2D context. *)
Definition page_without_context : Sprites.World := Sprites.mkWorld answers false [].

(** The shipped configuration without its green pieces, and without a
    position for the white pawn. *)
Definition without_green : Sprites.FullChessConfig := delete green Sprites.DEFAULT_CHESS_PIECES_CONFIG.
Definition without_white_pawn : Sprites.FullChessConfig :=
  alter (delete pawn) white (delete green Sprites.DEFAULT_CHESS_PIECES_CONFIG).

(** A board of size 8 for the white player, whose first interval handle is 1. *)
Definition demo : ChessBoard.Component := ChessBoard.create 8 "/assets/boards/chessBoard1.webp" white 1.

(** A state of the component put together by hand, in which the tables
    have gaps: the white queen has three frames, the white pawn an empty
    frame list and the white rook none; the static sprite of the white
    knight is the empty string and the white king has none. *)
Definition patchy : ChessBoard.Component :=
  ChessBoard.mkComponent 8 "/assets/boards/chessBoard1.webp" white
    ChessBoard.getInitialBoard
    (Some {[ white := {[ queen := "data:queen"; pawn := "data:pawn";
                         rook := "data:rook"; knight := EmptyString ]} ]})
    (Some {[ white := {[ queen := ["data:q0"; "data:q1"; "data:q2"]; pawn := [];
                         knight := ["data:n0"] ]} ]})
    false None 0 None [] 1.

(** A page on which every image request is answered, with a 32 x 32 image
    of the requested url, and two sheets to split on it. *)
Definition gallery : Sprites.World :=
  Sprites.mkWorld (λ _ url, Sprites.Decoded (mkImage url 32 32)) true [].

Definition two_sheets : list Sprites.SheetItem :=
  [Sprites.mkSheetItem "/a.png" 2 None; Sprites.mkSheetItem "/b.png" 1 (Some 2%Z)].

End Tiny.

(** * Properties *)

Import Sprites.

(** ** Counting loops *)
Section Loops.
Context {St : Type}.
Implicit Types (body : Z → St → St) (s : St).
Local Open Scope Z_scope.

Lemma for_loop_lt_enough (fuel : nat) lo hi body s :
  (Z.to_nat (hi - lo) ≤ fuel)%nat →
  for_loop fuel (λ i, bool_decide (i < hi)) lo body s
  = foldl (λ s i, body i s) s (seqZ lo (hi - lo)).
Proof.
  revert lo s. induction fuel as [|fuel IH]; intros lo s Hfuel; simpl.
  - rewrite seqZ_nil; [done | lia].
  - case_bool_decide as Hlt.
    + rewrite seqZ_cons by lia. simpl. rewrite IH by lia.
      by replace (Z.pred (hi - lo)) with (hi - (lo + 1)) by lia.
    + rewrite seqZ_nil; [done | lia].
Qed.

Lemma for_loop_le_enough (fuel : nat) lo hi body s :
  (Z.to_nat (hi + 1 - lo) ≤ fuel)%nat →
  for_loop fuel (λ i, bool_decide (i ≤ hi)) lo body s
  = foldl (λ s i, body i s) s (seqZ lo (hi + 1 - lo)).
Proof.
  revert lo s. induction fuel as [|fuel IH]; intros lo s Hfuel; simpl.
  - rewrite seqZ_nil; [done | lia].
  - case_bool_decide as Hle.
    + rewrite seqZ_cons by lia. simpl. rewrite IH by lia.
      by replace (Z.pred (hi + 1 - lo)) with (hi + 1 - (lo + 1)) by lia.
    + rewrite seqZ_nil; [done | lia].
Qed.

(** [for_lt] runs its body on [lo, lo + 1, ..., hi - 1] in this order. *)
Lemma for_lt_foldl lo hi body s :
  for_lt lo hi body s = foldl (λ s i, body i s) s (seqZ lo (hi - lo)).
Proof. by apply for_loop_lt_enough. Qed.

(** [for_le] runs its body on [lo, lo + 1, ..., hi] in this order. *)
Lemma for_le_foldl lo hi body s :
  for_le lo hi body s = foldl (λ s i, body i s) s (seqZ lo (hi + 1 - lo)).
Proof. by apply for_loop_le_enough. Qed.

End Loops.

(** ** The sprite utilities *)
Section SpriteFacts.
Context `{Canvas2D}.
Local Open Scope Z_scope.
Implicit Types (img : HTMLImageElement) (cv : HTMLCanvasElement) (w : World).
Implicit Types (frames : list SpriteFrame) (url : string).

Lemma paint_size img sx sy fw fh cv :
  canvas_size (paint img sx sy fw fh cv) = canvas_size cv.
Proof. unfold paint. by rewrite canvas_size_drawImage, canvas_size_clearRect. Qed.

(** On a canvas of the frame's size, what was painted before does not show:
    the three statements give the crop of the rectangle they name. *)
Lemma paint_reused img sx sy fw fh cv :
  canvas_size cv = (fw, fh) →
  toDataURL (paint img sx sy fw fh cv) = crop img sx sy fw fh.
Proof.
  intros Hsize. unfold crop, paint. by rewrite (clearRect_whole fw fh cv Hsize).
Qed.

Lemma push_frames_foldl img fw fh (sx sy : Z → Z) (l : list Z) cv frames :
  canvas_size cv = (fw, fh) →
  let st := foldl (λ st i, push_frame img (sx i) (sy i) fw fh st) (cv, frames) l in
  canvas_size st.1 = (fw, fh) ∧
  st.2 = frames ++ ((λ i, crop img (sx i) (sy i) fw fh) <$> l).
Proof.
  revert cv frames. induction l as [|i l IH]; intros cv frames Hsize; simpl.
  - by rewrite app_nil_r.
  - change (push_frame img (sx i) (sy i) fw fh (cv, frames))
      with (paint img (sx i) (sy i) fw fh cv,
            frames ++ [toDataURL (paint img (sx i) (sy i) fw fh cv)]).
    destruct (IH (paint img (sx i) (sy i) fw fh cv)
                 (frames ++ [toDataURL (paint img (sx i) (sy i) fw fh cv)])) as [Hcv Hfr].
    { by rewrite paint_size. }
    split; [done |]. rewrite Hfr, paint_reused by done. by rewrite <- app_assoc.
Qed.

Lemma split_rows_foldl img fw fh columns (rs : list Z) cv frames :
  canvas_size cv = (fw, fh) →
  let st := foldl (λ st r,
              for_lt 0 columns (λ c, push_frame img (c * fw) (r * fh) fw fh) st)
              (cv, frames) rs in
  canvas_size st.1 = (fw, fh) ∧
  st.2 = frames ++ mjoin ((λ r, (λ c, crop img (c * fw) (r * fh) fw fh)
                                 <$> seqZ 0 columns) <$> rs).
Proof.
  revert cv frames. induction rs as [|r rs IH]; intros cv frames Hsize; simpl.
  - by rewrite app_nil_r.
  - rewrite for_lt_foldl, Z.sub_0_r.
    destruct (push_frames_foldl img fw fh (λ c, c * fw) (λ _, r * fh)
                (seqZ 0 columns) cv frames Hsize) as [Hcv Hfr].
    destruct (foldl _ (cv, frames) (seqZ 0 columns)) as [cv' frames'] eqn:Hrow.
    simpl in Hcv, Hfr. destruct (IH cv' frames' Hcv) as [Hcv' Hfr'].
    split; [done |]. rewrite Hfr', Hfr. by rewrite <- app_assoc.
Qed.

Lemma length_sheet_frames img columns rows fw fh :
  length (sheet_frames img columns rows fw fh) = (Z.to_nat rows * Z.to_nat columns)%nat.
Proof.
  unfold sheet_frames. rewrite length_join, <- list_fmap_compose.
  rewrite (sum_list_fmap_same (Z.to_nat columns)).
  - by rewrite length_seqZ.
  - apply Forall_forall. intros r _. simpl. by rewrite length_fmap, length_seqZ.
Qed.

Lemma lookup_sheet_frames img columns rows fw fh r c :
  0 ≤ r < rows → 0 ≤ c < columns →
  sheet_frames img columns rows fw fh !! Z.to_nat (r * columns + c)
  = Some (crop img (c * fw) (r * fh) fw fh).
Proof.
  intros Hr Hc. unfold sheet_frames.
  replace (Z.to_nat (r * columns + c))
    with (Z.to_nat r * Z.to_nat columns + Z.to_nat c)%nat by nia.
  apply (join_lookup_Some_same_length' (Z.to_nat columns)).
  - apply Forall_fmap, Forall_forall. intros r' _. simpl.
    by rewrite length_fmap, length_seqZ.
  - lia.
  - eexists. split.
    + rewrite list_lookup_fmap, lookup_seqZ_lt by lia. simpl. reflexivity.
    + rewrite list_lookup_fmap, lookup_seqZ_lt by lia. simpl.
      by rewrite !Z2Nat.id by lia.
Qed.

(** The world after one image request for [url]. *)
Lemma loadImage_world url w :
  (loadImage url w).2 = mkWorld (respond w) (context2d w) (url :: requests w).
Proof. unfold loadImage. by destruct (respond w (length (requests w)) url). Qed.

(** An extraction whose image loads and whose context exists runs its body. *)
Lemma extraction_runs {A} url w img (k : HTMLImageElement → Async A) :
  (loadImage url w).1 = Resolved img →
  context2d w = true →
  await (loadImage url) (λ img, await getContext2d (λ _, k img)) w
  = k img (loadImage url w).2.
Proof.
  intros Himg Hctx. unfold await at 1.
  destruct (loadImage url w) as [r w'] eqn:Hload. simpl in Himg. subst r.
  assert (context2d w' = true) as Hctx'.
  { change w' with (Resolved img, w').2. by rewrite <- Hload, loadImage_world. }
  unfold await, getContext2d. by rewrite Hctx'.
Qed.

(** An extraction whose image does not load rejects with the loader's error. *)
Lemma extraction_load_fails {A} url w e (k : HTMLImageElement → Async A) :
  (loadImage url w).1 = Rejected e →
  await (loadImage url) k w = (Rejected e, (loadImage url w).2).
Proof.
  intros Himg. unfold await.
  destruct (loadImage url w) as [r w'] eqn:Hload. simpl in Himg. by subst r.
Qed.

(** An extraction whose image loads but which gets no context rejects. *)
Lemma extraction_no_context {A} url w img (k : HTMLImageElement → Async A) :
  (loadImage url w).1 = Resolved img →
  context2d w = false →
  await (loadImage url) (λ img, await getContext2d (λ _, k img)) w
  = (Rejected CouldNotGetCanvasContext, (loadImage url w).2).
Proof.
  intros Himg Hctx. unfold await at 1.
  destruct (loadImage url w) as [r w'] eqn:Hload. simpl in Himg. subst r.
  assert (context2d w' = false) as Hctx'.
  { change w' with (Resolved img, w').2. by rewrite <- Hload, loadImage_world. }
  unfold await, getContext2d. by rewrite Hctx'.
Qed.

Lemma splitSpriteSheet_resolved url columns rows w img :
  (loadImage url w).1 = Resolved img →
  context2d w = true →
  (splitSpriteSheet url columns rows w).1
  = Resolved (sheet_frames img columns rows
                (img_width img / columns) (img_height img / rows)).
Proof.
  intros Himg Hctx. unfold splitSpriteSheet.
  rewrite (extraction_runs url w img) by done. unfold resolve; simpl.
  rewrite for_lt_foldl, Z.sub_0_r.
  destruct (split_rows_foldl img (img_width img / columns) (img_height img / rows)
              columns (seqZ 0 rows)
              (createCanvas (img_width img / columns) (img_height img / rows)) [])
    as [_ ->]; [apply canvas_size_create | done].
Qed.

(** C2. Once its image is loaded and a 2D context obtained, [splitSpriteSheet]
    with [columns, rows ≥ 1] returns exactly [columns * rows] frames in
    row-major order: the frame at index [r * columns + c] is the crop of the
    rectangle [(c * frameWidth, r * frameHeight, frameWidth, frameHeight)],
    with [frameWidth = floor (width / columns)] and
    [frameHeight = floor (height / rows)]. *)
Theorem splitSpriteSheet_row_major url columns rows w img :
  (loadImage url w).1 = Resolved img →
  context2d w = true →
  1 ≤ columns → 1 ≤ rows →
  let frameWidth := img_width img / columns in
  let frameHeight := img_height img / rows in
  ∃ frames,
    (splitSpriteSheet url columns rows w).1 = Resolved frames ∧
    Z.of_nat (length frames) = columns * rows ∧
    ∀ r c, 0 ≤ r < rows → 0 ≤ c < columns →
      frames !! Z.to_nat (r * columns + c)
      = Some (crop img (c * frameWidth) (r * frameHeight) frameWidth frameHeight).
Proof.
  intros Himg Hctx Hcolumns Hrows frameWidth frameHeight.
  exists (sheet_frames img columns rows frameWidth frameHeight). split; [| split].
  - by apply splitSpriteSheet_resolved.
  - rewrite length_sheet_frames. lia.
  - intros r c Hr Hc. by apply lookup_sheet_frames.
Qed.

Lemma extractAnimationFrames_resolved url row startColumn endColumn fw fh w img :
  (loadImage url w).1 = Resolved img →
  context2d w = true →
  (extractAnimationFrames url row startColumn endColumn fw fh w).1
  = Resolved (strip_frames img row startColumn endColumn fw fh).
Proof.
  intros Himg Hctx. unfold extractAnimationFrames.
  rewrite (extraction_runs url w img) by done. unfold resolve; simpl.
  rewrite for_le_foldl.
  destruct (push_frames_foldl img fw fh (λ col, col * fw) (λ _, row * fh)
              (seqZ startColumn (endColumn + 1 - startColumn))
              (createCanvas fw fh) [])
    as [_ ->]; [apply canvas_size_create | done].
Qed.

(** C7. Once its image is loaded and a 2D context obtained,
    [extractAnimationFrames] with [startColumn ≤ endColumn] returns exactly
    [endColumn - startColumn + 1] frames, one per column of
    [startColumn .. endColumn] by increasing column, each the crop of that
    column's cell on the given row. *)
Theorem extractAnimationFrames_range url row startColumn endColumn fw fh w img :
  (loadImage url w).1 = Resolved img →
  context2d w = true →
  startColumn ≤ endColumn →
  ∃ frames,
    (extractAnimationFrames url row startColumn endColumn fw fh w).1 = Resolved frames ∧
    Z.of_nat (length frames) = endColumn - startColumn + 1 ∧
    ∀ col, startColumn ≤ col ≤ endColumn →
      frames !! Z.to_nat (col - startColumn)
      = Some (crop img (col * fw) (row * fh) fw fh).
Proof.
  intros Himg Hctx Hrange.
  exists (strip_frames img row startColumn endColumn fw fh). split; [| split].
  - by apply extractAnimationFrames_resolved.
  - unfold strip_frames. rewrite length_fmap, length_seqZ. lia.
  - intros col Hcol. unfold strip_frames.
    rewrite list_lookup_fmap, lookup_seqZ_lt by lia. simpl.
    by replace (startColumn + Z.of_nat (Z.to_nat (col - startColumn))) with col by lia.
Qed.

Lemma settles_as_extraction_intro {A} url w (k : HTMLImageElement → Async A) :
  (∀ img w', ∃ a, k img w' = (Resolved a, w')) →
  settles_as_extraction url
    (await (loadImage url) (λ img, await getContext2d (λ _, k img))) w.
Proof.
  intros Hk. unfold settles_as_extraction.
  destruct (loadImage url w).1 as [img | e] eqn:Himg.
  - destruct (context2d w) eqn:Hctx.
    + rewrite (extraction_runs url w img) by done.
      destruct (Hk img (loadImage url w).2) as [a ->]. simpl.
      rewrite loadImage_world. eauto.
    + rewrite (extraction_no_context url w img) by done. simpl.
      rewrite loadImage_world. split; [| done]. by eexists.
  - rewrite (extraction_load_fails url w e) by done. simpl.
    rewrite loadImage_world. split; [| done]. split; [done |].
    revert Himg. unfold loadImage.
    destruct (respond w (length (requests w)) url); simpl; intros [= <-]; by eexists.
Qed.

(** C9, as the code has it.  [loadImage] rejects with a [LoadError] exactly
    when the request it makes is answered by a failed fetch or a failed
    decode, and it makes that one request only, whatever the answer.  An
    extraction loads its image first: it rejects with that [LoadError] when
    the image does not load; once the image is loaded it rejects with a
    [RenderError] exactly when no 2D context is obtained, and resolves
    otherwise. *)
Theorem extraction_failures url w column row columns rows startColumn endColumn fw fh :
  match respond w (length (requests w)) url with
  | Decoded img => (loadImage url w).1 = Resolved img
  | FetchFailed | DecodeFailed =>
      ∃ e, (loadImage url w).1 = Rejected e ∧ LoadError e
  end ∧
  requests (loadImage url w).2 = url :: requests w ∧
  settles_as_extraction url (extractSprite url column row fw fh) w ∧
  settles_as_extraction url (splitSpriteSheet url columns rows) w ∧
  settles_as_extraction url (extractAnimationFrames url row startColumn endColumn fw fh) w.
Proof.
  split; [| split; [| split; [| split]]].
  - unfold loadImage.
    destruct (respond w (length (requests w)) url); simpl; [done | |];
      (eexists; split; [done | by eexists]).
  - by rewrite loadImage_world.
  - apply settles_as_extraction_intro. intros img w'. by eexists.
  - apply settles_as_extraction_intro. intros img w'. by eexists.
  - apply settles_as_extraction_intro. intros img w'. by eexists.
Qed.

(** *** The configuration resolver *)

Lemma extractFramesForPiece_strip img row startCol endCol cv :
  canvas_size cv = (CHESS_SPRITE_SIZE, CHESS_SPRITE_SIZE) →
  canvas_size (extractFramesForPiece img row startCol endCol cv).1
    = (CHESS_SPRITE_SIZE, CHESS_SPRITE_SIZE) ∧
  (extractFramesForPiece img row startCol endCol cv).2
    = strip_frames img row startCol endCol CHESS_SPRITE_SIZE CHESS_SPRITE_SIZE.
Proof.
  intros Hsize. unfold extractFramesForPiece. rewrite for_le_foldl.
  apply (push_frames_foldl img CHESS_SPRITE_SIZE CHESS_SPRITE_SIZE
           (λ col, col * CHESS_SPRITE_SIZE) (λ _, row * CHESS_SPRITE_SIZE)
           (seqZ startCol (endCol + 1 - startCol)) cv [] Hsize).
Qed.

(** The inner loop of [loadPieceAnimationFrames] writes, under [color], the
    strip of every listed piece type that has a position, and nothing else. *)
Lemma animatePieceTypes_spec img color (colorConfig : ColorPiecesConfig)
    startCol endCol (types : list ChessPieceType) cv
    (result : PieceAnimationFrames) of_color :
  canvas_size cv = (CHESS_SPRITE_SIZE, CHESS_SPRITE_SIZE) →
  result !! color = Some of_color →
  ∃ cv' of_color',
    for_of types (animatePieceType img color colorConfig startCol endCol) (cv, result)
      = Resolved (cv', <[color := of_color']> result) ∧
    canvas_size cv' = (CHESS_SPRITE_SIZE, CHESS_SPRITE_SIZE) ∧
    ∀ pieceType,
      of_color' !! pieceType =
        match colorConfig !! pieceType with
        | Some pos =>
            if decide (pieceType ∈ types)
            then Some (strip_frames img (Sprites.row pos) startCol endCol
                         CHESS_SPRITE_SIZE CHESS_SPRITE_SIZE)
            else of_color !! pieceType
        | None => of_color !! pieceType
        end.
Proof.
  revert cv result of_color.
  induction types as [|pt types IH]; intros cv result of_color Hsize Hcolor;
    cbn [for_of].
  - exists cv, of_color. split; [by rewrite insert_id | split; [done |]].
    intros pieceType. destruct (colorConfig !! pieceType); [| done].
    by rewrite decide_False by apply not_elem_of_nil.
  - unfold animatePieceType at 1. destruct (colorConfig !! pt) as [pos|] eqn:Hpos.
    + destruct (extractFramesForPiece_strip img (Sprites.row pos) startCol endCol cv Hsize)
        as [Hcv Hfr].
      destruct (extractFramesForPiece img (Sprites.row pos) startCol endCol cv)
        as [cv1 frames] eqn:Hextract.
      simpl in Hcv, Hfr. rewrite Hcolor.
      destruct (IH cv1 (<[color := <[pt := frames]> of_color]> result)
                  (<[pt := frames]> of_color) Hcv) as (cv' & of_color' & Hrun & Hcv' & Hlook).
      { by rewrite lookup_insert_eq. }
      exists cv', of_color'. split; [| split; [done |]].
      * by rewrite Hrun, insert_insert_eq.
      * intros pieceType. rewrite Hlook.
        destruct (colorConfig !! pieceType) as [pos'|] eqn:Hpos'.
        -- destruct (decide (pieceType ∈ types)) as [Hin | Hnotin].
           ++ rewrite decide_True; [done | by right].
           ++ destruct (decide (pieceType = pt)) as [-> | Hne].
              ** rewrite lookup_insert_eq, decide_True by left.
                 rewrite Hpos in Hpos'. injection Hpos' as <-. by rewrite Hfr.
              ** rewrite lookup_insert_ne by done.
                 rewrite decide_False; [done |].
                 intros Hin; apply elem_of_cons in Hin as [? | ?]; done.
        -- destruct (decide (pieceType = pt)) as [-> | Hne]; [congruence |].
           by rewrite lookup_insert_ne.
    + destruct (IH cv result of_color Hsize Hcolor)
        as (cv' & of_color' & Hrun & Hcv' & Hlook).
      exists cv', of_color'. split; [done | split; [done |]].
      intros pieceType. rewrite Hlook.
      destruct (colorConfig !! pieceType) as [pos'|] eqn:Hpos'; [| done].
      destruct (decide (pieceType ∈ types)) as [Hin | Hnotin].
      * rewrite decide_True; [done | by right].
      * rewrite decide_False; [done |].
        intros Hin; apply elem_of_cons in Hin as [-> | ?]; [congruence | done].
Qed.

Lemma elem_of_pieceTypes (pieceType : ChessPieceType) : pieceType ∈ pieceTypes.
Proof. unfold pieceTypes. destruct pieceType; set_solver. Qed.

Lemma elem_of_colors (color : ChessColorType) : color ∈ colors.
Proof. unfold colors. destruct color; set_solver. Qed.

Lemma animateColors_spec img (config : FullChessConfig)
    (animConfig : gmap ChessColorType AnimationColumnsConfig)
    (todo seen : list ChessColorType) st :
  (∀ color, is_Some (config !! color) → is_Some (animConfig !! color)) →
  animated_upto img config animConfig seen st →
  ∃ st',
    for_of todo (animateColor img config animConfig) st = Resolved st' ∧
    animated_upto img config animConfig (todo ++ seen) st'.
Proof.
  intros Hranges. revert seen st.
  induction todo as [|c todo IH]; intros seen st Hst; cbn [for_of].
  - by exists st.
  - assert (∃ st1, animateColor img config animConfig c st = Resolved st1 ∧
              animated_upto img config animConfig (c :: seen) st1) as (st1 & -> & Hst1).
    { destruct st as [cv result]. destruct Hst as [Hsize Hres]. simpl in Hsize, Hres.
      unfold animateColor.
      destruct (config !! c) as [colorConfig|] eqn:Hc.
      - destruct (Hranges c) as [range Hrange]; [by rewrite Hc |]. rewrite Hrange.
        destruct (Hres c) as (of_c & Hof_c & Hlook_c).
        destruct (animatePieceTypes_spec img c colorConfig (startColumn range)
                    (endColumn range) pieceTypes cv result of_c Hsize Hof_c)
          as (cv' & of_c' & Hrun & Hsize' & Hlook').
        eexists. split; [exact Hrun |]. split; [done |]. simpl.
        intros color. destruct (decide (color = c)) as [-> | Hne].
        + exists of_c'. split; [by rewrite lookup_insert_eq |].
          intros pieceType. rewrite Hlook', decide_True by left.
          unfold resolved_strip. rewrite Hc, Hrange. simpl.
          destruct (colorConfig !! pieceType) as [pos|] eqn:Hpos; simpl.
          * by rewrite decide_True by apply elem_of_pieceTypes.
          * rewrite Hlook_c. destruct (decide (c ∈ seen)); [| done].
            unfold resolved_strip. rewrite Hc. simpl. by rewrite Hpos.
        + destruct (Hres color) as (of_color & Hof_color & Hlook).
          exists of_color. split; [by rewrite lookup_insert_ne |].
          intros pieceType. rewrite Hlook.
          destruct (decide (color ∈ seen)) as [Hin | Hnotin].
          * rewrite decide_True; [done | by right].
          * rewrite decide_False; [done |].
            intros Hin; apply elem_of_cons in Hin as [? | ?]; done.
      - exists (cv, result). split; [done |]. split; [done |]. simpl.
        intros color. destruct (Hres color) as (of_color & Hof_color & Hlook).
        exists of_color. split; [done |]. intros pieceType. rewrite Hlook.
        destruct (decide (color ∈ seen)) as [Hin | Hnotin].
        + rewrite decide_True; [done | by right].
        + destruct (decide (color = c)) as [-> | Hne].
          * rewrite decide_True by left. unfold resolved_strip. by rewrite Hc.
          * rewrite decide_False; [done |].
            intros Hin; apply elem_of_cons in Hin as [? | ?]; done. }
    destruct (IH (c :: seen) st1 Hst1) as (st' & Hrun & Hst').
    exists st'. split; [done |].
    destruct Hst' as [Hsize' Hres']. split; [done |].
    intros color. destruct (Hres' color) as (of_color & Hof_color & Hlook).
    exists of_color. split; [done |]. intros pieceType. rewrite Hlook.
    destruct (decide (color ∈ todo ++ c :: seen)) as [Hin | Hnotin].
    + rewrite decide_True; [done |].
      change (color ∈ c :: (todo ++ seen)).
      rewrite elem_of_app, elem_of_cons in Hin. rewrite elem_of_cons, elem_of_app. tauto.
    + rewrite decide_False; [done |].
      change (color ∉ c :: (todo ++ seen)).
      rewrite elem_of_app, elem_of_cons in Hnotin. rewrite elem_of_cons, elem_of_app. tauto.
Qed.

Lemma loadPieceAnimationFrames_resolved url config animConfig w img :
  (loadImage url w).1 = Resolved img →
  context2d w = true →
  (∀ color, is_Some (config !! color) → is_Some (animConfig !! color)) →
  ∃ result : PieceAnimationFrames,
    (loadPieceAnimationFrames url config animConfig w).1 = Resolved result ∧
    ∀ color, ∃ of_color,
      result !! color = Some of_color ∧
      ∀ pieceType,
        of_color !! pieceType = resolved_strip img config animConfig color pieceType.
Proof.
  intros Himg Hctx Hranges. unfold loadPieceAnimationFrames.
  rewrite (extraction_runs url w img) by done. unfold settle. cbv zeta. cbn [fst].
  destruct (animateColors_spec img config animConfig colors []
              (createCanvas CHESS_SPRITE_SIZE CHESS_SPRITE_SIZE,
               {[ white := ∅; black := ∅; green := ∅; blue := ∅ ]}) Hranges)
    as ([cv result] & -> & _ & Hres).
  { split; [apply canvas_size_create |]. simpl. intros color. exists ∅.
    split; [by destruct color | done]. }
  exists result. split; [done |]. intros color.
  destruct (Hres color) as (of_color & Hof_color & Hlook). exists of_color.
  split; [done |]. intros pieceType. rewrite Hlook.
  rewrite decide_True; [done |]. rewrite app_nil_r. apply elem_of_colors.
Qed.

(** The initialisers of the object literal of [extractColorSet], run over a
    table that has all the keys they read. *)
Lemma extractColorSet_fields img fw fh (colorConfig : ColorPiecesConfig)
    (keys : list ChessPieceType) (set : gmap ChessPieceType SpriteFrame) cv :
  canvas_size cv = (fw, fh) →
  is_ColorPiecesConfig colorConfig →
  ∃ set' cv',
    for_of keys
      (λ key '(set, cv),
         and_then (extractSingle img fw fh (colorConfig !! key) cv)
           (λ '(frame, cv'), Resolved (<[key := frame]> set, cv')))
      (set, cv) = Resolved (set', cv') ∧
    canvas_size cv' = (fw, fh) ∧
    ∀ pieceType,
      set' !! pieceType =
        if decide (pieceType ∈ keys)
        then (λ pos, crop img (column pos * fw) (Sprites.row pos * fh) fw fh)
               <$> colorConfig !! pieceType
        else set !! pieceType.
Proof.
  intros Hsize Htyped. revert set cv Hsize.
  induction keys as [|key keys IH]; intros set cv Hsize; cbn [for_of].
  - exists set, cv. split; [done | split; [done |]]. intros pieceType.
    by rewrite decide_False by apply not_elem_of_nil.
  - destruct (Htyped key) as [pos Hpos]. rewrite Hpos. cbn [extractSingle and_then].
    destruct (IH (<[key := toDataURL (paint img (column pos * fw) (Sprites.row pos * fh)
                                        fw fh cv)]> set)
                 (paint img (column pos * fw) (Sprites.row pos * fh) fw fh cv))
      as (set' & cv' & Hrun & Hsize' & Hlook).
    { by rewrite paint_size. }
    exists set', cv'. split; [done | split; [done |]]. intros pieceType.
    rewrite Hlook. destruct (decide (pieceType ∈ keys)) as [Hin | Hnotin].
    + rewrite decide_True; [done | by right].
    + destruct (decide (pieceType = key)) as [-> | Hne].
      * rewrite decide_True by left.
        by rewrite lookup_insert_eq, Hpos, paint_reused.
      * rewrite lookup_insert_ne by done. rewrite decide_False; [done |].
        intros Hin; apply elem_of_cons in Hin as [? | ?]; done.
Qed.

Lemma elem_of_colorSetKeys (pieceType : ChessPieceType) : pieceType ∈ colorSetKeys.
Proof. unfold colorSetKeys. destruct pieceType; set_solver. Qed.

Lemma extractColorSet_typed img fw fh (colorConfig : ColorPiecesConfig) cv :
  canvas_size cv = (fw, fh) →
  is_ColorPiecesConfig colorConfig →
  ∃ set cv',
    extractColorSet img fw fh (Some colorConfig) cv = Resolved (set, cv') ∧
    canvas_size cv' = (fw, fh) ∧
    ∀ pieceType,
      set !! pieceType =
        (λ pos, crop img (column pos * fw) (Sprites.row pos * fh) fw fh)
          <$> colorConfig !! pieceType.
Proof.
  intros Hsize Htyped. unfold extractColorSet.
  destruct (extractColorSet_fields img fw fh colorConfig colorSetKeys ∅ cv Hsize Htyped)
    as (set & cv' & Hrun & Hsize' & Hlook).
  exists set, cv'. split; [done | split; [done |]]. intros pieceType.
  rewrite Hlook. by rewrite decide_True by apply elem_of_colorSetKeys.
Qed.

Lemma extractOptionalColorSet_typed img fw fh (config : FullChessConfig) color cv :
  canvas_size cv = (fw, fh) →
  (∀ colorConfig, config !! color = Some colorConfig → is_ColorPiecesConfig colorConfig) →
  ∃ cv',
    extractOptionalColorSet img fw fh (config !! color) cv
      = Resolved (resolved_set img config fw fh color, cv') ∧
    canvas_size cv' = (fw, fh).
Proof.
  intros Hsize Htyped. unfold extractOptionalColorSet, resolved_set.
  destruct (config !! color) as [colorConfig|]; [| by exists cv].
  destruct (extractColorSet_typed img fw fh colorConfig cv Hsize (Htyped _ eq_refl))
    as (set & cv' & Hrun & Hsize' & Hlook).
  exists cv'. split; [| done]. rewrite Hrun. do 2 f_equal.
  apply map_eq. intros pieceType. by rewrite Hlook, lookup_fmap.
Qed.

Lemma loadChessPiecesWithConfig_resolved url config fw fh w img :
  (loadImage url w).1 = Resolved img →
  context2d w = true →
  is_FullChessConfig config →
  (loadChessPiecesWithConfig url config fw fh w).1
  = Resolved {[ white := resolved_set img config fw fh white;
                black := resolved_set img config fw fh black;
                green := resolved_set img config fw fh green;
                blue := resolved_set img config fw fh blue ]}.
Proof.
  intros Himg Hctx (Hwhite & Hblack & Htyped). unfold loadChessPiecesWithConfig.
  rewrite (extraction_runs url w img) by done. unfold settle. cbv zeta. cbn [fst].
  pose proof (canvas_size_create fw fh) as Hsize.
  destruct (extractOptionalColorSet_typed img fw fh config white _ Hsize (Htyped white))
    as (cv1 & Hrun1 & Hsize1).
  destruct (extractOptionalColorSet_typed img fw fh config black _ Hsize1 (Htyped black))
    as (cv2 & Hrun2 & Hsize2).
  destruct (extractOptionalColorSet_typed img fw fh config green _ Hsize2 (Htyped green))
    as (cv3 & Hrun3 & Hsize3).
  destruct (extractOptionalColorSet_typed img fw fh config blue _ Hsize3 (Htyped blue))
    as (cv4 & Hrun4 & Hsize4).
  unfold extractOptionalColorSet in Hrun1, Hrun2.
  destruct Hwhite as [cw Hcw]. destruct Hblack as [cb Hcb].
  rewrite Hcw in Hrun1 |- *. rewrite Hcb in Hrun2 |- *.
  rewrite Hrun1. cbn [and_then]. rewrite Hrun2. cbn [and_then].
  rewrite Hrun3. cbn [and_then]. rewrite Hrun4. cbn [and_then]. done.
Qed.

(** C8. The resolver is a pure lookup.  [loadPieceAnimationFrames] keeps a
    table for each of the four colours and stores, under a piece type,
    exactly the strip of the position the configuration gives it: a piece
    type without a position (in particular every piece type of a colour the
    configuration lacks) has no key.  [loadChessPiecesWithConfig] stores the
    crop of each configured position, and the empty table for a colour
    whose configuration is absent.  ([config] is any table;
    [loadChessPiecesWithConfig] reads every position of a colour it finds, so
    its [config'] has the shape of [FullChessConfig].) *)
Theorem missing_position_missing_key url config animConfig config' fw fh w img :
  (loadImage url w).1 = Resolved img →
  context2d w = true →
  (∀ color, is_Some (config !! color) → is_Some (animConfig !! color)) →
  is_FullChessConfig config' →
  (∃ frames : PieceAnimationFrames,
     (loadPieceAnimationFrames url config animConfig w).1 = Resolved frames ∧
     ∀ color, ∃ of_color,
       frames !! color = Some of_color ∧
       ∀ pieceType,
         (config !! color ≫= (.!! pieceType) = None → of_color !! pieceType = None) ∧
         (∀ pos range,
            config !! color ≫= (.!! pieceType) = Some pos →
            animConfig !! color = Some range →
            of_color !! pieceType
            = Some (strip_frames img (Sprites.row pos) (startColumn range) (endColumn range)
                      CHESS_SPRITE_SIZE CHESS_SPRITE_SIZE))) ∧
  (∃ sprites : PieceSprites,
     (loadChessPiecesWithConfig url config' fw fh w).1 = Resolved sprites ∧
     ∀ color, ∃ of_color,
       sprites !! color = Some of_color ∧
       (config' !! color = None → of_color = ∅) ∧
       (∀ colorConfig pieceType,
          config' !! color = Some colorConfig →
          of_color !! pieceType
          = (λ pos, crop img (column pos * fw) (Sprites.row pos * fh) fw fh)
              <$> colorConfig !! pieceType)).
Proof.
  intros Himg Hctx Hranges Htyped. split.
  - destruct (loadPieceAnimationFrames_resolved url config animConfig w img Himg Hctx Hranges)
      as (frames & Hrun & Hres).
    exists frames. split; [done |]. intros color.
    destruct (Hres color) as (of_color & Hof_color & Hlook).
    exists of_color. split; [done |]. intros pieceType. rewrite Hlook.
    unfold resolved_strip. split.
    + by intros ->.
    + intros pos range -> ->. done.
  - exists {[ white := resolved_set img config' fw fh white;
              black := resolved_set img config' fw fh black;
              green := resolved_set img config' fw fh green;
              blue := resolved_set img config' fw fh blue ]}.
    split; [by apply loadChessPiecesWithConfig_resolved |].
    intros color. exists (resolved_set img config' fw fh color).
    split; [by destruct color | split].
    + unfold resolved_set. by intros ->.
    + intros colorConfig pieceType Hcolor. unfold resolved_set.
      by rewrite Hcolor, lookup_fmap.
Qed.

(** An extraction that resolved had its image loaded and got a context. *)
Lemma extraction_resolved_inv {A} url w (k : HTMLImageElement → Async A) a :
  (await (loadImage url) (λ img, await getContext2d (λ _, k img)) w).1 = Resolved a →
  ∃ img, (loadImage url w).1 = Resolved img ∧ context2d w = true.
Proof.
  intros Hrun. destruct (loadImage url w).1 as [img | e] eqn:Himg.
  - exists img. split; [done |]. destruct (context2d w) eqn:Hctx; [done |].
    by rewrite (extraction_no_context url w img) in Hrun.
  - by rewrite (extraction_load_fails url w e) in Hrun.
Qed.

Lemma DEFAULT_CHESS_PIECES_CONFIG_typed : is_FullChessConfig DEFAULT_CHESS_PIECES_CONFIG.
Proof.
  split; [by eexists | split; [by eexists |]].
  intros color colorConfig Hcolor pieceType.
  destruct color; vm_compute in Hcolor; injection Hcolor as <-;
    destruct pieceType; by eexists.
Qed.

(** The sprites [loadChessPiecesWithConfig] resolves to are data URLs. *)
Lemma loaded_sprites_nonempty url config fw fh w (sprites : PieceSprites) color pieceType :
  is_FullChessConfig config →
  (loadChessPiecesWithConfig url config fw fh w).1 = Resolved sprites →
  sprites !! color ≫= (.!! pieceType) ≠ Some EmptyString.
Proof.
  intros Htyped Hrun.
  destruct (extraction_resolved_inv url w _ sprites Hrun) as (img & Himg & Hctx).
  rewrite (loadChessPiecesWithConfig_resolved url config fw fh w img) in Hrun by done.
  injection Hrun as <-.
  assert (∀ c, resolved_set img config fw fh c !! pieceType ≠ Some EmptyString) as Hset.
  { intros c. unfold resolved_set. destruct (config !! c) as [colorConfig|]; [| done].
    rewrite lookup_fmap. destruct (colorConfig !! pieceType) as [pos|]; [| done].
    simpl. intros [= Hempty]. by apply toDataURL_nonempty in Hempty. }
  destruct color; apply Hset.
Qed.

End SpriteFacts.

(** ** The board component *)

Import ChessBoard.

Section BoardFacts.
Context `{Canvas2D}.
Implicit Types (s : Component) (r c : nat) (es : list Event).

(** *** The handlers, field by field *)

Lemma stopAnimation_eq s :
  stopAnimation s
  = mkComponent (size s) (board s) (playerColor s) (boardState s) (pieceSprites s)
      (animationFrames s) (loading s) None 0 None
      (match animationInterval s with
       | Some id => ClearInterval id :: timerCalls s
       | None => timerCalls s
       end)
      (nextHandle s).
Proof.
  unfold stopAnimation. destruct (animationInterval s) as [id|] eqn:Hid; [done |].
  unfold set_currentFrame, set_selectedPiece; simpl. by rewrite Hid.
Qed.

Lemma pieceAt_stopAnimation r c s : pieceAt r c (stopAnimation s) = pieceAt r c s.
Proof. by rewrite stopAnimation_eq. Qed.

Lemma startAnimation_eq r c s :
  startAnimation r c s
  = match pieceAt r c s with
    | None => stopAnimation s
    | Some _ =>
        mkComponent (size s) (board s) (playerColor s) (boardState s) (pieceSprites s)
          (animationFrames s) (loading s) (Some (mkCell r c)) 0 (Some (nextHandle s))
          (SetInterval (nextHandle s) :: timerCalls (stopAnimation s))
          (Pos.succ (nextHandle s))
    end.
Proof.
  unfold startAnimation. rewrite pieceAt_stopAnimation.
  destruct (pieceAt r c s); [| done]. by rewrite stopAnimation_eq.
Qed.

(** Tearing a session down leaves no interval running. *)
Lemma running_stopAnimation s :
  coherent s → running (timerCalls (stopAnimation s)) = ∅.
Proof.
  intros (_ & Hsession & _). rewrite stopAnimation_eq. simpl.
  destruct (selectedPiece s), (animationInterval s) as [id|]; try done.
  - destruct Hsession as [Hrun _]. cbn [running]. rewrite Hrun.
    apply difference_diag_L.
  - by destruct Hsession.
Qed.

Lemma at_most_one_running_stopAnimation s :
  coherent s → at_most_one_running (timerCalls (stopAnimation s)).
Proof.
  intros Hs. pose proof (running_stopAnimation s Hs) as Hrun.
  destruct Hs as (Hone & _). rewrite stopAnimation_eq in Hrun |- *. simpl in *.
  destruct (animationInterval s) as [id|]; [| done].
  split; [| done]. intros i j Hi. rewrite Hrun in Hi.
  by apply not_elem_of_empty in Hi.
Qed.

Lemma coherent_stopAnimation s : coherent s → coherent (stopAnimation s).
Proof.
  intros Hs. split; [by apply at_most_one_running_stopAnimation |].
  split; [| by rewrite stopAnimation_eq; destruct Hs as (_ & _ & ? & ?)].
  pose proof (running_stopAnimation s Hs) as Hrun.
  rewrite stopAnimation_eq in Hrun |- *. done.
Qed.

Lemma coherent_startAnimation r c s :
  coherent s →
  (∀ piece, pieceAt r c s = Some piece → color piece = playerColor s) →
  coherent (startAnimation r c s).
Proof.
  intros Hs Hown. rewrite startAnimation_eq.
  destruct (pieceAt r c s) as [piece|] eqn:Hpiece; [| by apply coherent_stopAnimation].
  pose proof (running_stopAnimation s Hs) as Hrun.
  pose proof (at_most_one_running_stopAnimation s Hs) as Hone.
  destruct Hs as (_ & _ & Hboard & Htables).
  assert (running (SetInterval (nextHandle s) :: timerCalls (stopAnimation s))
          = {[nextHandle s]}) as Hrun'.
  { cbn [running]. rewrite Hrun. apply (right_id_L ∅ (∪)). }
  split; [| split; [| done]].
  - split; [| done]. intros i j Hi Hj. rewrite Hrun' in Hi, Hj.
    apply elem_of_singleton in Hi, Hj. congruence.
  - split; [done |]. exists piece. split; [done | by apply Hown].
Qed.

Lemma coherent_handleSquareClick r c s :
  coherent s → coherent (handleSquareClick r c s).
Proof.
  intros Hs. unfold handleSquareClick.
  destruct (pieceAt r c s) as [piece|] eqn:Hpiece; [| by apply coherent_stopAnimation].
  case_bool_decide as Hcolor; [done |].
  assert (color piece = playerColor s) as Hmine.
  { destruct (decide (color piece = playerColor s)); [done | by destruct Hcolor]. }
  assert (coherent (startAnimation r c s)) as Hstart.
  { apply coherent_startAnimation; [done |]. intros p Hp. congruence. }
  destruct (selectedPiece s) as [sel|]; [| done].
  case_bool_decide; [by apply coherent_stopAnimation | done].
Qed.

(** *** What every reachable component satisfies *)

Lemma coherent_create sz bd pc h0 : coherent (create sz bd pc h0).
Proof. repeat split; by left. Qed.

Lemma loadAssets_sprites w sprites frames :
  (loadAssets w).1 = Resolved (sprites, frames) →
  (loadDefaultChessPieces DEFAULT_PIECES_URL DEFAULT_CHESS_PIECES_CONFIG w).1
  = Resolved sprites.
Proof.
  unfold loadAssets.
  destruct (loadDefaultChessPieces _ _ w) as [[sprites'|e] w1];
    destruct (loadPieceAnimationFrames _ _ _ w1) as [[frames'|e'] w2];
    simpl; congruence.
Qed.

Lemma coherent_step s (e : Event) : coherent s → coherent (step s e).
Proof.
  intros Hs. destruct e as [| w | r c | id |]; simpl.
  - (* Mount *)
    destruct Hs as (Hone & Hsession & Hboard & Htables).
    split; [done |]. split; [| split; [by right | done]].
    simpl. destruct (selectedPiece s) as [cell|], (animationInterval s); try done.
    destruct Hsession as [Hrun (piece & Hpiece & Hmine)]. split; [done |].
    exists piece. split; [| done].
    unfold pieceAt in *. simpl. destruct Hboard as [Hb | Hb]; rewrite Hb in Hpiece; done.
  - (* AssetsSettled *)
    destruct (loadAssets w).1 as [[sprites frames] | err] eqn:Hload; [| done].
    destruct Hs as (Hone & Hsession & Hboard & Htables).
    split; [done |]. split; [done |]. split; [done |]. simpl.
    intros piece. unfold staticSprite; simpl.
    apply (loaded_sprites_nonempty DEFAULT_PIECES_URL DEFAULT_CHESS_PIECES_CONFIG
             CHESS_SPRITE_SIZE CHESS_SPRITE_SIZE w).
    + apply DEFAULT_CHESS_PIECES_CONFIG_typed.
    + by apply (loadAssets_sprites w sprites frames).
  - (* Click *) by apply coherent_handleSquareClick.
  - (* Tick *)
    case_bool_decide as Hrunning; [| done].
    destruct Hs as (Hone & Hsession & Hboard & Htables).
    split; [done |]. split; [| done]. simpl.
    destruct (selectedPiece s), (animationInterval s); try done.
    destruct Hsession as [Hrun _]. rewrite Hrun in Hrunning.
    by apply not_elem_of_empty in Hrunning.
  - (* Destroy *) by apply coherent_stopAnimation.
Qed.

Lemma coherent_run es s : coherent s → coherent (run es s).
Proof.
  revert s. induction es as [|e es IH]; intros s Hs; [done |].
  apply IH. by apply coherent_step.
Qed.

Lemma coherent_reachable sz bd pc h0 es : coherent (run es (create sz bd pc h0)).
Proof. apply coherent_run, coherent_create. Qed.

(** *** One session at a time *)

(** C1. Whatever has happened to the board, at most one animation session
    exists, now and at every earlier moment: the history of timer calls never
    had two intervals running, the selected square and the interval handle
    are set or unset together, and the handle is the one running interval.
    [startAnimation] is [stopAnimation] followed, when the square holds a
    piece, by the new selection and the new interval; so selecting a piece
    of the player on another square than the selected one clears the old
    interval before the new one is set. *)
Theorem one_animation_session sz bd pc h0 es r c :
  let s := run es (create sz bd pc h0) in
  at_most_one_running (timerCalls s) ∧
  match selectedPiece s, animationInterval s with
  | Some _, Some id => running (timerCalls s) = {[id]}
  | None, None => running (timerCalls s) = ∅
  | _, _ => False
  end ∧
  startAnimation r c s
  = match pieceAt r c s with
    | None => stopAnimation s
    | Some _ =>
        let stopped := stopAnimation s in
        let selected := set_currentFrame 0 (set_selectedPiece (Some (mkCell r c)) stopped) in
        set_animationInterval (Some (setInterval selected).1) (setInterval selected).2
    end ∧
  timerCalls (stopAnimation s)
  = match animationInterval s with
    | Some id => ClearInterval id :: timerCalls s
    | None => timerCalls s
    end ∧
  selectedPiece (stopAnimation s) = None ∧
  running (timerCalls (stopAnimation s)) = ∅ ∧
  at_most_one_running (timerCalls (startAnimation r c s)) ∧
  ∀ a piece,
    selectedPiece s = Some a → a ≠ mkCell r c →
    pieceAt r c s = Some piece → color piece = playerColor s →
    ∃ id_a,
      animationInterval s = Some id_a ∧
      timerCalls (handleSquareClick r c s)
      = SetInterval (nextHandle s) :: ClearInterval id_a :: timerCalls s ∧
      selectedPiece (handleSquareClick r c s) = Some (mkCell r c) ∧
      animationInterval (handleSquareClick r c s) = Some (nextHandle s) ∧
      running (timerCalls (handleSquareClick r c s)) = {[nextHandle s]}.
Proof.
  intros s. pose proof (coherent_reachable sz bd pc h0 es) as Hs. fold s in Hs.
  split; [by destruct Hs |]. split.
  { destruct Hs as (_ & Hsession & _).
    destruct (selectedPiece s), (animationInterval s); try done; by destruct Hsession. }
  split.
  { unfold startAnimation. rewrite pieceAt_stopAnimation. by destruct (pieceAt r c s). }
  split; [by rewrite stopAnimation_eq |]. split; [by rewrite stopAnimation_eq |].
  split; [by apply running_stopAnimation |]. split.
  { rewrite startAnimation_eq.
    destruct (pieceAt r c s); [| by apply at_most_one_running_stopAnimation].
    split; [| by apply at_most_one_running_stopAnimation].
    cbn [timerCalls running]. rewrite (running_stopAnimation s Hs).
    intros i j Hi Hj. rewrite (right_id_L ∅ (∪)) in Hi, Hj.
    apply elem_of_singleton in Hi, Hj. congruence. }
  intros a piece Hsel Hother Hpiece Hmine.
  destruct Hs as (_ & Hsession & _). rewrite Hsel in Hsession.
  destruct (animationInterval s) as [id_a|] eqn:Hid; [| done].
  exists id_a. split; [done |].
  assert (handleSquareClick r c s = startAnimation r c s) as ->.
  { unfold handleSquareClick. rewrite Hpiece, Hsel.
    rewrite bool_decide_false by (intros Hne; by apply Hne).
    rewrite bool_decide_false; [done |]. intros [Hr Hc]. apply Hother.
    destruct a; simpl in *; congruence. }
  rewrite startAnimation_eq, Hpiece, stopAnimation_eq, Hid. cbn [timerCalls running].
  destruct Hsession as [Hrun _]. rewrite Hrun.
  repeat split. rewrite difference_diag_L. apply (right_id_L ∅ (∪)).
Qed.

(** *** The frame index *)

Lemma tick_running s id :
  coherent s → animationInterval s = Some id →
  step s (Tick id) = set_currentFrame (S (currentFrame s)) s.
Proof.
  intros (_ & Hsession & _) Hid. simpl. rewrite Hid in Hsession.
  destruct (selectedPiece s); [| done]. destruct Hsession as [Hrun _].
  rewrite Hrun, bool_decide_true; [done | by apply elem_of_singleton].
Qed.

Lemma ticks_running s id (n : nat) :
  coherent s → animationInterval s = Some id →
  selectedPiece (run (replicate n (Tick id)) s) = selectedPiece s ∧
  currentFrame (run (replicate n (Tick id)) s) = currentFrame s + n.
Proof.
  revert s. induction n as [|n IH]; intros s Hs Hid.
  - simpl. split; [done | lia].
  - cbn [replicate run foldl]. fold (run (replicate n (Tick id)) (step s (Tick id))).
    destruct (IH (step s (Tick id))) as [Hsel Hframe].
    + by apply coherent_step.
    + by rewrite tick_running.
    + rewrite Hsel, Hframe, tick_running by done. simpl. split; [done | lia].
Qed.

(** C3. The frame index is 0 after [startAnimation] and after
    [stopAnimation], hence after every event that selects a square or leaves
    none selected.  While a square is selected, a tick of its interval adds
    exactly 1, any number of times over; and an event that leaves the same
    square selected never lowers the index. *)
Theorem frame_index_resets_and_counts sz bd pc h0 es r c :
  let s := run es (create sz bd pc h0) in
  currentFrame (startAnimation r c s) = 0 ∧
  currentFrame (stopAnimation s) = 0 ∧
  (∀ e cell, selectedPiece (step s e) = Some cell → selectedPiece s ≠ Some cell →
     currentFrame (step s e) = 0) ∧
  (∀ e, selectedPiece (step s e) = None → currentFrame (step s e) = 0) ∧
  (∀ id, animationInterval s = Some id →
     currentFrame (step s (Tick id)) = S (currentFrame s)) ∧
  (∀ id n, animationInterval s = Some id →
     selectedPiece (run (replicate n (Tick id)) s) = selectedPiece s ∧
     currentFrame (run (replicate n (Tick id)) s) = currentFrame s + n) ∧
  (∀ e cell, selectedPiece s = Some cell → selectedPiece (step s e) = Some cell →
     currentFrame s ≤ currentFrame (step s e)).
Proof.
  intros s. pose proof (coherent_reachable sz bd pc h0 es) as Hs. fold s in Hs.
  assert (∀ e cell, selectedPiece (step s e) = Some cell →
            selectedPiece s = Some cell ∨ currentFrame (step s e) = 0) as Hinto.
  { intros e cell Hsel. destruct e as [| w | r' c' | id |]; cbn [step] in *.
    - by left.
    - left. by destruct (loadAssets w).1 as [[??]|].
    - revert Hsel. unfold handleSquareClick.
      destruct (pieceAt r' c' s) eqn:Hpiece; [| by rewrite stopAnimation_eq].
      case_bool_decide; [by left |].
      assert (currentFrame (startAnimation r' c' s) = 0) as Hzero.
      { rewrite startAnimation_eq, Hpiece. done. }
      destruct (selectedPiece s); [| by right].
      case_bool_decide; [by rewrite stopAnimation_eq | by right].
    - left. by case_bool_decide.
    - by rewrite stopAnimation_eq in Hsel. }
  split; [| split; [| split; [| split; [| split; [| split]]]]].
  - rewrite startAnimation_eq. destruct (pieceAt r c s); [done |].
    by rewrite stopAnimation_eq.
  - by rewrite stopAnimation_eq.
  - intros e cell Hsel Hnew. by destruct (Hinto e cell Hsel).
  - intros e Hidle. destruct (coherent_step s e Hs) as (_ & Hsession & _).
    rewrite Hidle in Hsession. destruct (animationInterval (step s e)); [done |].
    by destruct Hsession.
  - intros id Hid. by rewrite tick_running.
  - intros id n Hid. by apply ticks_running.
  - intros e cell Hsel Hsel'. destruct e as [| w | r' c' | id |]; cbn [step] in *.
    + done.
    + by destruct (loadAssets w).1 as [[??]|].
    + revert Hsel'. unfold handleSquareClick.
      destruct (pieceAt r' c' s) eqn:Hpiece; [| by rewrite stopAnimation_eq].
      case_bool_decide; [done |]. rewrite Hsel.
      case_bool_decide as Hsame; [by rewrite stopAnimation_eq |].
      rewrite startAnimation_eq, Hpiece. simpl. intros [= <-]. by destruct Hsame.
    + case_bool_decide; simpl; lia.
    + by rewrite stopAnimation_eq in Hsel'.
Qed.

(** *** Clicks *)

(** A click on the selected square, or on an empty one, is [stopAnimation]. *)
Lemma click_stops r c s cell :
  coherent s → selectedPiece s = Some cell →
  cell = mkCell r c ∨ pieceAt r c s = None →
  handleSquareClick r c s = stopAnimation s.
Proof.
  intros (_ & Hsession & _) Hsel Hwhere. unfold handleSquareClick.
  destruct (pieceAt r c s) as [piece|] eqn:Hpiece; [| done].
  destruct Hwhere as [-> | ?]; [| done].
  rewrite Hsel in Hsession. destruct (animationInterval s); [| done].
  destruct Hsession as [_ (piece' & Hpiece' & Hmine)]. simpl in Hpiece'.
  rewrite Hpiece in Hpiece'. injection Hpiece' as <-.
  rewrite bool_decide_false by (intros Hne; by apply Hne).
  rewrite Hsel. by rewrite bool_decide_true.
Qed.

(** C4. While a square is selected, a click on it or on an empty square
    stops the interval, clears the selection and resets the frame index to
    0.  From then on no tick changes the component, and the index is 0 in
    every later state that has no selection: it is not incremented again
    before a new selection. *)
Theorem click_selected_or_empty_goes_idle sz bd pc h0 es r c cell :
  let s := run es (create sz bd pc h0) in
  selectedPiece s = Some cell →
  cell = mkCell r c ∨ pieceAt r c s = None →
  let s' := handleSquareClick r c s in
  (∃ id, animationInterval s = Some id ∧
         timerCalls s' = ClearInterval id :: timerCalls s) ∧
  running (timerCalls s') = ∅ ∧
  animationInterval s' = None ∧
  selectedPiece s' = None ∧
  currentFrame s' = 0 ∧
  (∀ id, step s' (Tick id) = s') ∧
  (∀ es', selectedPiece (run es' s') = None → currentFrame (run es' s') = 0).
Proof.
  intros s Hsel Hwhere s'.
  pose proof (coherent_reachable sz bd pc h0 es) as Hs. fold s in Hs.
  assert (s' = stopAnimation s) as Hs' by (by apply (click_stops r c s cell)).
  pose proof (running_stopAnimation s Hs) as Hrun.
  pose proof (coherent_stopAnimation s Hs) as Hcoh.
  rewrite <- Hs' in Hrun, Hcoh.
  split; [| split; [done | split; [| split; [| split; [| split]]]]].
  - destruct Hs as (_ & Hsession & _). rewrite Hsel in Hsession.
    destruct (animationInterval s) as [id|] eqn:Hid; [| done].
    exists id. split; [done |]. by rewrite Hs', stopAnimation_eq, Hid.
  - by rewrite Hs', stopAnimation_eq.
  - by rewrite Hs', stopAnimation_eq.
  - by rewrite Hs', stopAnimation_eq.
  - intros id. cbn [step]. rewrite Hrun, bool_decide_false; [done |].
    apply not_elem_of_empty.
  - intros es' Hidle. destruct (coherent_run es' s' Hcoh) as (_ & Hsession & _).
    rewrite Hidle in Hsession. destruct (animationInterval (run es' s')); [done |].
    by destruct Hsession.
Qed.

Lemma stopAnimation_idle s :
  selectedPiece s = None → animationInterval s = None → currentFrame s = 0 →
  stopAnimation s = s.
Proof.
  intros Hsel Hid Hframe. rewrite stopAnimation_eq, Hid.
  destruct s; simpl in *. by subst.
Qed.

(** C5. A click on a piece that is not of the player's colour changes
    nothing, in any state of the component; and on a component with no
    selection a click on an empty square changes nothing either. *)
Theorem foreign_and_idle_empty_clicks_are_noops sz bd pc h0 es r c :
  let s := run es (create sz bd pc h0) in
  (∀ (s0 : Component) piece,
     pieceAt r c s0 = Some piece → color piece ≠ playerColor s0 →
     handleSquareClick r c s0 = s0) ∧
  (selectedPiece s = None → pieceAt r c s = None → handleSquareClick r c s = s).
Proof.
  intros s. split.
  - intros s0 piece Hpiece Hforeign. unfold handleSquareClick.
    by rewrite Hpiece, bool_decide_true.
  - intros Hsel Hempty.
    pose proof (coherent_reachable sz bd pc h0 es) as (_ & Hsession & _). fold s in Hsession.
    unfold handleSquareClick. rewrite Hempty. rewrite Hsel in Hsession.
    destruct (animationInterval s) eqn:Hid; [done |]. destruct Hsession as [_ Hframe].
    by apply stopAnimation_idle.
Qed.

(** *** Rendering *)

Lemma or_null_known (x : option SpriteFrame) : x ≠ Some EmptyString → or_null x = x.
Proof. destruct x as [[|]|]; done. Qed.

(** Up to the test for the empty string, [getPieceSprite] on a square that
    holds a piece, once the tables are there. *)
Lemma getPieceSprite_eq r c frame selected s piece sprites :
  pieceAt r c s = Some piece → pieceSprites s = Some sprites →
  getPieceSprite r c frame selected s
  = match frameList s piece with
    | Some (frame0 :: rest) =>
        if bool_decide (selected = Some (mkCell r c))
        then (frame0 :: rest) !! (frame `mod` length (frame0 :: rest))
        else or_null (staticSprite s piece)
    | _ => or_null (staticSprite s piece)
    end.
Proof.
  intros Hpiece Hsprites. unfold getPieceSprite, frameList, staticSprite.
  rewrite Hpiece, Hsprites. cbn [mbind option_bind].
  destruct (animationFrames s) as [anim|]; cbn [mbind option_bind].
  - destruct selected as [sel|].
    + destruct (decide (sel = mkCell r c)) as [-> | Hne].
      * rewrite bool_decide_true by done.
        destruct (anim !! color piece) as [of_color|]; cbn [mbind option_bind].
        -- destruct (of_color !! type piece) as [[|frame0 rest]|]; [done | | done].
           rewrite bool_decide_true by (simpl; lia). by rewrite bool_decide_true.
        -- done.
      * rewrite bool_decide_false by (intros [? ?]; destruct sel; simpl in *; congruence).
        destruct (anim !! color piece ≫= _) as [[|frame0 rest]|];
          [done | | done].
        rewrite bool_decide_false; [done | congruence].
    + destruct (anim !! color piece ≫= _) as [[|frame0 rest]|]; [done | | done].
      by rewrite bool_decide_false.
  - by destruct selected.
Qed.

(** C6. In any state of the component, on a square that holds a piece:
    when the square is the selected one, the static table is assigned and
    the piece has a non-empty animation frame list, [getPieceSprite] returns
    the frame at [frame mod length]; when the square is not the selected
    one, or the list is absent or empty, it returns the static sprite of the
    piece, and nothing when no static sprite is known, the empty string
    counting as none; and it returns nothing while the static table is not
    assigned.  In the states the component reaches the two tables are
    assigned together and no static sprite is the empty string. *)
Theorem getPieceSprite_contract (s0 : Component) sz bd pc h0 es r c frame selected piece :
  pieceAt r c s0 = Some piece →
  (∀ frames,
     is_Some (pieceSprites s0) →
     selected = Some (mkCell r c) → frameList s0 piece = Some frames → frames ≠ [] →
     getPieceSprite r c frame selected s0 = frames !! (frame `mod` length frames) ∧
     is_Some (getPieceSprite r c frame selected s0)) ∧
  (selected ≠ Some (mkCell r c) ∨ frameList s0 piece = None ∨ frameList s0 piece = Some [] →
     (∀ static, staticSprite s0 piece = Some static → static ≠ EmptyString →
        getPieceSprite r c frame selected s0 = Some static) ∧
     (staticSprite s0 piece = None ∨ staticSprite s0 piece = Some EmptyString →
        getPieceSprite r c frame selected s0 = None)) ∧
  (pieceSprites s0 = None → getPieceSprite r c frame selected s0 = None) ∧
  let s := run es (create sz bd pc h0) in
  (is_Some (animationFrames s) ↔ is_Some (pieceSprites s)) ∧
  (∀ piece', staticSprite s piece' ≠ Some EmptyString).
Proof.
  intros Hpiece.
  assert (pieceSprites s0 = None → getPieceSprite r c frame selected s0 = None) as Hnull.
  { intros Hsprites. unfold getPieceSprite. by rewrite Hsprites. }
  assert (selected ≠ Some (mkCell r c) ∨ frameList s0 piece = None
            ∨ frameList s0 piece = Some [] →
          getPieceSprite r c frame selected s0 = or_null (staticSprite s0 piece)) as Hstatic.
  { intros Hcase. destruct (pieceSprites s0) as [sprites|] eqn:Hsprites.
    - rewrite (getPieceSprite_eq r c frame selected s0 piece sprites) by done.
      destruct (frameList s0 piece) as [[|frame0 rest]|]; [done | | done].
      destruct Hcase as [Hsel | [? | ?]]; [| done | done].
      by rewrite bool_decide_false.
    - rewrite Hnull by done. unfold staticSprite. by rewrite Hsprites. }
  split; [| split; [| split; [done |]]].
  - intros frames [sprites Hsprites] -> Hframes Hnonempty.
    rewrite (getPieceSprite_eq r c frame _ s0 piece sprites) by done.
    rewrite Hframes. destruct frames as [|frame0 rest]; [done |].
    rewrite bool_decide_true by done. split; [done |].
    apply lookup_lt_is_Some. apply Nat.mod_upper_bound. simpl. lia.
  - intros Hcase. rewrite (Hstatic Hcase). split.
    + intros static -> Hknown. by destruct static.
    + by intros [-> | ->].
  - intros s.
    pose proof (coherent_reachable sz bd pc h0 es) as (_ & _ & _ & Htables).
    fold s in Htables. unfold staticSprite.
    destruct (pieceSprites s) as [sprites|] eqn:Hsprites;
      destruct (animationFrames s) as [anim|] eqn:Hanim; try done.
    split; [done |]. intros piece'. specialize (Htables piece').
    unfold staticSprite in Htables. by rewrite Hsprites in Htables.
Qed.

(** *** The initial board *)

Lemma getInitialBoard_rows :
  length getInitialBoard = 8 ∧ Forall (λ boardRow, length boardRow = 8) getInitialBoard.
Proof. split; [done |]. vm_compute. by repeat constructor. Qed.

Lemma pieceAt_outside r c s :
  boardState s = [] ∨ boardState s = getInitialBoard →
  8 ≤ r ∨ 8 ≤ c → pieceAt r c s = None.
Proof.
  intros Hboard Hout. unfold pieceAt. destruct Hboard as [-> | ->]; [done |].
  destruct (getInitialBoard !! r) as [boardRow|] eqn:Hrow; [| done].
  destruct getInitialBoard_rows as [Hlen Hrows].
  pose proof (lookup_lt_Some _ _ _ Hrow) as Hr.
  assert (length boardRow = 8) as Hrowlen.
  { rewrite Forall_forall in Hrows. apply Hrows. by apply list_elem_of_lookup_2 in Hrow. }
  destruct Hout as [? | Hc]; [lia |].
  rewrite lookup_ge_None_2; [done | lia].
Qed.

(** C10. Whatever the [size] prop, mounting places the 8 x 8 initial board:
    the back row rook, knight, bishop, queen, king, bishop, knight, rook and
    a row of pawns, black on rows 0 and 1, white on rows 7 and 6, 32 pieces
    in all, the four rows between them empty.  The component never holds
    another board, and for coordinates outside these 8 x 8 squares
    [getPieceSprite] returns nothing, and so does the template. *)
Theorem initial_board_is_8x8_whatever_size sz bd pc h0 es r c frame selected :
  let s := run es (create sz bd pc h0) in
  getInitialBoard
  = [ (λ t, Some (mkPiece black t)) <$> [rook; knight; bishop; queen; king; bishop; knight; rook];
      replicate 8 (Some (mkPiece black pawn));
      replicate 8 None; replicate 8 None; replicate 8 None; replicate 8 None;
      replicate 8 (Some (mkPiece white pawn));
      (λ t, Some (mkPiece white t)) <$> [rook; knight; bishop; queen; king; bishop; knight; rook] ] ∧
  length getInitialBoard = 8 ∧
  Forall (λ boardRow, length boardRow = 8) getInitialBoard ∧
  length (omap id (mjoin getInitialBoard)) = 32 ∧
  boardState (step (create sz bd pc h0) Mount) = getInitialBoard ∧
  (boardState s = [] ∨ boardState s = getInitialBoard) ∧
  (8 ≤ r ∨ 8 ≤ c →
     getPieceSprite r c frame selected s = None ∧ sprite r c s = None).
Proof.
  intros s. pose proof (coherent_reachable sz bd pc h0 es) as (_ & _ & Hboard & _).
  fold s in Hboard.
  split; [done |]. split; [done |]. split; [apply getInitialBoard_rows |].
  split; [done |]. split; [done |]. split; [done |].
  intros Hout. pose proof (pieceAt_outside r c s Hboard Hout) as Hnone.
  assert (∀ f sel, getPieceSprite r c f sel s = None) as Hsprite.
  { intros f sel. unfold getPieceSprite. rewrite Hnone. by destruct (pieceSprites s). }
  split; [done |]. unfold sprite. by destruct (spritesLoaded s).
Qed.

End BoardFacts.

(** ** The properties at work on the small browser *)

(** The default sheet cut into its 10 x 12 cells of 16 x 16 pixels: the
    first frame is the cell in the corner, the second the cell to its right,
    frame 10 the first cell of the second row, frame 61 the cell of column 1
    on row 6, and the last frame the cell of column 9 on row 11. *)
Lemma splitSpriteSheet_row_major_witness :
  (loadImage Tiny.sheet Tiny.page).1 = Resolved (Tiny.mkImage Tiny.sheet 160 192) ∧
  context2d Tiny.page = true ∧
  ∃ frames,
    (splitSpriteSheet Tiny.sheet 10 12 Tiny.page).1 = Resolved frames ∧
    Z.of_nat (length frames) = (10 * 12)%Z ∧
    (∀ r c, (0 ≤ r < 12)%Z → (0 ≤ c < 10)%Z →
       frames !! Z.to_nat (r * 10 + c)
       = Some (crop (Tiny.mkImage Tiny.sheet 160 192) (c * 16) (r * 16) 16 16)) ∧
    frames !! 0
      = Some "data:image/png;16x16;/assets/pieces/pieces.webp[0,0,16,16]@(0,0,16,16)" ∧
    frames !! 1
      = Some "data:image/png;16x16;/assets/pieces/pieces.webp[16,0,16,16]@(0,0,16,16)" ∧
    frames !! 10
      = Some "data:image/png;16x16;/assets/pieces/pieces.webp[0,16,16,16]@(0,0,16,16)" ∧
    frames !! 61
      = Some "data:image/png;16x16;/assets/pieces/pieces.webp[16,96,16,16]@(0,0,16,16)" ∧
    frames !! 119
      = Some "data:image/png;16x16;/assets/pieces/pieces.webp[144,176,16,16]@(0,0,16,16)".
Proof.
  split; [vm_compute; reflexivity | split; [reflexivity |]].
  destruct (splitSpriteSheet_row_major Tiny.sheet 10 12 Tiny.page
              (Tiny.mkImage Tiny.sheet 160 192))
    as (frames & Hrun & Hlen & Hcells);
    [vm_compute; reflexivity | reflexivity | lia | lia |].
  exists frames. split; [exact Hrun |]. split; [exact Hlen |]. split; [exact Hcells |].
  split; [| split; [| split; [| split]]].
  - etransitivity; [exact (Hcells 0 0 ltac:(lia) ltac:(lia))%Z |]. vm_compute. reflexivity.
  - etransitivity; [exact (Hcells 0 1 ltac:(lia) ltac:(lia))%Z |]. vm_compute. reflexivity.
  - etransitivity; [exact (Hcells 1 0 ltac:(lia) ltac:(lia))%Z |]. vm_compute. reflexivity.
  - etransitivity; [exact (Hcells 6 1 ltac:(lia) ltac:(lia))%Z |]. vm_compute. reflexivity.
  - etransitivity; [exact (Hcells 11 9 ltac:(lia) ltac:(lia))%Z |]. vm_compute. reflexivity.
Defined.

(** The white pawn's strip: row 6, columns 1 to 4, cell by cell. *)
Lemma extractAnimationFrames_range_witness :
  (loadImage Tiny.sheet Tiny.page).1 = Resolved (Tiny.mkImage Tiny.sheet 160 192) ∧
  context2d Tiny.page = true ∧
  ∃ frames,
    (extractAnimationFrames Tiny.sheet 6 1 4 16 16 Tiny.page).1 = Resolved frames ∧
    Z.of_nat (length frames) = (4 - 1 + 1)%Z ∧
    (∀ col, (1 ≤ col ≤ 4)%Z →
       frames !! Z.to_nat (col - 1)
       = Some (crop (Tiny.mkImage Tiny.sheet 160 192) (col * 16) (6 * 16) 16 16)) ∧
    frames !! 0
      = Some "data:image/png;16x16;/assets/pieces/pieces.webp[16,96,16,16]@(0,0,16,16)" ∧
    frames !! 1
      = Some "data:image/png;16x16;/assets/pieces/pieces.webp[32,96,16,16]@(0,0,16,16)" ∧
    frames !! 2
      = Some "data:image/png;16x16;/assets/pieces/pieces.webp[48,96,16,16]@(0,0,16,16)" ∧
    frames !! 3
      = Some "data:image/png;16x16;/assets/pieces/pieces.webp[64,96,16,16]@(0,0,16,16)".
Proof.
  split; [vm_compute; reflexivity | split; [reflexivity |]].
  destruct (extractAnimationFrames_range Tiny.sheet 6 1 4 16 16 Tiny.page
              (Tiny.mkImage Tiny.sheet 160 192))
    as (frames & Hrun & Hlen & Hcells);
    [vm_compute; reflexivity | reflexivity | lia |].
  exists frames. split; [exact Hrun |]. split; [exact Hlen |]. split; [exact Hcells |].
  split; [| split; [| split]].
  - etransitivity; [exact (Hcells 1 ltac:(lia))%Z |]. vm_compute. reflexivity.
  - etransitivity; [exact (Hcells 2 ltac:(lia))%Z |]. vm_compute. reflexivity.
  - etransitivity; [exact (Hcells 3 ltac:(lia))%Z |]. vm_compute. reflexivity.
  - etransitivity; [exact (Hcells 4 ltac:(lia))%Z |]. vm_compute. reflexivity.
Defined.

Lemma without_green_typed : is_FullChessConfig Tiny.without_green.
Proof.
  split; [by eexists | split; [by eexists |]].
  intros color colorConfig Hcolor pieceType.
  destruct color; vm_compute in Hcolor; try discriminate; injection Hcolor as <-;
    destruct pieceType; by eexists.
Defined.

Lemma missing_position_missing_key_witness :
  (∃ frames : PieceAnimationFrames,
     (loadPieceAnimationFrames Tiny.sheet Tiny.without_white_pawn DEFAULT_ANIMATION_COLUMNS
        Tiny.page).1 = Resolved frames ∧
     frames !! white ≫= (.!! pawn) = None ∧
     frames !! green = Some ∅ ∧
     frames !! white ≫= (.!! king)
     = Some (strip_frames (Tiny.mkImage Tiny.sheet 160 192) 11 1 4 16 16)) ∧
  (∃ sprites : PieceSprites,
     (loadChessPiecesWithConfig Tiny.sheet Tiny.without_green 16 16 Tiny.page).1
       = Resolved sprites ∧
     sprites !! green = Some ∅ ∧
     sprites !! white ≫= (.!! pawn)
     = Some (crop (Tiny.mkImage Tiny.sheet 160 192) 0 (6 * 16) 16 16)).
Proof.
  destruct (missing_position_missing_key Tiny.sheet Tiny.without_white_pawn
              DEFAULT_ANIMATION_COLUMNS Tiny.without_green 16 16 Tiny.page
              (Tiny.mkImage Tiny.sheet 160 192))
    as [(frames & Hframes & Hkeys) (sprites & Hsprites & Hsets)].
  - vm_compute; reflexivity.
  - reflexivity.
  - intros color _. destruct color; by eexists.
  - exact without_green_typed.
  - split.
    + exists frames. split; [exact Hframes |].
      destruct (Hkeys white) as (of_white & Hwhite & Hwhite_keys).
      destruct (Hkeys green) as (of_green & Hgreen & Hgreen_keys).
      rewrite Hwhite, Hgreen. cbn [mbind option_bind]. split; [| split].
      * by apply Hwhite_keys.
      * f_equal. apply map_eq. intros pieceType. rewrite lookup_empty.
        by apply Hgreen_keys.
      * by apply (proj2 (Hwhite_keys king) (mkSpritePosition 2 11)
                    (mkAnimationColumnsConfig 1 4)).
    + exists sprites. split; [exact Hsprites |].
      destruct (Hsets white) as (of_white & Hwhite & _ & Hwhite_keys).
      destruct (Hsets green) as (of_green & Hgreen & Hgreen_empty & _).
      rewrite Hwhite, Hgreen. cbn [mbind option_bind]. split.
      * f_equal. by apply Hgreen_empty.
      * by rewrite (Hwhite_keys _ pawn eq_refl).
Defined.

(** C9, as the specification states it, fails on the code: with a 2D
    context to be had, an extraction of an image that does not load does not
    succeed; and with no context to be had it does not fail with a
    [RenderError]. *)
Lemma extraction_rejected_though_context_exists :
  context2d Tiny.page = true ∧
  (extractSprite "/missing.png" 0 0 16 16 Tiny.page).1
    = Rejected (FailedToLoadImage "/missing.png") ∧
  (splitSpriteSheet "/missing.png" 4 1 Tiny.page).1
    = Rejected (FailedToLoadImage "/missing.png") ∧
  (extractAnimationFrames "/missing.png" 0 1 4 16 16 Tiny.page).1
    = Rejected (FailedToLoadImage "/missing.png") ∧
  ¬ (∃ frame, (extractSprite "/missing.png" 0 0 16 16 Tiny.page).1 = Resolved frame) ∧
  context2d Tiny.page_without_context = false ∧
  ¬ (∃ e, (extractSprite "/missing.png" 0 0 16 16 Tiny.page_without_context).1 = Rejected e
          ∧ RenderError e).
Proof.
  repeat split; try reflexivity.
  - intros [frame Hframe]. discriminate Hframe.
  - intros (e & He & Hrender). vm_compute in He. injection He as <-. discriminate Hrender.
Qed.

(** The e2 pawn is selected, then the d2 pawn: the first interval is cleared
    before the second is set. *)
Lemma one_animation_session_witness :
  let s := run [Mount; Click 6 4] Tiny.demo in
  selectedPiece s = Some (mkCell 6 4) ∧
  timerCalls (handleSquareClick 6 3 s) = [SetInterval 2; ClearInterval 1; SetInterval 1].
Proof.
  unfold Tiny.demo. cbv zeta. split; [vm_compute; reflexivity |].
  destruct (one_animation_session 8 "/assets/boards/chessBoard1.webp" white 1
              [Mount; Click 6 4] 6 3) as (_ & _ & _ & _ & _ & _ & _ & Hswitch).
  destruct (Hswitch (mkCell 6 4) (mkPiece white pawn))
    as (id_a & Hid_a & Hcalls & _);
    [vm_compute; reflexivity | discriminate
    | vm_compute; reflexivity | vm_compute; reflexivity |].
  etransitivity; [exact Hcalls |]. vm_compute in Hid_a. injection Hid_a as <-.
  vm_compute. reflexivity.
Defined.

(** The e2 pawn is selected and clicked again. *)
Lemma click_selected_or_empty_goes_idle_witness :
  let s := run [Mount; Click 6 4; Tick 1; Tick 1] Tiny.demo in
  selectedPiece s = Some (mkCell 6 4) ∧
  currentFrame s = 2 ∧
  let s' := handleSquareClick 6 4 s in
  (∃ id, animationInterval s = Some id ∧
         timerCalls s' = ClearInterval id :: timerCalls s) ∧
  running (timerCalls s') = ∅ ∧
  animationInterval s' = None ∧
  selectedPiece s' = None ∧
  currentFrame s' = 0 ∧
  (∀ id, step s' (Tick id) = s') ∧
  (∀ es', selectedPiece (run es' s') = None → currentFrame (run es' s') = 0).
Proof.
  unfold Tiny.demo. cbv zeta. split; [vm_compute; reflexivity | split; [vm_compute; reflexivity |]].
  apply (click_selected_or_empty_goes_idle 8 "/assets/boards/chessBoard1.webp" white 1
           [Mount; Click 6 4; Tick 1; Tick 1] 6 4 (mkCell 6 4));
    [vm_compute; reflexivity | left; reflexivity].
Defined.

(** The e2 pawn is selected and its interval has ticked once: another tick
    makes the index 2, five more make it 6, selecting d2 or clicking e2
    again makes it 0. *)
Lemma frame_index_resets_and_counts_witness :
  let s := run [Mount; Click 6 4; Tick 1]
             (create 8 "/assets/boards/chessBoard1.webp" white 1) in
  animationInterval s = Some 1%positive ∧
  currentFrame s = 1 ∧
  currentFrame (step s (Tick 1)) = 2 ∧
  currentFrame (run (replicate 5 (Tick 1)) s) = 6 ∧
  currentFrame (step s (Click 6 3)) = 0 ∧
  currentFrame (step s (Click 6 4)) = 0.
Proof.
  cbv zeta.
  destruct (frame_index_resets_and_counts 8 "/assets/boards/chessBoard1.webp" white 1
              [Mount; Click 6 4; Tick 1] 6 3)
    as (_ & _ & Hinto & Hidle & Htick & Hticks & _).
  split; [vm_compute; reflexivity |]. split; [vm_compute; reflexivity |].
  split; [| split; [| split]].
  - etransitivity; [apply (Htick 1%positive); vm_compute; reflexivity |].
    vm_compute. reflexivity.
  - etransitivity; [apply (Hticks 1%positive 5); vm_compute; reflexivity |].
    vm_compute. reflexivity.
  - apply (Hinto (Click 6 3) (mkCell 6 3)); [vm_compute; reflexivity |].
    intros Hsame. vm_compute in Hsame. discriminate Hsame.
  - apply (Hidle (Click 6 4)). vm_compute. reflexivity.
Defined.

(** With no selection, a click on e7, a black pawn, and a click on the empty
    e4 both leave the white player's board as it is. *)
Lemma foreign_and_idle_empty_clicks_are_noops_witness :
  let s := run [Mount; AssetsSettled Tiny.page]
             (create 8 "/assets/boards/chessBoard1.webp" white 1) in
  pieceAt 1 4 s = Some (mkPiece black pawn) ∧
  handleSquareClick 1 4 s = s ∧
  pieceAt 4 4 s = None ∧
  selectedPiece s = None ∧
  handleSquareClick 4 4 s = s.
Proof.
  cbv zeta.
  destruct (foreign_and_idle_empty_clicks_are_noops 8 "/assets/boards/chessBoard1.webp"
              white 1 [Mount; AssetsSettled Tiny.page] 1 4) as [Hforeign _].
  destruct (foreign_and_idle_empty_clicks_are_noops 8 "/assets/boards/chessBoard1.webp"
              white 1 [Mount; AssetsSettled Tiny.page] 4 4) as [_ Hempty].
  split; [vm_compute; reflexivity |]. split.
  { apply (Hforeign _ (mkPiece black pawn)); [vm_compute; reflexivity |].
    vm_compute. discriminate. }
  split; [vm_compute; reflexivity |]. split; [vm_compute; reflexivity |].
  apply Hempty; vm_compute; reflexivity.
Defined.

(** A board of size 10: its squares of row 8 and of column 9 show nothing. *)
Lemma initial_board_is_8x8_whatever_size_witness :
  let s := run [Mount; AssetsSettled Tiny.page; Click 6 4]
             (create 10 "/assets/boards/chessBoard1.webp" white 1) in
  boardState s = getInitialBoard ∧
  getPieceSprite 8 0 0 (selectedPiece s) s = None ∧
  sprite 8 0 s = None ∧
  sprite 7 9 s = None.
Proof.
  cbv zeta.
  destruct (initial_board_is_8x8_whatever_size 10 "/assets/boards/chessBoard1.webp" white 1
              [Mount; AssetsSettled Tiny.page; Click 6 4] 8 0 0 (Some (mkCell 6 4)))
    as (_ & _ & _ & _ & _ & _ & Hrow).
  destruct (initial_board_is_8x8_whatever_size 10 "/assets/boards/chessBoard1.webp" white 1
              [Mount; AssetsSettled Tiny.page; Click 6 4] 7 9 0 None)
    as (_ & _ & _ & _ & _ & _ & Hcol).
  split; [vm_compute; reflexivity |].
  destruct (Hrow (or_introl (le_n 8))) as [Hsprite Hshown].
  destruct (Hcol (or_intror (le_S _ _ (le_n 8)))) as [_ Hshown'].
  split; [| split; [exact Hshown | exact Hshown']].
  etransitivity; [| exact Hsprite]. vm_compute. reflexivity.
Defined.

(** Every branch at work.  On the board after e2 was clicked and its
    interval ticked three times, the selected square shows frame [3 mod 4] of
    the white pawn's strip.  In the state with gaps: the selected queen shows
    frame [7 mod 3] of her three; the selected pawn, whose frame list is
    empty, and the selected rook, which has none, show their static sprites;
    the queen shows hers when another square is selected; the knight, whose
    static sprite is the empty string, and the king, which has none, show
    nothing. *)
Lemma getPieceSprite_contract_witness :
  getPieceSprite 6 4 3 (Some (mkCell 6 4))
    (run [Mount; AssetsSettled Tiny.page; Click 6 4; Tick 1; Tick 1; Tick 1]
       (create 8 "/assets/boards/chessBoard1.webp" white 1))
  = Some "data:image/png;16x16;/assets/pieces/pieces.webp[64,96,16,16]@(0,0,16,16)" ∧
  getPieceSprite 7 3 7 (Some (mkCell 7 3)) Tiny.patchy = Some "data:q1" ∧
  getPieceSprite 6 4 7 (Some (mkCell 6 4)) Tiny.patchy = Some "data:pawn" ∧
  getPieceSprite 7 0 7 (Some (mkCell 7 0)) Tiny.patchy = Some "data:rook" ∧
  getPieceSprite 7 3 7 (Some (mkCell 6 4)) Tiny.patchy = Some "data:queen" ∧
  getPieceSprite 7 1 7 None Tiny.patchy = None ∧
  getPieceSprite 7 4 7 (Some (mkCell 7 4)) Tiny.patchy = None.
Proof.
  split; [| split; [| split; [| split; [| split; [| split]]]]].
  - destruct (getPieceSprite_contract
                (run [Mount; AssetsSettled Tiny.page; Click 6 4; Tick 1; Tick 1; Tick 1]
                   (create 8 "/assets/boards/chessBoard1.webp" white 1))
                8 "/assets/boards/chessBoard1.webp" white 1 []
                6 4 3 (Some (mkCell 6 4)) (mkPiece white pawn)) as (Hanimated & _);
      [vm_compute; reflexivity |].
    destruct (Hanimated (@strip_frames Tiny.browser (Tiny.mkImage Tiny.sheet 160 192)
                           6 1 4 16 16))
      as [Hframe _];
      [eexists; vm_compute; reflexivity | reflexivity | vm_compute; reflexivity
      | discriminate |].
    etransitivity; [exact Hframe |]. vm_compute. reflexivity.
  - destruct (getPieceSprite_contract Tiny.patchy 8 "/assets/boards/chessBoard1.webp"
                white 1 [] 7 3 7 (Some (mkCell 7 3)) (mkPiece white queen))
      as (Hanimated & _); [vm_compute; reflexivity |].
    destruct (Hanimated ["data:q0"; "data:q1"; "data:q2"]) as [Hframe _];
      [eexists; vm_compute; reflexivity | reflexivity | vm_compute; reflexivity
      | discriminate |].
    etransitivity; [exact Hframe |]. vm_compute. reflexivity.
  - destruct (getPieceSprite_contract Tiny.patchy 8 "/assets/boards/chessBoard1.webp"
                white 1 [] 6 4 7 (Some (mkCell 6 4)) (mkPiece white pawn))
      as (_ & Hstatic & _); [vm_compute; reflexivity |].
    destruct Hstatic as [Hknown _]; [right; right; vm_compute; reflexivity |].
    apply Hknown; [vm_compute; reflexivity | discriminate].
  - destruct (getPieceSprite_contract Tiny.patchy 8 "/assets/boards/chessBoard1.webp"
                white 1 [] 7 0 7 (Some (mkCell 7 0)) (mkPiece white rook))
      as (_ & Hstatic & _); [vm_compute; reflexivity |].
    destruct Hstatic as [Hknown _]; [right; left; vm_compute; reflexivity |].
    apply Hknown; [vm_compute; reflexivity | discriminate].
  - destruct (getPieceSprite_contract Tiny.patchy 8 "/assets/boards/chessBoard1.webp"
                white 1 [] 7 3 7 (Some (mkCell 6 4)) (mkPiece white queen))
      as (_ & Hstatic & _); [vm_compute; reflexivity |].
    destruct Hstatic as [Hknown _]; [left; discriminate |].
    apply Hknown; [vm_compute; reflexivity | discriminate].
  - destruct (getPieceSprite_contract Tiny.patchy 8 "/assets/boards/chessBoard1.webp"
                white 1 [] 7 1 7 None (mkPiece white knight))
      as (_ & Hstatic & _); [vm_compute; reflexivity |].
    destruct Hstatic as [_ Hnone]; [left; discriminate |].
    apply Hnone. right. vm_compute. reflexivity.
  - destruct (getPieceSprite_contract Tiny.patchy 8 "/assets/boards/chessBoard1.webp"
                white 1 [] 7 4 7 (Some (mkCell 7 4)) (mkPiece white king))
      as (_ & Hstatic & _); [vm_compute; reflexivity |].
    destruct Hstatic as [_ Hnone]; [right; left; vm_compute; reflexivity |].
    apply Hnone. left. vm_compute. reflexivity.
Defined.

(** The scenario of the specification: e2 is clicked and the interval ticks
    three times; the template shows frame [3 mod 4] of the white pawn's
    strip on e2 and the static pawn on d2. *)
Example three_ticks_after_e2 :
  let s := run [Mount; AssetsSettled Tiny.page; Click 6 4; Tick 1; Tick 1; Tick 1] Tiny.demo in
  selectedPiece s = Some (mkCell 6 4) ∧
  currentFrame s = 3 ∧
  sprite 6 4 s = strip_frames (Tiny.mkImage Tiny.sheet 160 192) 6 1 4 16 16 !! 3 ∧
  sprite 6 3 s = Some (crop (Tiny.mkImage Tiny.sheet 160 192) 0 (6 * 16) 16 16).
Proof. vm_compute. repeat split. Qed.

(** The other scenario: with no selection, a click on e7, a black pawn,
    leaves the component as it is. *)
Example click_on_opponent_pawn :
  let s := run [Mount; AssetsSettled Tiny.page] Tiny.demo in
  handleSquareClick 1 4 s = s ∧ selectedPiece s = None ∧ timerCalls s = [].
Proof. vm_compute. repeat split. Qed.

(** Outside the shape of [FullChessConfig] the static loader throws: it reads
    the positions of white and black without a test. *)
Example loadChessPiecesWithConfig_needs_white :
  (loadChessPiecesWithConfig Tiny.sheet (delete white DEFAULT_CHESS_PIECES_CONFIG)
     16 16 Tiny.page).1 = Rejected TypeError ∧
  (loadChessPiecesWithConfig Tiny.sheet Tiny.without_white_pawn 16 16 Tiny.page).1
    = Rejected TypeError.
Proof. vm_compute. by split. Qed.

(** * Further properties of the sprite utilities *)
Section MoreSpriteFacts.
Context `{Canvas2D}.
Local Open Scope Z_scope.
Implicit Types (img : HTMLImageElement) (cv : HTMLCanvasElement) (w : World).
Implicit Types (url : string) (config : FullChessConfig).

(** *** Worlds and settled values *)

(** An extraction leaves the world as its one image request left it. *)
Lemma extraction_world {A} url w (k : HTMLImageElement → Async A) :
  (∀ img w', (k img w').2 = w') →
  (await (loadImage url) (λ img, await getContext2d (λ _, k img)) w).2
  = (loadImage url w).2.
Proof.
  intros Hk. unfold await at 1. destruct (loadImage url w) as [[img|e] w']; [| done].
  unfold await, getContext2d. simpl. destruct (context2d w'); [| done]. apply Hk.
Qed.

Lemma extractSprite_resolved url column row fw fh w img :
  (loadImage url w).1 = Resolved img →
  context2d w = true →
  (extractSprite url column row fw fh w).1
  = Resolved (crop img (column * fw) (row * fh) fw fh).
Proof.
  intros Himg Hctx. unfold extractSprite.
  rewrite (extraction_runs url w img) by done. unfold resolve. cbn [fst]. f_equal.
  apply paint_reused, canvas_size_create.
Qed.

(** *** [extractChessPieces] *)

(** The frame [extractChessPieces] cuts for a piece. *)
Lemma extractPieces_foldl img fw fh (pieces : list ChessPieceConfig) cv :
  canvas_size cv = (fw, fh) →
  let st := foldl (extractPiece img fw fh) (cv, ∅) pieces in
  canvas_size st.1 = (fw, fh) ∧
  ∀ key,
    st.2 !! key =
      if decide (key = "__proto__") then None
      else (λ piece, crop img (column (position piece) * fw)
                       (Sprites.row (position piece) * fh) fw fh)
             <$> last (filter (λ piece, name piece = key) pieces).
Proof.
  intros Hsize. induction pieces as [|piece pieces IH] using rev_ind.
  - split; [done |]. intros key. simpl. rewrite lookup_empty. by case_decide.
  - cbv zeta in *. rewrite foldl_app. cbn [foldl].
    destruct IH as [Hcv Hkeys].
    destruct (foldl (extractPiece img fw fh) (cv, ∅) pieces) as [cv' results].
    cbn [fst snd] in *. unfold extractPiece. cbn [fst snd].
    split; [by rewrite paint_size |]. intros key.
    rewrite filter_app, paint_reused by done. unfold assign.
    destruct (decide (name piece = key)) as [<- | Hne].
    + rewrite (filter_cons_True _ piece []) by done. rewrite filter_nil, last_snoc.
      case_bool_decide as Hproto.
      * rewrite decide_True by done. rewrite Hkeys. by rewrite decide_True.
      * rewrite decide_False by done. by rewrite lookup_insert_eq.
    + rewrite (filter_cons_False _ piece []) by done. rewrite filter_nil, app_nil_r.
      case_bool_decide as Hproto.
      * apply Hkeys.
      * rewrite lookup_insert_ne by done. apply Hkeys.
Qed.

(** X1. Once its image is loaded and a 2D context obtained,
    [extractChessPieces] resolves to an object that has, under each name of
    [pieces], the crop of the position of the last piece of that name, and no
    other key.  (The name [__proto__] is no key: assigning it stores nothing.)
    In particular no piece gives the empty object. *)
Theorem extractChessPieces_last_wins url (pieces : list ChessPieceConfig) fw fh w img :
  (loadImage url w).1 = Resolved img →
  context2d w = true →
  ∃ results : gmap string SpriteFrame,
    (extractChessPieces url pieces fw fh w).1 = Resolved results ∧
    (pieces = [] → results = ∅) ∧
    ∀ key,
      results !! key =
        if decide (key = "__proto__") then None
        else (λ piece, crop img (column (position piece) * fw)
                         (Sprites.row (position piece) * fh) fw fh)
               <$> last (filter (λ piece, name piece = key) pieces).
Proof.
  intros Himg Hctx. unfold extractChessPieces.
  rewrite (extraction_runs url w img) by done. unfold resolve. cbv zeta. cbn [fst].
  destruct (extractPieces_foldl img fw fh pieces (createCanvas fw fh)
              (canvas_size_create fw fh)) as [_ Hkeys].
  eexists. split; [done |]. split; [by intros -> | exact Hkeys].
Qed.

(** *** Degenerate grids and ranges *)

(** X2. With [columns ≤ 0] or [rows ≤ 0] (the image loaded, a context
    obtained), [splitSpriteSheet] resolves to no frame at all: neither loop
    runs its body, whatever the size of the image. *)
Theorem splitSpriteSheet_no_cells url columns rows w img :
  (loadImage url w).1 = Resolved img →
  context2d w = true →
  columns ≤ 0 ∨ rows ≤ 0 →
  (splitSpriteSheet url columns rows w).1 = Resolved [].
Proof.
  intros Himg Hctx Hgrid.
  rewrite (splitSpriteSheet_resolved url columns rows w img) by done.
  f_equal. apply nil_length_inv. rewrite length_sheet_frames.
  destruct Hgrid; lia.
Qed.

(** X3. With [startColumn > endColumn] (the image loaded, a context
    obtained), [extractAnimationFrames] resolves to no frame at all. *)
Theorem extractAnimationFrames_empty_range url row startColumn endColumn fw fh w img :
  (loadImage url w).1 = Resolved img →
  context2d w = true →
  endColumn < startColumn →
  (extractAnimationFrames url row startColumn endColumn fw fh w).1 = Resolved [].
Proof.
  intros Himg Hctx Hrange.
  rewrite (extractAnimationFrames_resolved url row startColumn endColumn fw fh w img)
    by done.
  unfold strip_frames. rewrite seqZ_nil; [done | lia].
Qed.

(** *** Batches against single extractions *)

(** X4. Splitting a sheet and taking the frame of row [r] and column [c] is
    extracting that one sprite with the sheet's frame size: the two calls,
    made in the same world, resolve to the same frame. *)
Theorem splitSpriteSheet_agrees_with_extractSprite url columns rows w img r c :
  (loadImage url w).1 = Resolved img →
  context2d w = true →
  0 ≤ r < rows → 0 ≤ c < columns →
  ∃ frames frame,
    (splitSpriteSheet url columns rows w).1 = Resolved frames ∧
    (extractSprite url c r (img_width img / columns) (img_height img / rows) w).1
      = Resolved frame ∧
    frames !! Z.to_nat (r * columns + c) = Some frame.
Proof.
  intros Himg Hctx Hr Hc. eexists _, _.
  split; [by apply splitSpriteSheet_resolved |].
  split; [by apply extractSprite_resolved |].
  by apply lookup_sheet_frames.
Qed.

(** X5. The frame of column [col] in the result of [extractAnimationFrames]
    is the sprite [extractSprite] cuts at that column of the row; outside
    [startColumn .. endColumn] the result has no frame for the column. *)
Theorem extractAnimationFrames_agrees_with_extractSprite
    url row startColumn endColumn fw fh w img :
  (loadImage url w).1 = Resolved img →
  context2d w = true →
  ∃ frames,
    (extractAnimationFrames url row startColumn endColumn fw fh w).1 = Resolved frames ∧
    (∀ col, startColumn ≤ col ≤ endColumn →
       Resolved <$> frames !! Z.to_nat (col - startColumn)
       = Some (extractSprite url col row fw fh w).1) ∧
    (∀ i, endColumn - startColumn < Z.of_nat i → frames !! i = None).
Proof.
  intros Himg Hctx. eexists.
  split; [by apply extractAnimationFrames_resolved |]. split.
  - intros col Hcol. rewrite (extractSprite_resolved url col row fw fh w img) by done.
    unfold strip_frames. rewrite list_lookup_fmap, lookup_seqZ_lt by lia. simpl.
    by replace (startColumn + Z.of_nat (Z.to_nat (col - startColumn))) with col by lia.
  - intros i Hi. unfold strip_frames.
    rewrite list_lookup_fmap, lookup_seqZ_ge; [done | lia].
Qed.


(** *** How the two loaders settle *)

Lemma for_of_rejects {A St} (xs : list A) (body : A → St → Result St) (st : St) e e0 :
  (∀ x st' e', body x st' = Rejected e' → e' = e0) →
  for_of xs body st = Rejected e → e = e0.
Proof.
  intros Hbody. revert st. induction xs as [|x xs IH]; intros st; cbn [for_of]; [done |].
  destruct (body x st) as [st'|e'] eqn:Hx.
  - apply IH.
  - intros [= <-]. by apply (Hbody x st).
Qed.

Lemma for_of_resolved {A St} (xs : list A) (body : A → St → Result St) (st st' : St) x :
  for_of xs body st = Resolved st' → x ∈ xs → ∃ st0 st1, body x st0 = Resolved st1.
Proof.
  revert st. induction xs as [|y xs IH]; intros st Hrun Hx; [by apply elem_of_nil in Hx |].
  cbn [for_of] in Hrun. destruct (body y st) as [st1|e] eqn:Hy; [| done].
  apply elem_of_cons in Hx as [-> | Hx]; [by eexists _, _ | by apply (IH st1)].
Qed.

Lemma extractColorSet_settles img fw fh (colorConfig : option ColorPiecesConfig) cv r :
  extractColorSet img fw fh colorConfig cv = r →
  match r with
  | Resolved _ => ∃ cc, colorConfig = Some cc ∧ is_ColorPiecesConfig cc
  | Rejected e => e = TypeError
  end.
Proof.
  intros <-. unfold extractColorSet. destruct colorConfig as [cc|]; [| done].
  destruct (for_of colorSetKeys _ (∅, cv)) as [st'|e] eqn:Hrun.
  - exists cc. split; [done |]. intros pieceType.
    destruct (for_of_resolved _ _ _ _ pieceType Hrun (elem_of_colorSetKeys pieceType))
      as ([set0 cv0] & st1 & Hbody).
    destruct (cc !! pieceType); [by eexists | done].
  - apply (for_of_rejects _ _ _ _ TypeError) in Hrun; [done |].
    intros key [set0 cv0] e'. destruct (cc !! key); simpl; [done | by intros [= <-]].
Qed.

Lemma extractOptionalColorSet_settles img fw fh (colorConfig : option ColorPiecesConfig) cv r :
  extractOptionalColorSet img fw fh colorConfig cv = r →
  match r with
  | Resolved _ => ∀ cc, colorConfig = Some cc → is_ColorPiecesConfig cc
  | Rejected e => e = TypeError
  end.
Proof.
  intros Hr. unfold extractOptionalColorSet in Hr.
  destruct colorConfig as [cc|]; [| by subst r].
  apply extractColorSet_settles in Hr. destruct r as [st|e]; [| done].
  destruct Hr as (cc' & [= <-] & Htyped). by intros ? [= <-].
Qed.

(** X6. How [loadChessPiecesWithConfig] settles, in every world and for
    every table passed as [config].  It requests the image once.  It rejects
    with the loader's error when the image does not load; otherwise with the
    context error when no 2D context is obtained; otherwise with a
    [TypeError] exactly when the table has not the shape of
    [FullChessConfig] (white or black missing, or a colour without one of its
    six positions); otherwise it resolves to the crops of the positions. *)
Theorem loadChessPiecesWithConfig_outcome url config fw fh w :
  requests (loadChessPiecesWithConfig url config fw fh w).2 = url :: requests w ∧
  match (loadImage url w).1 with
  | Rejected e => (loadChessPiecesWithConfig url config fw fh w).1 = Rejected e
  | Resolved img =>
      if context2d w
      then (is_FullChessConfig config ∧
            (loadChessPiecesWithConfig url config fw fh w).1
              = Resolved (resolved_sprites img config fw fh)) ∨
           (¬ is_FullChessConfig config ∧
            (loadChessPiecesWithConfig url config fw fh w).1 = Rejected TypeError)
      else (loadChessPiecesWithConfig url config fw fh w).1
             = Rejected CouldNotGetCanvasContext
  end.
Proof.
  split.
  { unfold loadChessPiecesWithConfig. rewrite extraction_world; [| done].
    by rewrite loadImage_world. }
  destruct (loadImage url w).1 as [img|e] eqn:Himg.
  2: { unfold loadChessPiecesWithConfig. by rewrite (extraction_load_fails url w e). }
  destruct (context2d w) eqn:Hctx.
  2: { unfold loadChessPiecesWithConfig. by rewrite (extraction_no_context url w img). }
  assert (is_FullChessConfig config →
          (loadChessPiecesWithConfig url config fw fh w).1
          = Resolved (resolved_sprites img config fw fh)) as Htyped.
  { intros Htyped. by apply loadChessPiecesWithConfig_resolved. }
  destruct (loadChessPiecesWithConfig url config fw fh w).1 as [sprites|e] eqn:Hrun.
  - left. assert (is_FullChessConfig config) as Hshape; [| split; [done | by apply Htyped]].
    revert Hrun. unfold loadChessPiecesWithConfig.
    rewrite (extraction_runs url w img) by done. unfold settle. cbv zeta. cbn [fst].
    destruct (extractColorSet img fw fh (config !! white) _) as [[s1 cv1]|e1] eqn:H1;
      [| done].
    apply extractColorSet_settles in H1 as (cw & Hw & Hcw). cbn [and_then].
    destruct (extractColorSet img fw fh (config !! black) _) as [[s2 cv2]|e2] eqn:H2;
      [| done].
    apply extractColorSet_settles in H2 as (cb & Hb & Hcb). cbn [and_then].
    destruct (extractOptionalColorSet img fw fh (config !! green) _)
      as [[s3 cv3]|e3] eqn:H3; [| done].
    apply extractOptionalColorSet_settles in H3. cbn [and_then].
    destruct (extractOptionalColorSet img fw fh (config !! blue) _)
      as [[s4 cv4]|e4] eqn:H4; [| done].
    apply extractOptionalColorSet_settles in H4. intros _.
    split; [by rewrite Hw | split; [by rewrite Hb |]].
    intros color cc Hcolor. destruct color.
    + rewrite Hw in Hcolor. by injection Hcolor as <-.
    + rewrite Hb in Hcolor. by injection Hcolor as <-.
    + by apply H3.
    + by apply H4.
  - right. split; [intros Hshape; by specialize (Htyped Hshape) |]. f_equal.
    revert Hrun. unfold loadChessPiecesWithConfig.
    rewrite (extraction_runs url w img) by done. unfold settle. cbv zeta. cbn [fst].
    destruct (extractColorSet img fw fh (config !! white) _) as [[s1 cv1]|e1] eqn:H1.
    2: { apply extractColorSet_settles in H1. cbn [and_then]. congruence. }
    cbn [and_then].
    destruct (extractColorSet img fw fh (config !! black) _) as [[s2 cv2]|e2] eqn:H2.
    2: { apply extractColorSet_settles in H2. cbn [and_then]. congruence. }
    cbn [and_then].
    destruct (extractOptionalColorSet img fw fh (config !! green) _)
      as [[s3 cv3]|e3] eqn:H3.
    2: { apply extractOptionalColorSet_settles in H3. cbn [and_then]. congruence. }
    cbn [and_then].
    destruct (extractOptionalColorSet img fw fh (config !! blue) _)
      as [[s4 cv4]|e4] eqn:H4.
    2: { apply extractOptionalColorSet_settles in H4. cbn [and_then]. congruence. }
    done.
Qed.

Lemma animatePieceType_rejects img color (colorConfig : ColorPiecesConfig) s0 e0
    pieceType st e :
  animatePieceType img color colorConfig s0 e0 pieceType st = Rejected e → e = TypeError.
Proof.
  unfold animatePieceType. destruct st as [cv result].
  destruct (colorConfig !! pieceType); [| done].
  destruct (extractFramesForPiece _ _ _ _ _). by destruct (result !! color); intros [= <-].
Qed.

Lemma animateColor_rejects img config animConfig color st e :
  animateColor img config animConfig color st = Rejected e → e = TypeError.
Proof.
  unfold animateColor. destruct (config !! color); [| done].
  destruct (animConfig !! color); [| by intros [= <-]].
  apply for_of_rejects. intros pieceType st' e'. apply animatePieceType_rejects.
Qed.

(** The loader resolves only when every configured colour has a range. *)
Lemma loadPieceAnimationFrames_needs_ranges url config animConfig w img
    (result : PieceAnimationFrames) :
  (loadImage url w).1 = Resolved img →
  context2d w = true →
  (loadPieceAnimationFrames url config animConfig w).1 = Resolved result →
  has_ranges config animConfig.
Proof.
  intros Himg Hctx Hrun color Hcolor. revert Hrun. unfold loadPieceAnimationFrames.
  rewrite (extraction_runs url w img) by done. unfold settle. cbv zeta. cbn [fst].
  destruct (for_of colors _ _) as [st'|e] eqn:Hloop; [| done]. intros _.
  destruct (for_of_resolved _ _ _ _ color Hloop (elem_of_colors color))
    as (st0 & st1 & Hbody).
  unfold animateColor in Hbody. destruct Hcolor as [cc Hcc]. rewrite Hcc in Hbody.
  by destruct (animConfig !! color).
Qed.

(** X7. How [loadPieceAnimationFrames] settles, in every world and for all
    tables.  It requests the image once.  It rejects with the loader's error
    when the image does not load; otherwise with the context error when no 2D
    context is obtained; otherwise with a [TypeError] exactly when some
    colour of [config] has no entry in [animConfig]; otherwise it resolves to
    a table of the four colours that holds, per piece type, the strip of its
    position, and no key for a piece type without a position. *)
Theorem loadPieceAnimationFrames_outcome url config animConfig w :
  requests (loadPieceAnimationFrames url config animConfig w).2 = url :: requests w ∧
  match (loadImage url w).1 with
  | Rejected e => (loadPieceAnimationFrames url config animConfig w).1 = Rejected e
  | Resolved img =>
      if context2d w
      then (has_ranges config animConfig ∧
            ∃ result : PieceAnimationFrames,
              (loadPieceAnimationFrames url config animConfig w).1 = Resolved result ∧
              ∀ color, ∃ of_color,
                result !! color = Some of_color ∧
                ∀ pieceType,
                  of_color !! pieceType
                  = resolved_strip img config animConfig color pieceType) ∨
           (¬ has_ranges config animConfig ∧
            (loadPieceAnimationFrames url config animConfig w).1 = Rejected TypeError)
      else (loadPieceAnimationFrames url config animConfig w).1
             = Rejected CouldNotGetCanvasContext
  end.
Proof.
  split.
  { unfold loadPieceAnimationFrames. rewrite extraction_world; [| done].
    by rewrite loadImage_world. }
  destruct (loadImage url w).1 as [img|e] eqn:Himg.
  2: { unfold loadPieceAnimationFrames. by rewrite (extraction_load_fails url w e). }
  destruct (context2d w) eqn:Hctx.
  2: { unfold loadPieceAnimationFrames. by rewrite (extraction_no_context url w img). }
  pose proof (loadPieceAnimationFrames_resolved url config animConfig w img Himg Hctx)
    as Hranges.
  destruct (loadPieceAnimationFrames url config animConfig w).1 as [result|e] eqn:Hrun.
  - left. assert (has_ranges config animConfig) as Hok
      by (by apply (loadPieceAnimationFrames_needs_ranges url config animConfig w img result)).
    split; [done |]. destruct (Hranges Hok) as (result' & [= <-] & Hres). eauto.
  - right. split.
    + intros Hok. by destruct (Hranges Hok) as (? & ? & _).
    + f_equal. revert Hrun. unfold loadPieceAnimationFrames.
      rewrite (extraction_runs url w img) by done. unfold settle. cbv zeta. cbn [fst].
      destruct (for_of colors _ _) as [st'|e'] eqn:Hloop; [done |].
      cbn [and_then]. intros [= <-].
      apply (for_of_rejects _ _ _ _ TypeError) in Hloop; [done |].
      intros color st' e''. apply animateColor_rejects.
Qed.


(** X8. The batch loaders agree with the single extractions.  For a
    position [pos] that the configuration gives a piece, the sprite that
    [loadChessPiecesWithConfig] stores for the piece is what [extractSprite]
    resolves to at [pos], and the strip that [loadPieceAnimationFrames]
    stores is what [extractAnimationFrames] resolves to on the row of [pos]
    over the colour's columns, each call made in the same world. *)
Theorem loaders_agree_with_single_extractions
    url config animConfig fw fh w img color (colorConfig : ColorPiecesConfig)
    pieceType pos range :
  (loadImage url w).1 = Resolved img →
  context2d w = true →
  config !! color = Some colorConfig →
  colorConfig !! pieceType = Some pos →
  animConfig !! color = Some range →
  (is_FullChessConfig config →
   ∃ sprites : PieceSprites,
     (loadChessPiecesWithConfig url config fw fh w).1 = Resolved sprites ∧
     Resolved <$> (sprites !! color ≫= (.!! pieceType))
     = Some (extractSprite url (column pos) (Sprites.row pos) fw fh w).1) ∧
  (has_ranges config animConfig →
   ∃ frames : PieceAnimationFrames,
     (loadPieceAnimationFrames url config animConfig w).1 = Resolved frames ∧
     Resolved <$> (frames !! color ≫= (.!! pieceType))
     = Some (extractAnimationFrames url (Sprites.row pos) (startColumn range)
               (endColumn range) CHESS_SPRITE_SIZE CHESS_SPRITE_SIZE w).1).
Proof.
  intros Himg Hctx Hcolor Hpos Hrange. split.
  - intros Htyped. eexists. split; [by apply loadChessPiecesWithConfig_resolved |].
    rewrite (extractSprite_resolved url _ _ fw fh w img) by done.
    assert (∀ c, ({[ white := resolved_set img config fw fh white;
                     black := resolved_set img config fw fh black;
                     green := resolved_set img config fw fh green;
                     blue := resolved_set img config fw fh blue ]} : PieceSprites) !! c
                 = Some (resolved_set img config fw fh c)) as -> by (by intros []).
    cbn [mbind option_bind]. unfold resolved_set. by rewrite Hcolor, lookup_fmap, Hpos.
  - intros Hranges.
    destruct (loadPieceAnimationFrames_resolved url config animConfig w img Himg Hctx Hranges)
      as (frames & Hrun & Hres).
    exists frames. split; [done |].
    destruct (Hres color) as (of_color & -> & Hlook). cbn [mbind option_bind].
    rewrite Hlook, (extractAnimationFrames_resolved url _ _ _ _ _ w img) by done.
    unfold resolved_strip. rewrite Hcolor. cbn [mbind option_bind]. by rewrite Hpos, Hrange.
Qed.

(** X9. In the table [loadPieceAnimationFrames] resolves to, every strip of
    a colour has as many frames as the colour's range has columns,
    [endColumn - startColumn + 1], and none when the range is empty: the
    piece types of a colour all animate over the same number of frames. *)
Theorem animation_strips_have_the_range_length
    url config animConfig w (result : PieceAnimationFrames) color
    (of_color : gmap ChessPieceType (list SpriteFrame)) pieceType frames range :
  (loadPieceAnimationFrames url config animConfig w).1 = Resolved result →
  result !! color = Some of_color →
  of_color !! pieceType = Some frames →
  animConfig !! color = Some range →
  length frames = Z.to_nat (endColumn range - startColumn range + 1).
Proof.
  intros Hrun Hof_color Hframes Hrange.
  destruct (extraction_resolved_inv url w _ result Hrun) as (img & Himg & Hctx).
  pose proof (loadPieceAnimationFrames_needs_ranges url config animConfig w img result
                Himg Hctx Hrun) as Hok.
  destruct (loadPieceAnimationFrames_resolved url config animConfig w img Himg Hctx Hok)
    as (result' & Hrun' & Hres).
  rewrite Hrun in Hrun'. injection Hrun' as <-.
  destruct (Hres color) as (of_color' & Hof_color' & Hlook).
  rewrite Hof_color in Hof_color'. injection Hof_color' as <-.
  rewrite Hlook in Hframes. unfold resolved_strip in Hframes.
  destruct (config !! color ≫= (.!! pieceType)) as [pos|]; [| done].
  cbn [mbind option_bind] in Hframes. rewrite Hrange in Hframes.
  injection Hframes as <-. unfold strip_frames.
  rewrite length_fmap, length_seqZ. f_equal. lia.
Qed.

(** *** [splitMultipleSpriteSheets] *)

Lemma splitSpriteSheet_settles (it : SheetItem) w :
  (splitSpriteSheet (item_url it) (item_columns it) (default 1 (item_rows it)) w).1
    = sheet_outcome w (length (requests w)) it ∧
  (splitSpriteSheet (item_url it) (item_columns it) (default 1 (item_rows it)) w).2
    = mkWorld (respond w) (context2d w) (item_url it :: requests w).
Proof.
  split.
  - unfold sheet_outcome.
    destruct (respond w (length (requests w)) (item_url it)) as [img| |] eqn:Hanswer.
    + assert ((loadImage (item_url it) w).1 = Resolved img) as Himg.
      { unfold loadImage. by rewrite Hanswer. }
      destruct (context2d w) eqn:Hctx.
      * by apply splitSpriteSheet_resolved.
      * unfold splitSpriteSheet. by rewrite (extraction_no_context _ w img).
    + unfold splitSpriteSheet. rewrite (extraction_load_fails _ w (FailedToLoadImage (item_url it))); [done |].
      unfold loadImage. by rewrite Hanswer.
    + unfold splitSpriteSheet. rewrite (extraction_load_fails _ w (FailedToLoadImage (item_url it))); [done |].
      unfold loadImage. by rewrite Hanswer.
  - unfold splitSpriteSheet. rewrite extraction_world; [| done]. apply loadImage_world.
Qed.

Lemma startSheets_spec (items : list SheetItem) w :
  (startSheets items w).2
    = mkWorld (respond w) (context2d w) (reverse (item_url <$> items) ++ requests w) ∧
  length (startSheets items w).1 = length items ∧
  ∀ i it, items !! i = Some it →
    (startSheets items w).1 !! i = Some (sheet_outcome w (length (requests w) + i) it).
Proof.
  revert w. induction items as [|it0 items IH]; intros w.
  - split; [by destruct w |]. split; [done |]. intros i it Hi. by rewrite lookup_nil in Hi.
  - cbn [startSheets].
    destruct (splitSpriteSheet_settles it0 w) as [Hout Hworld].
    destruct (splitSpriteSheet _ _ _ w) as [outcome w1]. cbn [fst snd] in Hout, Hworld.
    destruct (IH w1) as (Hw & Hlen & Houts).
    destruct (startSheets items w1) as [outcomes w2]. cbn [fst snd] in *.
    subst w1 outcome. cbn [respond context2d requests] in *.
    split; [| split].
    + rewrite Hw, fmap_cons, reverse_cons, <- app_assoc. done.
    + cbn [length]. by rewrite Hlen.
    + intros [|i] it Hi.
      * injection Hi as <-. by rewrite Nat.add_0_r.
      * change (items !! i = Some it) in Hi.
        change (outcomes !! i = Some (sheet_outcome w (length (requests w) + S i) it)).
        rewrite (Houts i it Hi).
        unfold sheet_outcome. cbn [respond context2d length].
        by replace (S (length (requests w)) + i)%nat with (length (requests w) + S i)%nat
          by lia.
Qed.

(** What [settleSheets] resolves to when no call rejected. *)
Lemma settleSheets_lookup (items : list SheetItem)
    (outcomes : list (Result (list SpriteFrame))) i it frames :
  NoDup (item_url <$> items) →
  items !! i = Some it →
  outcomes !! i = Some (Resolved frames) →
  item_url it ≠ "__proto__" →
  ∀ order results final,
    settleSheets order items outcomes results = Resolved final →
    final !! item_url it = if decide (i ∈ order) then Some frames else results !! item_url it.
Proof.
  intros Hnodup Hit Hout Hproto order.
  induction order as [|j order IH]; intros results final Hrun; cbn [settleSheets] in Hrun.
  - injection Hrun as <-. by rewrite decide_False by apply not_elem_of_nil.
  - assert (∀ results',
              settleSheets order items outcomes results' = Resolved final →
              results' !! item_url it
                = (if decide (i = j) then Some frames else results !! item_url it) →
              final !! item_url it
                = if decide (i ∈ j :: order) then Some frames else results !! item_url it)
      as Hstep.
    { intros results' Hrun' Hres'. rewrite (IH results' final Hrun').
      destruct (decide (i ∈ order)) as [Hin | Hnotin].
      - rewrite decide_True; [done | by right].
      - rewrite Hres'. destruct (decide (i = j)) as [-> | Hne].
        + rewrite decide_True; [done | by left].
        + rewrite decide_False; [done |].
          intros Hin; apply elem_of_cons in Hin as [? | ?]; done. }
    destruct (items !! j) as [itj|] eqn:Hitj.
    + destruct (outcomes !! j) as [[fj|e]|] eqn:Houtj; [| done |].
      * apply (Hstep _ Hrun). unfold assign.
        destruct (decide (i = j)) as [-> | Hne].
        -- rewrite Hit in Hitj. injection Hitj as <-.
           rewrite Hout in Houtj. injection Houtj as <-.
           rewrite bool_decide_false by done. by rewrite lookup_insert_eq.
        -- case_bool_decide; [done |]. rewrite lookup_insert_ne; [done |].
           intros Hsame. apply Hne. symmetry.
           apply (NoDup_lookup (item_url <$> items) j i (item_url itj) Hnodup).
           ++ by rewrite list_lookup_fmap, Hitj.
           ++ by rewrite list_lookup_fmap, Hit, Hsame.
      * apply (Hstep _ Hrun). rewrite decide_False; [done |]. intros ->. congruence.
    + apply (Hstep _ Hrun). rewrite decide_False; [done |]. intros ->. congruence.
Qed.

Lemma settleSheets_keys (items : list SheetItem)
    (outcomes : list (Result (list SpriteFrame))) order :
  ∀ results final key,
    settleSheets order items outcomes results = Resolved final →
    is_Some (final !! key) →
    is_Some (results !! key) ∨ (key ≠ "__proto__" ∧ key ∈ item_url <$> items).
Proof.
  induction order as [|j order IH]; intros results final key Hrun Hkey;
    cbn [settleSheets] in Hrun.
  - injection Hrun as <-. by left.
  - destruct (items !! j) as [itj|] eqn:Hitj; [| by apply (IH _ final)].
    destruct (outcomes !! j) as [[fj|e]|]; [| done | by apply (IH _ final)].
    destruct (IH _ final key Hrun Hkey) as [Hin | ?]; [| by right].
    unfold assign in Hin. case_bool_decide as Hproto; [by left |].
    destruct (decide (item_url itj = key)) as [<- | Hne].
    + right. split; [done |]. apply list_elem_of_fmap. exists itj. split; [done |].
      by apply list_elem_of_lookup_2 in Hitj.
    + rewrite lookup_insert_ne in Hin by done. by left.
Qed.

(** [settleSheets] resolves exactly when no call that settles rejected, and
    otherwise rejects with the error of one of the calls. *)
Lemma settleSheets_settles (items : list SheetItem)
    (outcomes : list (Result (list SpriteFrame))) order results :
  match settleSheets order items outcomes results with
  | Resolved _ =>
      ∀ j it e, j ∈ order → items !! j = Some it → outcomes !! j ≠ Some (Rejected e)
  | Rejected e => ∃ j it, j ∈ order ∧ items !! j = Some it ∧ outcomes !! j = Some (Rejected e)
  end.
Proof.
  revert results. induction order as [|j order IH]; intros results; cbn [settleSheets].
  - intros j it e Hj. by apply elem_of_nil in Hj.
  - destruct (items !! j) as [itj|] eqn:Hitj.
    + destruct (outcomes !! j) as [[fj|e]|] eqn:Houtj.
      * specialize (IH (assign (item_url itj) fj results)).
        destruct (settleSheets order items outcomes _) as [final|e].
        -- intros j' it e Hj' Hit. apply elem_of_cons in Hj' as [-> | Hj']; [congruence |].
           by apply (IH j' it).
        -- destruct IH as (j' & it & Hj' & Hit & Hout). exists j', it.
           split; [by right | done].
      * exists j, itj. split; [by left | done].
      * specialize (IH results). destruct (settleSheets order items outcomes _) as [final|e].
        -- intros j' it e Hj' Hit. apply elem_of_cons in Hj' as [-> | Hj']; [congruence |].
           by apply (IH j' it).
        -- destruct IH as (j' & it & Hj' & Hit & Hout). exists j', it.
           split; [by right | done].
    + specialize (IH results). destruct (settleSheets order items outcomes _) as [final|e].
      * intros j' it e Hj' Hit. apply elem_of_cons in Hj' as [-> | Hj']; [congruence |].
        by apply (IH j' it).
      * destruct IH as (j' & it & Hj' & Hit & Hout). exists j', it.
        split; [by right | done].
Qed.

Lemma elem_of_order (order : list nat) (n i : nat) :
  order ≡ₚ seq 0 n → i ∈ order ↔ (i < n)%nat.
Proof. intros ->. rewrite elem_of_seq. lia. Qed.

(** When the batch resolves, every item's request was answered with a
    decoded image and a 2D context was obtained. *)
Lemma splitMultipleSpriteSheets_resolved_inv (items : list SheetItem) (order : list nat) w
    (results : gmap string (list SpriteFrame)) i it :
  order ≡ₚ seq 0 (length items) →
  (splitMultipleSpriteSheets items order w).1 = Resolved results →
  items !! i = Some it →
  context2d w = true ∧
  ∃ img, respond w (length (requests w) + i) (item_url it) = Decoded img.
Proof.
  intros Horder. unfold splitMultipleSpriteSheets.
  destruct (startSheets_spec items w) as (Hworld & Hlen & Houts).
  destruct (startSheets items w) as [outcomes w']. cbn [fst snd] in *.
  pose proof (settleSheets_settles items outcomes order ∅) as Hsettle.
  intros Hrun Hit. rewrite Hrun in Hsettle.
  assert (i ∈ order) as Hi.
  { apply (elem_of_order order (length items)); [done |]. by apply lookup_lt_Some in Hit. }
  specialize (Hsettle i it). rewrite (Houts i it Hit) in Hsettle.
  unfold sheet_outcome in Hsettle.
  destruct (respond w (length (requests w) + i) (item_url it)) as [img| |].
  - destruct (context2d w); [by eauto |]. by destruct (Hsettle _ Hi Hit eq_refl).
  - by destruct (Hsettle _ Hi Hit eq_refl).
  - by destruct (Hsettle _ Hi Hit eq_refl).
Qed.

(** X10. [splitMultipleSpriteSheets] requests the image of every item, in
    the order of the items, whether or not any of the calls fails.  Whatever
    the order in which the calls settle, it resolves exactly when every item's
    sheet splits, that is, when [items] is empty or a 2D context is obtained
    and every request is answered with a decoded image; otherwise it
    rejects, with the load error of one of the items or with the context
    error. *)
Theorem splitMultipleSpriteSheets_settles (items : list SheetItem) (order : list nat) w :
  order ≡ₚ seq 0 (length items) →
  requests (splitMultipleSpriteSheets items order w).2
    = reverse (item_url <$> items) ++ requests w ∧
  ((∃ results, (splitMultipleSpriteSheets items order w).1 = Resolved results) ↔
   ∀ i it, items !! i = Some it →
     context2d w = true ∧
     ∃ img, respond w (length (requests w) + i) (item_url it) = Decoded img) ∧
  (∀ e, (splitMultipleSpriteSheets items order w).1 = Rejected e →
     e = CouldNotGetCanvasContext ∨
     ∃ it, it ∈ items ∧ e = FailedToLoadImage (item_url it)).
Proof.
  intros Horder.
  pose proof (splitMultipleSpriteSheets_resolved_inv items order w) as Hinv.
  revert Hinv. unfold splitMultipleSpriteSheets.
  destruct (startSheets_spec items w) as (Hworld & Hlen & Houts).
  destruct (startSheets items w) as [outcomes w']. cbn [fst snd] in *. intros Hinv.
  split; [by rewrite Hworld |].
  pose proof (settleSheets_settles items outcomes order ∅) as Hsettle.
  split; [split |].
  - intros [results Hrun] i it Hit. by apply (Hinv results).
  - intros Hall. destruct (settleSheets order items outcomes ∅) as [results|e]; [by eexists |].
    destruct Hsettle as (j & it & _ & Hit & Hout).
    rewrite (Houts j it Hit) in Hout. unfold sheet_outcome in Hout.
    destruct (Hall j it Hit) as [Hctx [img Himg]]. by rewrite Himg, Hctx in Hout.
  - intros e Hrun. rewrite Hrun in Hsettle.
    destruct Hsettle as (j & it & _ & Hit & Hout).
    rewrite (Houts j it Hit) in Hout. unfold sheet_outcome in Hout.
    destruct (respond w (length (requests w) + j) (item_url it)) as [img| |].
    + destruct (context2d w); [done |]. injection Hout as <-. by left.
    + injection Hout as <-. right. exists it. split; [| done].
      by apply list_elem_of_lookup_2 in Hit.
    + injection Hout as <-. right. exists it. split; [| done].
      by apply list_elem_of_lookup_2 in Hit.
Qed.

(** X11. When [splitMultipleSpriteSheets] resolves and the urls of the items
    are pairwise different, the result has, under the url of each item, the
    frames of that item's sheet in row-major order, and no own key that is
    not the url of an item, in whatever order the calls settled.  (An item
    whose url is [__proto__] gets no own key.) *)
Theorem splitMultipleSpriteSheets_resolves (items : list SheetItem) (order : list nat) w
    (results : gmap string (list SpriteFrame)) :
  order ≡ₚ seq 0 (length items) →
  NoDup (item_url <$> items) →
  (splitMultipleSpriteSheets items order w).1 = Resolved results →
  (∀ i it, items !! i = Some it →
     ∃ img,
       respond w (length (requests w) + i) (item_url it) = Decoded img ∧
       results !! item_url it =
         if decide (item_url it = "__proto__") then None
         else Some (sheet_frames img (item_columns it) (default 1 (item_rows it))
                      (img_width img / item_columns it)
                      (img_height img / default 1 (item_rows it)))) ∧
  (∀ key, is_Some (results !! key) → key ≠ "__proto__" ∧ key ∈ item_url <$> items).
Proof.
  intros Horder Hnodup Hrun.
  pose proof (λ i it, splitMultipleSpriteSheets_resolved_inv items order w results i it
                        Horder Hrun) as Hall.
  revert Hrun. unfold splitMultipleSpriteSheets.
  destruct (startSheets_spec items w) as (Hworld & Hlen & Houts).
  destruct (startSheets items w) as [outcomes w']. cbn [fst snd] in *. intros Hrun.
  split.
  - intros i it Hit. destruct (Hall i it Hit) as [Hctx [img Himg]]. exists img.
    split; [done |]. case_decide as Hproto.
    + destruct (results !! item_url it) eqn:Hkey; [| done].
      destruct (settleSheets_keys items outcomes order ∅ results (item_url it) Hrun)
        as [Hempty | [? _]]; [by eexists | | done].
      rewrite lookup_empty in Hempty. by destruct Hempty.
    + assert (outcomes !! i = Some (Resolved
                (sheet_frames img (item_columns it) (default 1 (item_rows it))
                   (img_width img / item_columns it)
                   (img_height img / default 1 (item_rows it))))) as Hout.
      { rewrite (Houts i it Hit). unfold sheet_outcome. by rewrite Himg, Hctx. }
      rewrite (settleSheets_lookup items outcomes i it _ Hnodup Hit Hout Hproto
                 order ∅ results Hrun).
      rewrite decide_True; [done |].
      apply (elem_of_order order (length items)); [done |]. by apply lookup_lt_Some in Hit.
  - intros key Hkey.
    destruct (settleSheets_keys items outcomes order ∅ results key Hrun Hkey)
      as [Hempty | ?]; [| done].
    rewrite lookup_empty in Hempty. by destruct Hempty.
Qed.

End MoreSpriteFacts.

(** * Further properties of the board component *)
Section MoreBoardFacts.
Context `{Canvas2D}.
Implicit Types (s : Component) (r c : nat) (es : list Event).

(** *** The assets of [onMount] *)

Lemma loadImage_answer url w :
  (loadImage url w).1
  = match respond w (length (requests w)) url with
    | Decoded img => Resolved img
    | FetchFailed | DecodeFailed => Rejected (FailedToLoadImage url)
    end.
Proof. unfold loadImage. by destruct (respond w (length (requests w)) url). Qed.

Lemma loadChessPiecesWithConfig_world url config fw fh w :
  (loadChessPiecesWithConfig url config fw fh w).2
  = mkWorld (respond w) (context2d w) (url :: requests w).
Proof.
  unfold loadChessPiecesWithConfig. rewrite extraction_world; [| done].
  apply loadImage_world.
Qed.

Lemma loadPieceAnimationFrames_world url config animConfig w :
  (loadPieceAnimationFrames url config animConfig w).2
  = mkWorld (respond w) (context2d w) (url :: requests w).
Proof.
  unfold loadPieceAnimationFrames. rewrite extraction_world; [| done].
  apply loadImage_world.
Qed.

Lemma has_ranges_default : has_ranges DEFAULT_CHESS_PIECES_CONFIG DEFAULT_ANIMATION_COLUMNS.
Proof. intros color _. destruct color; by eexists. Qed.

(** The two default loaders, by the answer to their image request. *)
Lemma loadDefaultChessPieces_settles w :
  (loadDefaultChessPieces DEFAULT_PIECES_URL DEFAULT_CHESS_PIECES_CONFIG w).1
  = match respond w (length (requests w)) DEFAULT_PIECES_URL with
    | Decoded img =>
        if context2d w
        then Resolved (resolved_sprites img DEFAULT_CHESS_PIECES_CONFIG
                         CHESS_SPRITE_SIZE CHESS_SPRITE_SIZE)
        else Rejected CouldNotGetCanvasContext
    | FetchFailed | DecodeFailed => Rejected (FailedToLoadImage DEFAULT_PIECES_URL)
    end.
Proof.
  unfold loadDefaultChessPieces.
  pose proof (loadImage_answer DEFAULT_PIECES_URL w) as Himg.
  destruct (respond w (length (requests w)) DEFAULT_PIECES_URL) as [img| |].
  - destruct (context2d w) eqn:Hctx.
    + apply loadChessPiecesWithConfig_resolved; [done | done |].
      apply DEFAULT_CHESS_PIECES_CONFIG_typed.
    + unfold loadChessPiecesWithConfig. by rewrite (extraction_no_context _ w img).
  - unfold loadChessPiecesWithConfig. by rewrite (extraction_load_fails _ w (FailedToLoadImage DEFAULT_PIECES_URL)).
  - unfold loadChessPiecesWithConfig. by rewrite (extraction_load_fails _ w (FailedToLoadImage DEFAULT_PIECES_URL)).
Qed.

Lemma loadDefaultAnimationFrames_settles w :
  match respond w (length (requests w)) DEFAULT_PIECES_URL with
  | Decoded img =>
      if context2d w
      then ∃ frames : PieceAnimationFrames,
             (loadPieceAnimationFrames DEFAULT_PIECES_URL DEFAULT_CHESS_PIECES_CONFIG
                DEFAULT_ANIMATION_COLUMNS w).1 = Resolved frames ∧
             ∀ color, ∃ of_color,
               frames !! color = Some of_color ∧
               ∀ pieceType,
                 of_color !! pieceType
                 = resolved_strip img DEFAULT_CHESS_PIECES_CONFIG
                     DEFAULT_ANIMATION_COLUMNS color pieceType
      else (loadPieceAnimationFrames DEFAULT_PIECES_URL DEFAULT_CHESS_PIECES_CONFIG
              DEFAULT_ANIMATION_COLUMNS w).1 = Rejected CouldNotGetCanvasContext
  | FetchFailed | DecodeFailed =>
      (loadPieceAnimationFrames DEFAULT_PIECES_URL DEFAULT_CHESS_PIECES_CONFIG
         DEFAULT_ANIMATION_COLUMNS w).1 = Rejected (FailedToLoadImage DEFAULT_PIECES_URL)
  end.
Proof.
  pose proof (loadImage_answer DEFAULT_PIECES_URL w) as Himg.
  destruct (respond w (length (requests w)) DEFAULT_PIECES_URL) as [img| |].
  - destruct (context2d w) eqn:Hctx.
    + apply loadPieceAnimationFrames_resolved; [done | done |]. apply has_ranges_default.
    + unfold loadPieceAnimationFrames. by rewrite (extraction_no_context _ w img).
  - unfold loadPieceAnimationFrames. by rewrite (extraction_load_fails _ w (FailedToLoadImage DEFAULT_PIECES_URL)).
  - unfold loadPieceAnimationFrames. by rewrite (extraction_load_fails _ w (FailedToLoadImage DEFAULT_PIECES_URL)).
Qed.

(** [loadAssets], with the two calls settled. *)
Lemma loadAssets_eq w :
  loadAssets w
  = (match (loadDefaultChessPieces DEFAULT_PIECES_URL DEFAULT_CHESS_PIECES_CONFIG w).1,
           (loadPieceAnimationFrames DEFAULT_PIECES_URL DEFAULT_CHESS_PIECES_CONFIG
              DEFAULT_ANIMATION_COLUMNS
              (mkWorld (respond w) (context2d w) (DEFAULT_PIECES_URL :: requests w))).1 with
     | Resolved sprites, Resolved frames => Resolved (sprites, frames)
     | Rejected e, _ => Rejected e
     | _, Rejected e => Rejected e
     end,
     mkWorld (respond w) (context2d w)
       (DEFAULT_PIECES_URL :: DEFAULT_PIECES_URL :: requests w)).
Proof.
  unfold loadAssets.
  pose proof (loadChessPiecesWithConfig_world DEFAULT_PIECES_URL
                DEFAULT_CHESS_PIECES_CONFIG CHESS_SPRITE_SIZE CHESS_SPRITE_SIZE w) as Hw1.
  unfold loadDefaultChessPieces.
  destruct (loadChessPiecesWithConfig DEFAULT_PIECES_URL DEFAULT_CHESS_PIECES_CONFIG
              CHESS_SPRITE_SIZE CHESS_SPRITE_SIZE w) as [sprites w1].
  cbn [fst snd] in Hw1 |- *. subst w1.
  pose proof (loadPieceAnimationFrames_world DEFAULT_PIECES_URL
                DEFAULT_CHESS_PIECES_CONFIG DEFAULT_ANIMATION_COLUMNS
                (mkWorld (respond w) (context2d w) (DEFAULT_PIECES_URL :: requests w)))
    as Hw2.
  destruct (loadPieceAnimationFrames DEFAULT_PIECES_URL DEFAULT_CHESS_PIECES_CONFIG
              DEFAULT_ANIMATION_COLUMNS _) as [frames w2].
  cbn [fst snd] in Hw2 |- *. by subst w2.
Qed.

(** The tables [onMount] assigns come from two decoded sheets. *)
Lemma loadAssets_resolved_inv w (sprites : PieceSprites) (frames : PieceAnimationFrames) :
  (loadAssets w).1 = Resolved (sprites, frames) →
  ∃ img1 img2,
    sprites = resolved_sprites img1 DEFAULT_CHESS_PIECES_CONFIG
                CHESS_SPRITE_SIZE CHESS_SPRITE_SIZE ∧
    ∀ color, ∃ of_color,
      frames !! color = Some of_color ∧
      ∀ pieceType,
        of_color !! pieceType
        = resolved_strip img2 DEFAULT_CHESS_PIECES_CONFIG
            DEFAULT_ANIMATION_COLUMNS color pieceType.
Proof.
  rewrite loadAssets_eq. cbn [fst]. rewrite loadDefaultChessPieces_settles.
  pose proof (loadDefaultAnimationFrames_settles
                (mkWorld (respond w) (context2d w) (DEFAULT_PIECES_URL :: requests w)))
    as Hframes.
  cbn [respond requests context2d length] in Hframes.
  destruct (respond w (length (requests w)) DEFAULT_PIECES_URL) as [img1| |]; [| done | done].
  destruct (context2d w); [| done].
  destruct (respond w (S (length (requests w))) DEFAULT_PIECES_URL) as [img2| |].
  - destruct Hframes as (frames' & -> & Hres). intros [= <- <-]. by exists img1, img2.
  - by rewrite Hframes.
  - by rewrite Hframes.
Qed.

(** X12. The two loader calls of [onMount] request the default sheet twice.
    They both resolve exactly when both requests are answered with a decoded
    image and a 2D context is obtained; the static table is then cut from the
    first image and the animation table from the second, with the shipped
    positions and ranges.  Otherwise the pair rejects, with the load error of
    the sheet or with the context error, never with a type error. *)
Theorem loadAssets_outcome w :
  requests (loadAssets w).2 = DEFAULT_PIECES_URL :: DEFAULT_PIECES_URL :: requests w ∧
  match respond w (length (requests w)) DEFAULT_PIECES_URL,
        respond w (S (length (requests w))) DEFAULT_PIECES_URL with
  | Decoded img1, Decoded img2 =>
      if context2d w
      then ∃ frames : PieceAnimationFrames,
             (loadAssets w).1
             = Resolved (resolved_sprites img1 DEFAULT_CHESS_PIECES_CONFIG
                           CHESS_SPRITE_SIZE CHESS_SPRITE_SIZE, frames) ∧
             ∀ color, ∃ of_color,
               frames !! color = Some of_color ∧
               ∀ pieceType,
                 of_color !! pieceType
                 = resolved_strip img2 DEFAULT_CHESS_PIECES_CONFIG
                     DEFAULT_ANIMATION_COLUMNS color pieceType
      else (loadAssets w).1 = Rejected CouldNotGetCanvasContext
  | _, _ =>
      ∃ e, (loadAssets w).1 = Rejected e ∧
           (e = FailedToLoadImage DEFAULT_PIECES_URL ∨ e = CouldNotGetCanvasContext)
  end.
Proof.
  rewrite loadAssets_eq. cbn [fst snd requests]. split; [done |].
  rewrite loadDefaultChessPieces_settles.
  pose proof (loadDefaultAnimationFrames_settles
                (mkWorld (respond w) (context2d w) (DEFAULT_PIECES_URL :: requests w)))
    as Hframes.
  cbn [respond requests context2d length] in Hframes.
  destruct (respond w (length (requests w)) DEFAULT_PIECES_URL) as [img1| |].
  - destruct (context2d w).
    + destruct (respond w (S (length (requests w))) DEFAULT_PIECES_URL) as [img2| |].
      * destruct Hframes as (frames & -> & Hres). by exists frames.
      * rewrite Hframes. eexists. split; [done | by left].
      * rewrite Hframes. eexists. split; [done | by left].
    + destruct (respond w (S (length (requests w))) DEFAULT_PIECES_URL) as [img2| |];
        [done | |]; eexists; (split; [done | by right]).
  - eexists. split; [done | by left].
  - eexists. split; [done | by left].
Qed.

(** *** What each event leaves alone *)

Lemma stopAnimation_surroundings s : same_surroundings s (stopAnimation s).
Proof. by rewrite stopAnimation_eq. Qed.

Lemma startAnimation_surroundings r c s : same_surroundings s (startAnimation r c s).
Proof.
  rewrite startAnimation_eq. destruct (pieceAt r c s); [done |].
  apply stopAnimation_surroundings.
Qed.

Lemma handleSquareClick_surroundings r c s : same_surroundings s (handleSquareClick r c s).
Proof.
  unfold handleSquareClick.
  destruct (pieceAt r c s); [| apply stopAnimation_surroundings].
  case_bool_decide; [done |].
  destruct (selectedPiece s); [| apply startAnimation_surroundings].
  case_bool_decide; [apply stopAnimation_surroundings | apply startAnimation_surroundings].
Qed.

(** Only [onMount] writes the board and the tables, and nothing writes the
    props. *)
Lemma step_surroundings s (e : Event) :
  match e with
  | Mount =>
      boardState (step s e) = getInitialBoard ∧
      pieceSprites (step s e) = pieceSprites s ∧
      animationFrames (step s e) = animationFrames s ∧ loading (step s e) = loading s
  | AssetsSettled _ => boardState (step s e) = boardState s
  | _ => same_surroundings s (step s e)
  end ∧
  playerColor (step s e) = playerColor s.
Proof.
  destruct e as [| w | r c | id |]; cbn [step].
  - done.
  - by destruct (loadAssets w).1 as [[??]|].
  - split; [apply handleSquareClick_surroundings |].
    by destruct (handleSquareClick_surroundings r c s) as (_ & _ & ? & _).
  - by case_bool_decide.
  - split; [apply stopAnimation_surroundings |]. by rewrite stopAnimation_eq.
Qed.

Lemma reachable_ind (P : Component → Prop) sz bd pc h0 :
  P (create sz bd pc h0) →
  (∀ s (e : Event), coherent s → P s → P (step s e)) →
  ∀ es, P (run es (create sz bd pc h0)).
Proof.
  intros Hcreate Hstep es.
  assert (∀ es' s, coherent s → P s → P (run es' s)) as Hrun.
  { intros es'. induction es' as [|e es' IH]; intros s Hs HP; [done |].
    apply IH; [by apply coherent_step | by apply Hstep]. }
  apply Hrun; [apply coherent_create | apply Hcreate].
Qed.

Lemma default_assets_reachable sz bd pc h0 es :
  default_assets (run es (create sz bd pc h0)).
Proof.
  apply (reachable_ind default_assets); [done |].
  intros s e _ Hs. pose proof (step_surroundings s e) as [Hsame _].
  destruct e as [| w | r c | id |].
  - destruct Hsame as (_ & Hsprites & Hframes & Hloading).
    unfold default_assets. by rewrite Hsprites, Hframes, Hloading.
  - cbn [step]. destruct (loadAssets w).1 as [[sprites frames]|e] eqn:Hload; [| done].
    split; [done |]. by apply (loadAssets_resolved_inv w).
  - destruct Hsame as (_ & _ & _ & _ & Hsprites & Hframes & Hloading).
    unfold default_assets. by rewrite Hsprites, Hframes, Hloading.
  - destruct Hsame as (_ & _ & _ & _ & Hsprites & Hframes & Hloading).
    unfold default_assets. by rewrite Hsprites, Hframes, Hloading.
  - destruct Hsame as (_ & _ & _ & _ & Hsprites & Hframes & Hloading).
    unfold default_assets. by rewrite Hsprites, Hframes, Hloading.
Qed.

(** X13. Whatever has happened to the component, the two tables are
    unassigned exactly while [loading] is true, they are assigned together,
    and once assigned they are the tables the default loaders resolve to:
    nothing else ever writes them. *)
Theorem assets_are_the_default_tables sz bd pc h0 es :
  let s := run es (create sz bd pc h0) in
  default_assets s ∧
  spritesLoaded s = negb (loading s) ∧
  (is_Some (pieceSprites s) ↔ is_Some (animationFrames s)).
Proof.
  intros s. pose proof (default_assets_reachable sz bd pc h0 es) as Hs. fold s in Hs.
  split; [done |]. unfold default_assets in Hs. unfold spritesLoaded.
  destruct (pieceSprites s), (animationFrames s); try done.
  - destruct Hs as [-> _]. split; [done |]. split; by eexists.
  - rewrite Hs. split; [done |]. split; by intros [? ?].
Qed.

(** *** The selected square *)

Lemma pieceAt_boardState r c s s' :
  boardState s' = boardState s → pieceAt r c s' = pieceAt r c s.
Proof. unfold pieceAt. by intros ->. Qed.

Lemma pieceAt_unplaced r c s : boardState s = [] → pieceAt r c s = None.
Proof. unfold pieceAt. intros ->. by rewrite lookup_nil. Qed.

(** Where the pieces of the initial board are. *)
Lemma initial_pieces r c s piece :
  boardState s = getInitialBoard → pieceAt r c s = Some piece →
  c < 8 ∧ (color piece = white ∧ 6 ≤ r ≤ 7 ∨ color piece = black ∧ r ≤ 1).
Proof.
  intros Hboard Hpiece.
  destruct (decide (8 ≤ r ∨ 8 ≤ c)) as [Hout | Hin].
  { rewrite pieceAt_outside in Hpiece; [done | by right | done]. }
  unfold pieceAt in Hpiece. rewrite Hboard in Hpiece. clear Hboard.
  do 8 (destruct r as [|r];
        [do 8 (destruct c as [|c];
               [vm_compute in Hpiece;
                first [discriminate
                      | injection Hpiece as <-; split; [lia |];
                        first [left; split; [reflexivity | lia]
                              | right; split; [reflexivity | lia]]]
               |]);
         lia |]).
  lia.
Qed.

Lemma playerColor_reachable sz bd pc h0 es : playerColor (run es (create sz bd pc h0)) = pc.
Proof.
  apply (reachable_ind (λ s, playerColor s = pc)); [done |].
  intros s e _ <-. by destruct (step_surroundings s e) as [_ ?].
Qed.

(** X14. Whatever has happened to the component, [playerColor] is the prop
    it was created with, and a selected square is one of the 8 x 8 squares
    and holds a piece of that colour on the initial board: a white player's
    selection is on rows 6 and 7, a black player's on rows 0 and 1.
    [isSelected] marks that square and no other.  For a green or blue player
    nothing is ever selected and no timer call is ever made. *)
Theorem selection_is_a_piece_of_the_player sz bd pc h0 es :
  let s := run es (create sz bd pc h0) in
  playerColor s = pc ∧
  (∀ cell, selectedPiece s = Some cell →
     boardState s = getInitialBoard ∧ col cell < 8 ∧
     (pc = white ∧ 6 ≤ row cell ≤ 7 ∨ pc = black ∧ row cell ≤ 1)) ∧
  (∀ r c, isSelected r c s = true ↔ selectedPiece s = Some (mkCell r c)) ∧
  (∀ r c, isSelected r c s = true →
     ∃ piece, pieceAt r c s = Some piece ∧ color piece = pc) ∧
  (pc = green ∨ pc = blue →
     selectedPiece s = None ∧ animationInterval s = None ∧ timerCalls s = [] ∧
     currentFrame s = 0).
Proof.
  intros s. pose proof (coherent_reachable sz bd pc h0 es) as Hs. fold s in Hs.
  pose proof (playerColor_reachable sz bd pc h0 es) as Hpc. fold s in Hpc.
  assert (∀ r c, isSelected r c s = true ↔ selectedPiece s = Some (mkCell r c)) as Hmark.
  { intros r c. unfold isSelected. destruct (selectedPiece s) as [[r0 c0]|]; [| done].
    rewrite bool_decide_eq_true. cbn [row col]. split; [by intros [-> ->] | by intros [= -> ->]]. }
  assert (∀ cell, selectedPiece s = Some cell →
            ∃ piece, pieceAt (row cell) (col cell) s = Some piece ∧ color piece = pc)
    as Hholds.
  { intros cell Hsel. destruct Hs as (_ & Hsession & _). rewrite Hsel in Hsession.
    destruct (animationInterval s); [| done]. rewrite <- Hpc. apply Hsession. }
  split; [done |]. split; [| split; [done | split]].
  - intros cell Hsel. destruct (Hholds cell Hsel) as (piece & Hpiece & Hmine).
    destruct Hs as (_ & _ & [Hboard | Hboard] & _).
    { by rewrite pieceAt_unplaced in Hpiece. }
    split; [done |]. destruct (initial_pieces _ _ s piece Hboard Hpiece) as [Hcol Hrow].
    split; [done |]. by rewrite <- Hmine.
  - intros r c Hsel. apply Hmark in Hsel. apply (Hholds _ Hsel).
  - intros Hside. subst s. clear Hs Hpc Hmark Hholds.
    apply (reachable_ind
             (λ s, playerColor s = pc ∧ selectedPiece s = None ∧ animationInterval s = None ∧
                   timerCalls s = [] ∧ currentFrame s = 0)); [done |].
    intros s e Hs (Hpc & Hsel & Hid & Hcalls & Hframe).
    split; [rewrite <- Hpc; by destruct (step_surroundings s e) as [_ ?] |].
    assert (stopAnimation s = s) as Hstop by (by apply stopAnimation_idle).
    destruct e as [| w | r c | id |]; cbn [step].
    + done.
    + by destruct (loadAssets w).1 as [[??]|].
    + unfold handleSquareClick.
      destruct (pieceAt r c s) as [piece|] eqn:Hpiece; [| by rewrite Hstop].
      rewrite bool_decide_true; [done |].
      destruct Hs as (_ & _ & [Hboard | Hboard] & _).
      { by rewrite pieceAt_unplaced in Hpiece. }
      destruct (initial_pieces _ _ s piece Hboard Hpiece) as [_ [[Hw _] | [Hb _]]];
        rewrite Hpc; destruct Hside; congruence.
    + rewrite Hcalls. cbn [running].
      rewrite bool_decide_false; [done | apply not_elem_of_empty].
    + by rewrite Hstop.
Qed.

(** *** Selecting and deselecting *)

Lemma ticks_state s id (n : nat) :
  coherent s → animationInterval s = Some id →
  run (replicate n (Tick id)) s = set_currentFrame (currentFrame s + n) s.
Proof.
  revert s. induction n as [|n IH]; intros s Hs Hid.
  - rewrite Nat.add_0_r. by destruct s.
  - cbn [replicate run foldl]. fold (run (replicate n (Tick id)) (step s (Tick id))).
    rewrite IH; [| by apply coherent_step | by rewrite tick_running].
    rewrite tick_running by done. unfold set_currentFrame; simpl. f_equal. lia.
Qed.

(** X15. On a component with no selection, a click on a piece of the player
    selects its square, shows frame 0 and sets one interval, whose handle is
    the next one the browser hands out; nothing else changes.  Ticks of that
    interval change the frame index only.  A second click on the square,
    after any number of ticks, clears that interval and puts every variable
    of the script back to its value before the first click. *)
Theorem select_then_deselect sz bd pc h0 es r c piece (n : nat) :
  let s := run es (create sz bd pc h0) in
  selectedPiece s = None →
  pieceAt r c s = Some piece →
  color piece = playerColor s →
  let s1 := handleSquareClick r c s in
  let s2 := run (replicate n (Tick (nextHandle s))) s1 in
  s1 = mkComponent (size s) (board s) (playerColor s) (boardState s) (pieceSprites s)
         (animationFrames s) (loading s) (Some (mkCell r c)) 0 (Some (nextHandle s))
         (SetInterval (nextHandle s) :: timerCalls s) (Pos.succ (nextHandle s)) ∧
  s2 = set_currentFrame n s1 ∧
  handleSquareClick r c s2
  = mkComponent (size s) (board s) (playerColor s) (boardState s) (pieceSprites s)
      (animationFrames s) (loading s) (selectedPiece s) (currentFrame s)
      (animationInterval s)
      (ClearInterval (nextHandle s) :: SetInterval (nextHandle s) :: timerCalls s)
      (Pos.succ (nextHandle s)).
Proof.
  intros s Hsel Hpiece Hmine s1 s2.
  pose proof (coherent_reachable sz bd pc h0 es) as Hs. fold s in Hs.
  assert (animationInterval s = None ∧ currentFrame s = 0) as [Hid Hframe].
  { destruct Hs as (_ & Hsession & _). rewrite Hsel in Hsession.
    destruct (animationInterval s); [done |]. split; [done | apply Hsession]. }
  assert (s1 = mkComponent (size s) (board s) (playerColor s) (boardState s)
                 (pieceSprites s) (animationFrames s) (loading s) (Some (mkCell r c)) 0
                 (Some (nextHandle s)) (SetInterval (nextHandle s) :: timerCalls s)
                 (Pos.succ (nextHandle s))) as Hs1.
  { subst s1. unfold handleSquareClick. rewrite Hpiece, Hsel.
    rewrite bool_decide_false by (intros Hne; by apply Hne).
    by rewrite startAnimation_eq, Hpiece, stopAnimation_eq, Hid. }
  assert (coherent s1) as Hcoh1 by apply (coherent_step s (Click r c) Hs).
  assert (s2 = set_currentFrame n s1) as Hs2.
  { subst s2. rewrite (ticks_state s1 (nextHandle s) n Hcoh1); by rewrite Hs1. }
  split; [done |]. split; [done |].
  rewrite Hs2, Hs1. unfold handleSquareClick.
  rewrite (pieceAt_boardState r c s) by done. rewrite Hpiece.
  cbn [set_currentFrame playerColor selectedPiece row col].
  rewrite bool_decide_false by (intros Hne; by apply Hne).
  rewrite bool_decide_true by done.
  rewrite stopAnimation_eq. cbn. by rewrite Hsel, Hid, Hframe.
Qed.

(** *** [onDestroy] *)

(** X16. [onDestroy] leaves no interval running, whatever happened before:
    it clears the interval of the session, if there is one, and makes no
    timer call otherwise; the selection is gone and the frame index is 0,
    while the props, the board and the tables stay.  Destroying an idle
    component changes nothing, destroying twice is destroying once, and no
    tick changes a destroyed component. *)
Theorem destroy_stops_everything sz bd pc h0 es :
  let s := run es (create sz bd pc h0) in
  let s' := step s Destroy in
  same_surroundings s s' ∧
  running (timerCalls s') = ∅ ∧
  animationInterval s' = None ∧
  selectedPiece s' = None ∧
  currentFrame s' = 0 ∧
  timerCalls s'
  = match animationInterval s with
    | Some id => ClearInterval id :: timerCalls s
    | None => timerCalls s
    end ∧
  (selectedPiece s = None → s' = s) ∧
  step s' Destroy = s' ∧
  (∀ ids : list positive, run (Tick <$> ids) s' = s').
Proof.
  intros s s'. pose proof (coherent_reachable sz bd pc h0 es) as Hs. fold s in Hs.
  assert (s' = stopAnimation s) as Hs' by done.
  pose proof (running_stopAnimation s Hs) as Hrun. rewrite <- Hs' in Hrun.
  split; [rewrite Hs'; apply stopAnimation_surroundings |].
  split; [done |].
  split; [by rewrite Hs', stopAnimation_eq |].
  split; [by rewrite Hs', stopAnimation_eq |].
  split; [by rewrite Hs', stopAnimation_eq |].
  split; [by rewrite Hs', stopAnimation_eq |].
  split; [| split].
  - intros Hsel. rewrite Hs'. destruct Hs as (_ & Hsession & _).
    rewrite Hsel in Hsession. destruct (animationInterval s) eqn:Hid; [done |].
    apply stopAnimation_idle; [done | done | apply Hsession].
  - rewrite Hs'. cbn [step]. apply stopAnimation_idle; by rewrite stopAnimation_eq.
  - intros ids. induction ids as [|id ids IH]; [done |].
    rewrite fmap_cons. cbn [run foldl].
    assert (step s' (Tick id) = s') as ->; [| exact IH].
    cbn [step]. rewrite Hrun. rewrite bool_decide_false; [done | apply not_elem_of_empty].
Qed.

(** *** What the template shows *)

Lemma getPieceSprite_surroundings r c frame selected s s' :
  same_surroundings s s' →
  getPieceSprite r c frame selected s' = getPieceSprite r c frame selected s.
Proof.
  intros (_ & _ & _ & Hboard & Hsprites & Hframes & _). unfold getPieceSprite.
  by rewrite (pieceAt_boardState r c s s'), Hsprites, Hframes.
Qed.

(** A square that is not the selected one shows its static sprite. *)
Lemma getPieceSprite_unselected r c frame selected s :
  selected ≠ Some (mkCell r c) →
  getPieceSprite r c frame selected s = getPieceSprite r c 0 None s.
Proof.
  intros Hsel. unfold getPieceSprite.
  destruct (pieceSprites s); [| done]. destruct (pieceAt r c s); [| done].
  destruct selected as [sel|]; [| done]. destruct (animationFrames s); [| done].
  rewrite bool_decide_false; [done |].
  intros [Hr Hc]. apply Hsel. destruct sel; simpl in *; by subst.
Qed.

(** X17. A click on a piece of the player whose square is not the selected
    one, followed by [n] ticks of the interval it sets, leaves that square
    selected at frame index [n]; when the piece has a non-empty frame list
    the template shows frame [n mod length] of it on the square, so the
    animation cycles, and it shows on every other square what
    [getPieceSprite] gives for an unselected square, whatever [n]. *)
Theorem animation_cycles sz bd pc h0 es r c piece frames (n : nat) :
  let s := run es (create sz bd pc h0) in
  pieceAt r c s = Some piece →
  color piece = playerColor s →
  selectedPiece s ≠ Some (mkCell r c) →
  frameList s piece = Some frames →
  frames ≠ [] →
  let s' := run (Click r c :: replicate n (Tick (nextHandle s))) s in
  selectedPiece s' = Some (mkCell r c) ∧
  currentFrame s' = n ∧
  sprite r c s' = frames !! (n `mod` length frames) ∧
  is_Some (sprite r c s') ∧
  ∀ r' c', (r', c') ≠ (r, c) → sprite r' c' s' = getPieceSprite r' c' 0 None s.
Proof.
  intros s Hpiece Hmine Hsel Hframes Hne s'.
  pose proof (coherent_reachable sz bd pc h0 es) as Hs. fold s in Hs.
  assert (handleSquareClick r c s = startAnimation r c s) as Hclick.
  { unfold handleSquareClick. rewrite Hpiece.
    rewrite bool_decide_false by (intros Hx; by apply Hx).
    destruct (selectedPiece s) as [sel|]; [| done].
    rewrite bool_decide_false; [done |].
    intros [Hr Hc]. apply Hsel. destruct sel; simpl in *; by subst. }
  assert (coherent (handleSquareClick r c s)) as Hcoh1
    by apply (coherent_step s (Click r c) Hs).
  assert (s' = set_currentFrame n (startAnimation r c s)) as Hs'.
  { subst s'. cbn [run foldl step].
    change (run (replicate n (Tick (nextHandle s))) (handleSquareClick r c s) =
            set_currentFrame n (startAnimation r c s)).
    rewrite (ticks_state _ (nextHandle s) n Hcoh1);
      rewrite Hclick, startAnimation_eq, Hpiece; done. }
  rewrite startAnimation_eq, Hpiece in Hs'.
  assert (same_surroundings s s') as Hsame by (by rewrite Hs').
  assert (selectedPiece s' = Some (mkCell r c)) as Hsel' by (by rewrite Hs').
  assert (currentFrame s' = n) as Hframe' by (by rewrite Hs').
  destruct (pieceSprites s) as [sprites|] eqn:Hsprites.
  2: { destruct Hs as (_ & _ & _ & Htables). rewrite Hsprites in Htables.
       unfold frameList in Hframes. by destruct (animationFrames s). }
  assert (∀ r0 c0, sprite r0 c0 s' = getPieceSprite r0 c0 n (Some (mkCell r c)) s) as Hshow.
  { intros r0 c0. unfold sprite, spritesLoaded. rewrite Hsel', Hframe'.
    pose proof Hsame as (_ & _ & _ & _ & -> & _). rewrite Hsprites.
    by apply getPieceSprite_surroundings. }
  split; [done |]. split; [done |].
  rewrite Hshow, (getPieceSprite_eq r c n _ s piece sprites) by done.
  rewrite Hframes. destruct frames as [|frame0 rest]; [done |].
  rewrite bool_decide_true by done.
  split; [done |]. split.
  - apply lookup_lt_is_Some. apply Nat.mod_upper_bound. simpl. lia.
  - intros r' c' Hother. rewrite Hshow. apply getPieceSprite_unselected.
    intros [= -> ->]. done.
Qed.

(** The static sprite of a white or black piece in the default tables. *)
Lemma default_staticSprite s piece :
  default_assets s → is_Some (pieceSprites s) →
  ∃ sprite, staticSprite s piece = Some sprite ∧ sprite ≠ EmptyString.
Proof.
  unfold default_assets, staticSprite. intros Hs [sprites Hsprites].
  rewrite Hsprites in Hs |- *. destruct (animationFrames s); [| done].
  destruct Hs as (_ & img1 & img2 & -> & _). cbn [mbind option_bind].
  assert (∀ color,
            resolved_sprites img1 DEFAULT_CHESS_PIECES_CONFIG CHESS_SPRITE_SIZE
              CHESS_SPRITE_SIZE !! color
            = Some (resolved_set img1 DEFAULT_CHESS_PIECES_CONFIG CHESS_SPRITE_SIZE
                      CHESS_SPRITE_SIZE color)) as -> by (by intros []).
  cbn [mbind option_bind]. unfold resolved_set.
  destruct (DEFAULT_CHESS_PIECES_CONFIG !! color piece) as [colorConfig|] eqn:Hcolor.
  2: { by destruct (color piece). }
  destruct DEFAULT_CHESS_PIECES_CONFIG_typed as (_ & _ & Htyped).
  destruct (Htyped _ _ Hcolor (type piece)) as [pos Hpos].
  rewrite lookup_fmap, Hpos. eexists. split; [done |]. apply toDataURL_nonempty.
Qed.

(** The frames of the default tables are data URLs. *)
Lemma default_frameList s piece frames :
  default_assets s → frameList s piece = Some frames →
  Forall (λ frame, frame ≠ EmptyString) frames.
Proof.
  unfold default_assets, frameList. intros Hs.
  destruct (pieceSprites s); destruct (animationFrames s) as [anim|]; try done.
  destruct Hs as (_ & img1 & img2 & _ & Hres). cbn [mbind option_bind].
  destruct (Hres (color piece)) as (of_color & -> & Hlook).
  cbn [mbind option_bind]. rewrite Hlook. unfold resolved_strip.
  destruct (DEFAULT_CHESS_PIECES_CONFIG !! color piece ≫= _) as [pos|]; [| done].
  cbn [mbind option_bind].
  destruct (DEFAULT_ANIMATION_COLUMNS !! color piece) as [range|]; [| done].
  cbn [mbind option_bind]. intros [= <-]. unfold strip_frames.
  apply Forall_fmap, Forall_true. intros col. apply toDataURL_nonempty.
Qed.

(** X18. The template puts an image on a square exactly when the assets
    have been loaded and the square holds a piece.  Before [loading] turns
    false [sprite] is null on every square; afterwards every piece of the
    board has a sprite that is not the empty string, whether its square is
    selected or not and at every frame index, so the test [{#if sprite}]
    never hides a piece. *)
Theorem sprite_shown_iff_piece_and_loaded sz bd pc h0 es r c :
  let s := run es (create sz bd pc h0) in
  (shown r c s = true ↔ loading s = false ∧ is_Some (pieceAt r c s)) ∧
  ((∃ src, sprite r c s = Some src ∧ src ≠ EmptyString) ↔
   loading s = false ∧ is_Some (pieceAt r c s)) ∧
  sprite r c s ≠ Some EmptyString ∧
  (loading s = true ∨ pieceAt r c s = None → sprite r c s = None).
Proof.
  intros s. pose proof (coherent_reachable sz bd pc h0 es) as Hs. fold s in Hs.
  pose proof (default_assets_reachable sz bd pc h0 es) as Hassets. fold s in Hassets.
  assert (loading s = true ∨ pieceAt r c s = None → sprite r c s = None) as Hnothing.
  { intros Hcase. unfold sprite, spritesLoaded, getPieceSprite.
    destruct (pieceSprites s) as [sprites|] eqn:Hsprites; [| done].
    destruct Hcase as [Hloading | ->]; [| done].
    unfold default_assets in Hassets. rewrite Hsprites in Hassets.
    destruct (animationFrames s); [| done]. destruct Hassets as [Hloaded _]. congruence. }
  assert (loading s = false → is_Some (pieceAt r c s) →
          ∃ src, sprite r c s = Some src ∧ src ≠ EmptyString) as Hsomething.
  { intros Hloading [piece Hpiece]. unfold sprite, spritesLoaded.
    destruct (pieceSprites s) as [sprites|] eqn:Hsprites.
    2: { unfold default_assets in Hassets. rewrite Hsprites in Hassets.
         destruct (animationFrames s); [done | congruence]. }
    rewrite (getPieceSprite_eq r c _ _ s piece sprites) by done.
    destruct (default_staticSprite s piece Hassets) as (static & Hstatic & Hknown);
      [by rewrite Hsprites |].
    assert (∃ src, or_null (staticSprite s piece) = Some src ∧ src ≠ EmptyString)
      as Hfallback.
    { rewrite Hstatic. exists static. split; [| done].
      destruct static; [by destruct Hknown | done]. }
    destruct (frameList s piece) as [[|frame0 rest]|] eqn:Hframes; [done | | done].
    case_bool_decide; [| done].
    pose proof (default_frameList s piece _ Hassets Hframes) as Hurls.
    destruct (lookup_lt_is_Some_2 (frame0 :: rest)
                (currentFrame s `mod` length (frame0 :: rest))) as [src Hsrc].
    { apply Nat.mod_upper_bound. simpl. lia. }
    exists src. split; [done |]. rewrite Forall_forall in Hurls. apply Hurls.
    by apply list_elem_of_lookup_2 in Hsrc. }
  assert ((∃ src, sprite r c s = Some src ∧ src ≠ EmptyString) ↔
          loading s = false ∧ is_Some (pieceAt r c s)) as Hiff.
  { split; [| by intros [? ?]; apply Hsomething].
    intros (src & Hsrc & _).
    destruct (loading s) eqn:Hloading; [by rewrite Hnothing in Hsrc by (by left) |].
    split; [done |]. destruct (pieceAt r c s) eqn:Hpiece; [by eexists |].
    by rewrite Hnothing in Hsrc by (by right). }
  assert (sprite r c s ≠ Some EmptyString) as Hnonempty.
  { intros Hempty.
    destruct (loading s) eqn:Hloading; [by rewrite Hnothing in Hempty by (by left) |].
    destruct (pieceAt r c s) eqn:Hpiece; [| by rewrite Hnothing in Hempty by (by right)].
    destruct Hsomething as (src & Hsrc & Hknown); [done | by eexists |]. congruence. }
  split; [| done]. rewrite <- Hiff. unfold shown.
  destruct (sprite r c s) as [[|a src]|]; split; try done.
  - intros _. by eexists.
  - by intros (? & ? & _).
Qed.

(** *** Before and after [onMount] *)

Lemma run_snoc es (e : Event) s : run (es ++ [e]) s = step (run es s) e.
Proof. unfold run. by rewrite foldl_app. Qed.

(** X19. The board is placed by [onMount] and by nothing else, and stays
    placed.  Until then the component is inert: every click finds an empty
    square, so nothing is selected, no timer call is made and no square shows
    a sprite, even when the assets have been loaded. *)
Theorem board_is_placed_by_mount sz bd pc h0 es :
  let s := run es (create sz bd pc h0) in
  (Mount ∈ es → boardState s = getInitialBoard) ∧
  (Mount ∉ es →
     boardState s = [] ∧ selectedPiece s = None ∧ animationInterval s = None ∧
     timerCalls s = [] ∧ currentFrame s = 0 ∧
     ∀ r c, pieceAt r c s = None ∧ sprite r c s = None).
Proof.
  intros s.
  assert ((Mount ∈ es → boardState s = getInitialBoard) ∧
          (Mount ∉ es →
             boardState s = [] ∧ selectedPiece s = None ∧ animationInterval s = None ∧
             timerCalls s = [] ∧ currentFrame s = 0)) as [Hmounted Hunmounted].
  { subst s. induction es as [|e es IH] using rev_ind.
    - split; [by intros ?%elem_of_nil | done].
    - rewrite run_snoc. set (s := run es (create sz bd pc h0)) in *.
      pose proof (step_surroundings s e) as [Hsame _].
      destruct IH as [IHm IHu]. split.
      + intros Hin. apply elem_of_app in Hin as [Hin | Hin%list_elem_of_singleton].
        * specialize (IHm Hin). rewrite <- IHm.
          destruct e as [| w | r c | id |]; [by destruct Hsame | done | | |];
            by destruct Hsame as (_ & _ & _ & ? & _).
        * subst e. by destruct Hsame.
      + intros Hnotin.
        assert (Mount ∉ es) as Hes by (intros ?; apply Hnotin, elem_of_app; by left).
        assert (e ≠ Mount) as He.
        { intros ->. apply Hnotin, elem_of_app. right. by apply list_elem_of_singleton. }
        destruct (IHu Hes) as (Hboard & Hsel & Hid & Hcalls & Hframe).
        assert (stopAnimation s = s) as Hstop by (by apply stopAnimation_idle).
        destruct e as [| w | r c | id |]; cbn [step].
        * done.
        * by destruct (loadAssets w).1 as [[??]|].
        * unfold handleSquareClick. by rewrite (pieceAt_unplaced r c s Hboard), Hstop.
        * rewrite Hcalls. cbn [running].
          rewrite bool_decide_false; [done | apply not_elem_of_empty].
        * by rewrite Hstop. }
  split; [done |]. intros Hnotin.
  destruct (Hunmounted Hnotin) as (Hboard & Hsel & Hid & Hcalls & Hframe).
  repeat (split; [done |]). intros r c.
  pose proof (pieceAt_unplaced r c s Hboard) as Hnone. split; [done |].
  unfold sprite, getPieceSprite. rewrite Hnone.
  destruct (spritesLoaded s); [| done]. by destruct (pieceSprites s).
Qed.

End MoreBoardFacts.

(** ** The further properties at work on the small browser *)

(** Two pieces are both called king: the later position is kept, and the
    piece called [__proto__] leaves no key. *)
Lemma extractChessPieces_last_wins_witness :
  let pieces := [mkChessPieceConfig "king" (mkSpritePosition 0 0);
                 mkChessPieceConfig "__proto__" (mkSpritePosition 1 0);
                 mkChessPieceConfig "king" (mkSpritePosition 2 0)] in
  ∃ results : gmap string SpriteFrame,
    (extractChessPieces Tiny.sheet pieces 16 16 Tiny.page).1 = Resolved results ∧
    (pieces = [] → results = ∅) ∧
    ∀ key,
      results !! key =
        if decide (key = "__proto__") then None
        else (λ piece, crop (Tiny.mkImage Tiny.sheet 160 192)
                         (column (position piece) * 16)
                         (Sprites.row (position piece) * 16) 16 16)
               <$> last (filter (λ piece, name piece = key) pieces).
Proof.
  cbv zeta.
  apply (extractChessPieces_last_wins Tiny.sheet _ 16 16 Tiny.page
           (Tiny.mkImage Tiny.sheet 160 192));
    [vm_compute; reflexivity | reflexivity].
Defined.

(** A grid of no columns. *)
Lemma splitSpriteSheet_no_cells_witness :
  (splitSpriteSheet Tiny.sheet 0 3 Tiny.page).1 = Resolved [].
Proof.
  apply (splitSpriteSheet_no_cells Tiny.sheet 0 3 Tiny.page
           (Tiny.mkImage Tiny.sheet 160 192));
    [vm_compute; reflexivity | reflexivity | left; lia].
Defined.

(** The white range written backwards. *)
Lemma extractAnimationFrames_empty_range_witness :
  (extractAnimationFrames Tiny.sheet 6 4 1 16 16 Tiny.page).1 = Resolved [].
Proof.
  apply (extractAnimationFrames_empty_range Tiny.sheet 6 4 1 16 16 Tiny.page
           (Tiny.mkImage Tiny.sheet 160 192));
    [vm_compute; reflexivity | reflexivity | lia].
Defined.

(** Frame 61 of the default sheet is the sprite of column 1 on row 6. *)
Lemma splitSpriteSheet_agrees_with_extractSprite_witness :
  ∃ frames frame,
    (splitSpriteSheet Tiny.sheet 10 12 Tiny.page).1 = Resolved frames ∧
    (extractSprite Tiny.sheet 1 6
       (@img_width Tiny.browser (Tiny.mkImage Tiny.sheet 160 192) / 10)
       (@img_height Tiny.browser (Tiny.mkImage Tiny.sheet 160 192) / 12) Tiny.page).1
      = Resolved frame ∧
    frames !! Z.to_nat (6 * 10 + 1) = Some frame.
Proof.
  apply (splitSpriteSheet_agrees_with_extractSprite Tiny.sheet 10 12 Tiny.page
           (Tiny.mkImage Tiny.sheet 160 192) 6 1);
    [vm_compute; reflexivity | reflexivity | lia | lia].
Defined.

(** The white pawn's strip against the single sprites of its row. *)
Lemma extractAnimationFrames_agrees_with_extractSprite_witness :
  ∃ frames,
    (extractAnimationFrames Tiny.sheet 6 1 4 16 16 Tiny.page).1 = Resolved frames ∧
    (∀ col, (1 ≤ col ≤ 4)%Z →
       Resolved <$> frames !! Z.to_nat (col - 1)
       = Some (extractSprite Tiny.sheet col 6 16 16 Tiny.page).1) ∧
    (∀ i, (4 - 1 < Z.of_nat i)%Z → frames !! i = None).
Proof.
  apply (extractAnimationFrames_agrees_with_extractSprite Tiny.sheet 6 1 4 16 16 Tiny.page
           (Tiny.mkImage Tiny.sheet 160 192));
    [vm_compute; reflexivity | reflexivity].
Defined.

(** The white pawn of the shipped configuration: column 0 of row 6, animated
    over the columns 1 to 4. *)
Lemma loaders_agree_with_single_extractions_witness :
  (is_FullChessConfig DEFAULT_CHESS_PIECES_CONFIG →
   ∃ sprites : PieceSprites,
     (loadChessPiecesWithConfig Tiny.sheet DEFAULT_CHESS_PIECES_CONFIG 16 16 Tiny.page).1
       = Resolved sprites ∧
     Resolved <$> (sprites !! white ≫= (.!! pawn))
     = Some (extractSprite Tiny.sheet (column (mkSpritePosition 0 6))
               (Sprites.row (mkSpritePosition 0 6)) 16 16 Tiny.page).1) ∧
  (has_ranges DEFAULT_CHESS_PIECES_CONFIG DEFAULT_ANIMATION_COLUMNS →
   ∃ frames : PieceAnimationFrames,
     (loadPieceAnimationFrames Tiny.sheet DEFAULT_CHESS_PIECES_CONFIG
        DEFAULT_ANIMATION_COLUMNS Tiny.page).1 = Resolved frames ∧
     Resolved <$> (frames !! white ≫= (.!! pawn))
     = Some (extractAnimationFrames Tiny.sheet (Sprites.row (mkSpritePosition 0 6))
               (startColumn (mkAnimationColumnsConfig 1 4))
               (endColumn (mkAnimationColumnsConfig 1 4))
               CHESS_SPRITE_SIZE CHESS_SPRITE_SIZE Tiny.page).1).
Proof.
  eapply (loaders_agree_with_single_extractions Tiny.sheet DEFAULT_CHESS_PIECES_CONFIG
            DEFAULT_ANIMATION_COLUMNS 16 16 Tiny.page (Tiny.mkImage Tiny.sheet 160 192)
            white _ pawn (mkSpritePosition 0 6) (mkAnimationColumnsConfig 1 4));
    [vm_compute; reflexivity | reflexivity | vm_compute; reflexivity
    | vm_compute; reflexivity | vm_compute; reflexivity].
Defined.

(** The white pawn's strip in the loaded table has the four frames of the
    range 1 to 4. *)
Lemma animation_strips_have_the_range_length_witness :
  length (@strip_frames Tiny.browser (Tiny.mkImage Tiny.sheet 160 192) 6 1 4 16 16)
  = Z.to_nat (endColumn (mkAnimationColumnsConfig 1 4)
              - startColumn (mkAnimationColumnsConfig 1 4) + 1).
Proof.
  eapply (animation_strips_have_the_range_length Tiny.sheet DEFAULT_CHESS_PIECES_CONFIG
            DEFAULT_ANIMATION_COLUMNS Tiny.page _ white _ pawn _
            (mkAnimationColumnsConfig 1 4));
    [vm_compute; reflexivity | vm_compute; reflexivity | vm_compute; reflexivity
    | vm_compute; reflexivity].
Defined.

(** Two sheets whose second call settles first. *)
Lemma splitMultipleSpriteSheets_settles_witness :
  requests (splitMultipleSpriteSheets Tiny.two_sheets [1; 0] Tiny.gallery).2
    = reverse (item_url <$> Tiny.two_sheets) ++ requests Tiny.gallery ∧
  ((∃ results,
      (splitMultipleSpriteSheets Tiny.two_sheets [1; 0] Tiny.gallery).1 = Resolved results) ↔
   ∀ i it, Tiny.two_sheets !! i = Some it →
     context2d Tiny.gallery = true ∧
     ∃ img, respond Tiny.gallery (length (requests Tiny.gallery) + i) (item_url it)
            = Decoded img) ∧
  (∀ e, (splitMultipleSpriteSheets Tiny.two_sheets [1; 0] Tiny.gallery).1 = Rejected e →
     e = CouldNotGetCanvasContext ∨
     ∃ it, it ∈ Tiny.two_sheets ∧ e = FailedToLoadImage (item_url it)).
Proof.
  apply (splitMultipleSpriteSheets_settles Tiny.two_sheets [1; 0] Tiny.gallery).
  vm_compute. apply perm_swap.
Defined.

(** The same two sheets: each url holds the frames of its own sheet. *)
Lemma splitMultipleSpriteSheets_resolves_witness :
  ∃ results : gmap string (list SpriteFrame),
    (splitMultipleSpriteSheets Tiny.two_sheets [1; 0] Tiny.gallery).1 = Resolved results ∧
    (∀ i it, Tiny.two_sheets !! i = Some it →
       ∃ img,
         respond Tiny.gallery (length (requests Tiny.gallery) + i) (item_url it)
         = Decoded img ∧
         results !! item_url it =
           if decide (item_url it = "__proto__") then None
           else Some (sheet_frames img (item_columns it) (default 1%Z (item_rows it))
                        (img_width img / item_columns it)
                        (img_height img / default 1%Z (item_rows it)))) ∧
    (∀ key, is_Some (results !! key) →
       key ≠ "__proto__" ∧ key ∈ item_url <$> Tiny.two_sheets).
Proof.
  eexists. split; [vm_compute; reflexivity |].
  apply (splitMultipleSpriteSheets_resolves Tiny.two_sheets [1; 0] Tiny.gallery).
  - vm_compute. apply perm_swap.
  - apply (bool_decide_unpack _). vm_compute. exact I.
  - vm_compute. reflexivity.
Defined.

(** The e2 pawn is clicked on the mounted board, its interval ticks three
    times, and it is clicked again. *)
Lemma select_then_deselect_witness :
  let s := run [Mount] (create 8 "/assets/boards/chessBoard1.webp" white 1) in
  let s1 := handleSquareClick 6 4 s in
  let s2 := run (replicate 3 (Tick (nextHandle s))) s1 in
  s1 = mkComponent (size s) (board s) (playerColor s) (boardState s) (pieceSprites s)
         (animationFrames s) (loading s) (Some (mkCell 6 4)) 0 (Some (nextHandle s))
         (SetInterval (nextHandle s) :: timerCalls s) (Pos.succ (nextHandle s)) ∧
  s2 = set_currentFrame 3 s1 ∧
  handleSquareClick 6 4 s2
  = mkComponent (size s) (board s) (playerColor s) (boardState s) (pieceSprites s)
      (animationFrames s) (loading s) (selectedPiece s) (currentFrame s)
      (animationInterval s)
      (ClearInterval (nextHandle s) :: SetInterval (nextHandle s) :: timerCalls s)
      (Pos.succ (nextHandle s)).
Proof.
  cbv zeta.
  apply (select_then_deselect 8 "/assets/boards/chessBoard1.webp" white 1 [Mount] 6 4
           (mkPiece white pawn) 3);
    [vm_compute; reflexivity | vm_compute; reflexivity | vm_compute; reflexivity].
Defined.

(** The e2 pawn is clicked once the assets are loaded, and its interval
    ticks five times. *)
Lemma animation_cycles_witness :
  let s := run [Mount; AssetsSettled Tiny.page]
             (create 8 "/assets/boards/chessBoard1.webp" white 1) in
  let frames := @strip_frames Tiny.browser (Tiny.mkImage Tiny.sheet 160 192) 6 1 4 16 16 in
  let s' := run (Click 6 4 :: replicate 5 (Tick (nextHandle s))) s in
  selectedPiece s' = Some (mkCell 6 4) ∧
  currentFrame s' = 5 ∧
  sprite 6 4 s' = frames !! (5 `mod` length frames) ∧
  is_Some (sprite 6 4 s') ∧
  ∀ r' c', (r', c') ≠ (6, 4) → sprite r' c' s' = getPieceSprite r' c' 0 None s.
Proof.
  cbv zeta.
  apply (animation_cycles 8 "/assets/boards/chessBoard1.webp" white 1
           [Mount; AssetsSettled Tiny.page] 6 4 (mkPiece white pawn)
           (@strip_frames Tiny.browser (Tiny.mkImage Tiny.sheet 160 192) 6 1 4 16 16) 5);
    [vm_compute; reflexivity | vm_compute; reflexivity | vm_compute; discriminate
    | vm_compute; reflexivity | discriminate].
Defined.
